(** * bh_support.notedb: the synchronisation engine of the Bear backup

    A shallow embedding of [src/bh_support/notedb.py] (class [NoteDB]) and
    the properties of its synchronisation pass.

    Modelling decisions, each visible in the definitions below:
    - a note is the dictionary of strings Bear sends: its tags are one
      string, the serialised tag list, which [sorted] takes apart into
      characters;
    - the backup store is a tree of finite maps
      [active/<identifier>/<timestamp>/<file name>] (and the same under
      [deleted/]); identifiers, timestamps and attachment names are taken to
      be plain path components, and every entry of [active/] and of an
      identifier directory is a directory;
    - file contents are tagged values ([File]): what [json.dumps] wrote is
      read back by [json.load] as the same record, and the lines written to
      [note.md] are read back by [read().splitlines()] as the same lines;
    - the running Bear application and its attachment folders are a
      read-only environment ([Remote]) that does not change during a pass;
    - Python exceptions and [sys.exit()] are results of a state and error
      monad; the state keeps everything written before the exception;
    - every write to the store and every [print] is also appended to a
      trace ([log]). *)

From Stdlib Require Import ZArith Lia Ascii String.
From stdpp Require Import base gmap strings list sorting fin_maps.

Local Open Scope string_scope.
Local Open Scope Z_scope.
Local Open Scope list_scope.

(** ** Python strings *)

Module PyStr.

(** [sub in line] *)
Definition contains (sub line : string) : bool :=
  match String.index 0 sub line with Some _ => true | None => false end.

(** [line.find(sub, start)]: the lowest index at or after [start] where
    [sub] occurs, or -1. *)
Definition find (line sub : string) (start : nat) : Z :=
  match String.index start sub line with
  | Some m => Z.of_nat m
  | None => -1
  end.

(** A slice bound as Python normalises it: negative bounds count from the
    end, and everything is clamped to [0, len]. *)
Definition norm_index (len i : Z) : Z :=
  if i <? 0 then Z.max (i + len) 0 else Z.min i len.

(** [line[b:e]] *)
Definition slice (line : string) (b e : Z) : string :=
  let len := Z.of_nat (String.length line) in
  let lo := norm_index len b in
  let hi := norm_index len e in
  if lo <? hi then String.substring (Z.to_nat lo) (Z.to_nat (hi - lo)) line
  else "".

(** [s.replace(":", "-")], character by character. *)
Fixpoint replace_colon (s : string) : string :=
  match s with
  | EmptyString => EmptyString
  | String c s' =>
      String (if Ascii.eqb c ":"%char then "-"%char else c) (replace_colon s')
  end.

(** [sorted(l)]: strings are ordered by code point, a proper prefix
    before its extensions ([String.le]). *)
Definition sorted (l : list string) : list string := merge_sort String.le l.

(** What iterating over the [str] [s] yields: its characters, each a
    string of length one. [sorted(s)] is [sorted (chars s)]. *)
Fixpoint chars (s : string) : list string :=
  match s with
  | EmptyString => []
  | String c s' => String c EmptyString :: chars s'
  end.

End PyStr.

(** ** Data model *)

(** One element of the list Bear's [search] action returns, a dictionary
    of strings ([Dict[str,str]], as [note_list] documents it); [mdate] of
    the source is [PyStr.replace_colon] of [modificationDate]. [tags] is a
    string too, the serialised tag list (['[]'] for a note without tags),
    so [sorted(note["tags"])] sorts its characters. *)
Record Note := mkNote {
  identifier : string;
  modificationDate : string;
  title : string;
  tags : string;
  creationDate : string;
  pin : string
}.

#[global] Instance Note_eq_dec : EqDecision Note.
Proof. solve_decision. Defined.

Definition mdate (n : Note) : string := PyStr.replace_colon (modificationDate n).

(** What a file of the store holds. *)
Inductive File :=
| FJson (n : Note)               (* [json.dumps(note)] *)
| FText (ls : list string)       (* lines, each followed by a newline *)
| FCopy (atype src : string)     (* a copy of an attachment of Bear *)
| FEmpty.                        (* a zero-byte file *)

(** A snapshot directory, the snapshots of one identifier, one area. *)
Abbreviation Snapshot := (gmap string File).
Abbreviation History := (gmap string (gmap string File)).
Abbreviation Area := (gmap string (gmap string (gmap string File))).

Inductive Exn :=
| XCallError (reason : string)
| SystemExit
| IndexError
| FileNotFoundError
| JSONDecodeError
| ValueError
| AssertionError
| KeyError
| OSError
| FuelExhausted.     (* never produced: see [links_loop_total] *)

Inductive Res (A : Type) :=
| Ok (a : A)
| Raise (e : Exn).
Arguments Ok {A} a.
Arguments Raise {A} e.

(** Trace of a pass: writes to the store and console output. *)
Inductive Event :=
| Print (msg : string)
| Mkdir (id md : string)                    (* [path.mkdir(parents=True, exist_ok=True)] *)
| WriteJson (id md : string) (n : Note)     (* [note.json] written *)
| OpenText (id md : string)                 (* [note.md] opened with mode "w" *)
| WriteLine (id md : string) (line : string)
| Copy (id md : string) (atype src name : string)   (* [shutil.copy] *)
| Touch (id md : string)                    (* [done.touch()] *)
| MkdirDeleted                              (* [del_dir.mkdir(exist_ok=True)] *)
| Rename (id : string).                     (* [src.rename(dst)] *)

(** The identifier directory of [active/] an event writes to. *)
Definition ev_target (e : Event) : option string :=
  match e with
  | Mkdir id _ | WriteJson id _ _ | OpenText id _ | WriteLine id _ _
  | Copy id _ _ _ _ | Touch id _ | Rename id => Some id
  | Print _ | MkdirDeleted => None
  end.

(** The store on disk, the index [self._nlist] and the trace. *)
Record World := mkWorld {
  active : Area;
  deleted : Area;
  nlist : gmap string Note;
  log : list Event
}.

(** The running application: the result of the [search] action, of
    [open-note] per identifier (already split into lines), and whether
    [shutil.copy] of an attachment succeeds. *)
Record Remote := mkRemote {
  search : Res (list Note);
  open_note : string → Res (list string);
  copy_ok : string → string → string → bool    (* atype, source, name *)
}.

(** ** The monad *)

Definition M (A : Type) : Type := World → Res A * World.

Definition ret {A} (a : A) : M A := λ w, (Ok a, w).
Definition raise {A} (e : Exn) : M A := λ w, (Raise e, w).
Definition bind {A B} (m : M A) (k : A → M B) : M B :=
  λ w, match m w with
       | (Ok a, w') => k a w'
       | (Raise e, w') => (Raise e, w')
       end.
Definition lift {A} (r : Res A) : M A := λ w, (r, w).

Notation "x <- m ;; k" := (bind m (λ x, k))
  (at level 100, m at next level, right associativity).
Notation "m ;; k" := (bind m (λ _, k))
  (at level 100, right associativity).

(** [for x in l: f x] *)
Fixpoint for_each {A} (f : A → M unit) (l : list A) : M unit :=
  match l with
  | [] => ret tt
  | x :: l' => f x ;; for_each f l'
  end.

(** A loop that updates local variables [acc]. *)
Fixpoint for_acc {A S} (f : S → A → M S) (acc : S) (l : list A) : M S :=
  match l with
  | [] => ret acc
  | x :: l' => acc' <- f acc x ;; for_acc f acc' l'
  end.

(** ** Primitive effects *)

Definition emit (e : Event) : M unit :=
  λ w, (Ok tt, mkWorld (active w) (deleted w) (nlist w) (log w ++ [e])).

Definition print (msg : string) : M unit := emit (Print msg).

Definition get_world : M World := λ w, (Ok w, w).

Definition set_active (a : Area) : M unit :=
  λ w, (Ok tt, mkWorld a (deleted w) (nlist w) (log w)).

Definition set_deleted (d : Area) : M unit :=
  λ w, (Ok tt, mkWorld (active w) d (nlist w) (log w)).

Definition set_nlist (nl : gmap string Note) : M unit :=
  λ w, (Ok tt, mkWorld (active w) (deleted w) nl (log w)).

(** The snapshots of [id] in an area; a missing directory has none. *)
Definition history (a : Area) (id : string) : History := default ∅ (a !! id).

(** The snapshot directory [active/id/md], if it exists. *)
Definition snapshot (a : Area) (id md : string) : option Snapshot :=
  history a id !! md.

(** The file [active/id/md/name], if it exists. *)
Definition file_at (a : Area) (id md name : string) : option File :=
  snapshot a id md ≫= λ d, d !! name.

(** Store [d] as the snapshot directory [active/id/md]. *)
Definition put_snapshot (a : Area) (id md : string) (d : Snapshot) : Area :=
  <[id := <[md := d]> (history a id)]> a.

(** Create or replace the file [name] of [active/id/md]; the directory was
    made before. *)
Definition write_file (id md name : string) (f : File) : M unit :=
  w <- get_world ;;
  match snapshot (active w) id md with
  | Some d => set_active (put_snapshot (active w) id md (<[name := f]> d))
  | None => raise FileNotFoundError
  end.

(** [path.mkdir(parents=True, exist_ok=True)] *)
Definition mkdir (id md : string) : M unit :=
  emit (Mkdir id md) ;;
  w <- get_world ;;
  match snapshot (active w) id md with
  | Some _ => ret tt
  | None => set_active (put_snapshot (active w) id md ∅)
  end.

(** [done.touch()]: an existing file keeps its contents. *)
Definition touch (id md : string) : M unit :=
  w <- get_world ;;
  match snapshot (active w) id md with
  | None => raise FileNotFoundError
  | Some d =>
      emit (Touch id md) ;;
      match d !! ".done" with
      | Some _ => ret tt
      | None => set_active (put_snapshot (active w) id md (<[".done" := FEmpty]> d))
      end
  end.

(** [with open(json_path) as f: json.load(f)]. A file that [json.dumps]
    wrote loads as the record written; an empty file does not load. A
    text file or a copied attachment under this name is taken not to load
    either: what such a file holds is not modelled. *)
Definition load_json (id md : string) : M Note :=
  w <- get_world ;;
  match file_at (active w) id md "note.json" with
  | Some (FJson n) => ret n
  | Some _ => raise JSONDecodeError
  | None => raise FileNotFoundError
  end.

(** [sorted(list(Path(active/id/).glob("*")))], as directory names. *)
Definition note_dates (a : Area) (id : string) : list string :=
  PyStr.sorted (fst <$> map_to_list (history a id)).

(** ** The program *)

(** [if not link in links: links.append(link)] *)
Definition add_link (links : list string) (link : string) : list string :=
  if decide (link ∈ links) then links else links ++ [link].

(** The source path (relative to Bear's folder) and the file name that
    [_synchronise_attachment] reads off the first [[atype:...]] marker of
    [line]: [f = line[b:e]] and [line[s:e]]. *)
Definition attachment_ref (atype line : string) : string * string :=
  let b := PyStr.find line ("[" +:+ atype +:+ ":") 0
           + Z.of_nat (String.length atype) + 2 in
  let e := PyStr.find line "]" (Z.to_nat b) in
  let s := PyStr.find line "/" (Z.to_nat b) + 1 in
  (PyStr.slice line b e, PyStr.slice line s e).

(** [self._nlist[ident] = note] *)
Definition remember_note (note : Note) : M unit :=
  w <- get_world ;;
  set_nlist (<[identifier note := note]> (nlist w)).

(** [src.rename(dst)] for [src = active/name], [dst = deleted/name]. *)
Definition rename_to_deleted (name : string) : M unit :=
  emit (Rename name) ;;
  w <- get_world ;;
  match active w !! name with
  | Some h =>
      set_active (delete name (active w)) ;;
      set_deleted (<[name := h]> (deleted w))
  | None => raise FileNotFoundError
  end.

(** [outf.write(line); outf.write("\n")] on the open [note.md]. *)
Definition append_text (id md line : string) : M unit :=
  emit (WriteLine id md line) ;;
  w <- get_world ;;
  match file_at (active w) id md "note.md" with
  | Some (FText ls) => write_file id md "note.md" (FText (ls ++ [line]))
  | _ => write_file id md "note.md" (FText [line])
  end.

(** [note_contents(note_id)] *)
Definition note_contents (note_id : string) : M (list string) :=
  w <- get_world ;;
  match last (note_dates (active w) note_id) with
  | None => raise IndexError
  | Some md =>
      match file_at (active w) note_id md "note.md" with
      | Some (FText ls) => ret ls
      | Some FEmpty => ret []
      | Some _ => raise ValueError
      | None => raise FileNotFoundError
      end
  end.

(** The [while found] loop of [note_links] on one line, from [offset],
    with the links collected so far. [fuel] bounds the iterations. *)
Fixpoint links_loop (fuel : nat) (note_id line : string) (offset : nat)
    (links : list string) : M (list string) :=
  match fuel with
  | O => raise FuelExhausted
  | S fuel' =>
      let start := PyStr.find line "[[" offset in
      if start =? -1 then ret links
      else
        let finish := PyStr.find line "]]" (Z.to_nat start) in
        if finish =? -1 then
          print ("ERROR: unterminated link in note " +:+ note_id) ;;
          print ("  " +:+ line) ;;
          raise SystemExit
        else
          let link := PyStr.slice line (start + 2) finish in
          links_loop fuel' note_id line (Z.to_nat (finish + 2))
                     (add_link links link)
  end.

(** The [for line in ...] loop of [note_links]. *)
Definition links_of_lines (note_id : string)
    : list string → list string → M (list string) :=
  for_acc (λ links line,
             links_loop (S (String.length line)) note_id line 0 links).

(** [note_links(note_id)] *)
Definition note_links (note_id : string) : M (list string) :=
  content <- note_contents note_id ;;
  links_of_lines note_id [] content.

(** [note_exists(note_id)] *)
Definition note_exists (w : World) (note_id : string) : bool :=
  bool_decide (is_Some (nlist w !! note_id)).

(** [note_list()]: the values of [self._nlist]. The index is a finite map
    here, so the order of the values (insertion order in Python) is not
    modelled. *)
Definition note_list (w : World) : list Note := snd <$> map_to_list (nlist w).

(** [has_note_with_title(note_title)] *)
Definition has_note_with_title (w : World) (note_title : string) : bool :=
  existsb (λ note, bool_decide (title note = note_title)) (note_list w).

(** [note_info(note_id)]: [self._nlist[note_id]] *)
Definition note_info (w : World) (note_id : string) : Res Note :=
  match nlist w !! note_id with
  | Some note => Ok note
  | None => Raise KeyError
  end.

Section Program.

Variable env : Remote.

(** [_synchronise_attachment(atype, path, line)]. [b] is an integer, so
    the test [b is None] of the source never holds. Only the first marker
    of the line is looked at. The copy is stored under the name
    [line[s:e]] as one path component, which is what [path / line[s:e]]
    is for a [plain_name]. *)
Definition _synchronise_attachment (atype id md line : string) : M unit :=
  let '(f, name) := attachment_ref atype line in
  if decide (name = "note.md") then raise AssertionError
  else
    (if copy_ok env atype f name
     then emit (Copy id md atype f name) ;;
          write_file id md name (FCopy atype f)
     else raise FileNotFoundError) ;;
    print ("             " +:+ name).

(** The body of [for line in content] of [_synchronise_note]. *)
Definition write_line (id md line : string) : M unit :=
  append_text id md line ;;
  (if PyStr.contains "[file:" line
   then _synchronise_attachment "file" id md line else ret tt) ;;
  (if PyStr.contains "[image:" line
   then _synchronise_attachment "image" id md line else ret tt).

(** [_synchronise_note(note, path, ident)] with
    [path = BACKUP_DIR/active/id/md]. *)
Definition _synchronise_note (note : Note) (id md : string) : M unit :=
  print ("synchronise: " +:+ title note) ;;
  mkdir id md ;;
  emit (WriteJson id md note) ;;
  write_file id md "note.json" (FJson note) ;;
  emit (OpenText id md) ;;
  write_file id md "note.md" (FText []) ;;
  content <- lift (open_note env id) ;;
  for_each (write_line id md) content.

(** The fetch of [synchronise]: [_synchronise_note] then the marker. *)
Definition fetch (note : Note) (id md : string) : M unit :=
  _synchronise_note note id md ;;
  touch id md.

(** Lines 132-148: the pair ([tags_changed], title to append to
    [title_changed], if any). *)
Definition examine (note : Note) : M (bool * option string) :=
  let ident := identifier note in
  w <- get_world ;;
  match file_at (active w) ident (mdate note) "note.json" with
  | Some _ =>
      meta <- load_json ident (mdate note) ;;
      ret (bool_decide (PyStr.sorted (PyStr.chars (tags meta))
                        ≠ PyStr.sorted (PyStr.chars (tags note))),
           None)
  | None =>
      match last (note_dates (active w) ident) with
      | None => ret (false, None)
      | Some latest =>
          meta <- load_json ident latest ;;
          if decide (title meta ≠ title note) then
            print ("titleChange: " +:+ title meta +:+ " -> " +:+ title note) ;;
            ret (false, Some (title meta))
          else ret (false, None)
      end
  end.

(** Lines 150-153. *)
Definition fetch_if_stale (tags_changed : bool) (note : Note) : M unit :=
  w <- get_world ;;
  if negb (bool_decide
             (is_Some (file_at (active w) (identifier note) (mdate note) ".done")))
     || tags_changed
  then fetch note (identifier note) (mdate note)
  else ret tt.

(** The body of the first loop of [synchronise]; the local variables
    [title_changed] and [active] are the accumulator. *)
Definition sync_one (acc : list string * list string) (note : Note)
    : M (list string * list string) :=
  let '(title_changed, act) := acc in
  remember_note note ;;
  r <- examine note ;;
  let '(tags_changed, changed) := r in
  fetch_if_stale tags_changed note ;;
  ret (title_changed ++ from_option (λ t, [t]) [] changed,
       act ++ [identifier note]).

(** The body of the second loop: re-fetch [ident] once per link that
    names a changed title. *)
Definition relink (title_changed : list string) (ident : string) : M unit :=
  links <- note_links ident ;;
  for_each (λ link,
    if decide (link ∈ title_changed) then
      w <- get_world ;;
      match nlist w !! ident with
      | Some note => fetch note ident (mdate note)
      | None => raise KeyError
      end
    else ret tt) links.

(** The body of the third loop, for the entry [name] of [active/]. *)
Definition remove_deleted (act : list string) (name : string) : M unit :=
  emit MkdirDeleted ;;
  if decide (name ∈ act) then ret tt
  else
    w <- get_world ;;
    match deleted w !! name with
    | Some _ =>
        print ("ERROR: deleted note was already deleted? " +:+ name)
    | None =>
        rename_to_deleted name ;;
        print (name +:+ " deleted")
    end.

(** The first loop of [synchronise]: the lists [title_changed] and
    [active] it builds. *)
Definition first_pass (nl : list Note) : M (list string * list string) :=
  for_acc sync_one ([], []) nl.

(** The second loop of [synchronise]. *)
Definition second_pass (title_changed act : list string) : M unit :=
  for_each (relink title_changed) act.

(** The third loop of [synchronise]: it runs over the entries [active/]
    has when it starts. *)
Definition third_pass (act : list string) : M unit :=
  w <- get_world ;;
  for_each (remove_deleted act) (fst <$> map_to_list (active w)).

(** [synchronise()] *)
Definition synchronise : M unit :=
  set_nlist ∅ ;;
  nl <- lift (search env) ;;
  r <- first_pass nl ;;
  let '(title_changed, act) := r in
  second_pass title_changed act ;;
  third_pass act.

End Program.

(** ** Specification vocabulary *)

(** [sub] occurs in [line] at index [i]. *)
Definition occurs (sub line : string) (i : nat) : Prop :=
  String.substring i (String.length sub) line = sub.

(** [i] is the first index at or after [from] where [sub] occurs. *)
Definition first_at (sub line : string) (from i : nat) : Prop :=
  (from ≤ i)%nat ∧ occurs sub line i ∧
  ∀ p, (from ≤ p)%nat → (p < i)%nat → ¬ occurs sub line p.

(** Every opening delimiter of the line is followed by a closing one. *)
Definition well_formed (line : string) : Prop :=
  ∀ i, occurs "[[" line i → ∃ j, (i ≤ j)%nat ∧ occurs "]]" line j.

(** The titles between the non-overlapping delimiter pairs of [line], read
    from left to right starting at index [from]. *)
Inductive titles_from (line : string) : nat → list string → Prop :=
| titles_done from :
    (∀ i, (from ≤ i)%nat → ¬ occurs "[[" line i) →
    titles_from line from []
| titles_pair from s f ts :
    first_at "[[" line from s →
    first_at "]]" line s f →
    titles_from line (f + 2) ts →
    titles_from line from (String.substring (s + 2) (f - (s + 2)) line :: ts).

(** Each title once, at the place of its first occurrence. *)
Fixpoint first_seen (l : list string) : list string :=
  match l with
  | [] => []
  | x :: l' => x :: filter (λ y, y ≠ x) (first_seen l')
  end.

(** *** Traces *)

Definition is_touch (e : Event) : Prop :=
  match e with Touch _ _ => True | _ => False end.

(** What a successful [_synchronise_attachment] adds to the trace. *)
Definition attachment_writes (atype id md line : string) : list Event :=
  let '(f, name) := attachment_ref atype line in
  [Copy id md atype f name; Print ("             " +:+ name)].

(** What one line of the content adds: the line itself, then the copies
    of the attachments it refers to. *)
Definition line_writes (id md line : string) : list Event :=
  WriteLine id md line ::
  (if PyStr.contains "[file:" line then attachment_writes "file" id md line else [])
  ++ (if PyStr.contains "[image:" line then attachment_writes "image" id md line else []).

(** Everything a fetch writes before the completion marker. *)
Definition snapshot_writes (note : Note) (id md : string) (lines : list string)
    : list Event :=
  [Print ("synchronise: " +:+ title note); Mkdir id md;
   WriteJson id md note; OpenText id md]
  ++ flat_map (line_writes id md) lines.

(** In a trace, every completion marker comes right after all the writes
    of its snapshot, for the content Bear returns for the note. *)
Definition marker_last (env : Remote) (evs : list Event) : Prop :=
  ∀ pre id md post, evs = pre ++ Touch id md :: post →
    ∃ pre0 note lines,
      open_note env id = Ok lines ∧
      pre = pre0 ++ snapshot_writes note id md lines.

(** All text lines of a trace are written before any attachment is
    copied. *)
Definition text_before_attachments (evs : list Event) : Prop :=
  ∀ (i j : nat) id md atype f name id' md' line,
    evs !! i = Some (Copy id md atype f name) →
    evs !! j = Some (WriteLine id' md' line) →
    (j < i)%nat.

(** *** The decisions of the first loop, as functions of the store *)

(** [tags_changed] for [n], where the first loop gets as far as the test
    of line 151: with a metadata record at the expected path the
    comparison of line 137, without a metadata file there [False]. (With
    a file there that is not a record [json.load] raises and the test is
    not reached; the statements below that use this function have the
    record, or the missing marker, among their hypotheses.) *)
Definition tags_differ (a : Area) (n : Note) : bool :=
  match file_at a (identifier n) (mdate n) "note.json" with
  | Some (FJson meta) =>
      bool_decide (PyStr.sorted (PyStr.chars (tags meta))
                   ≠ PyStr.sorted (PyStr.chars (tags n)))
  | _ => false
  end.

(** [not done.exists() or tags_changed] for [n]. *)
Definition must_fetch (a : Area) (n : Note) : bool :=
  negb (bool_decide (is_Some (file_at a (identifier n) (mdate n) ".done")))
  || tags_differ a n.

(** The title appended to [title_changed] for [n], if any: no metadata
    file at the expected path, some snapshot directory for the identifier,
    and a different title in the metadata of the latest one. *)
Definition title_change (a : Area) (n : Note) : option string :=
  match file_at a (identifier n) (mdate n) "note.json" with
  | Some _ => None
  | None =>
      match last (note_dates a (identifier n)) with
      | None => None
      | Some latest =>
          match file_at a (identifier n) latest "note.json" with
          | Some (FJson meta) =>
              if decide (title meta ≠ title n) then Some (title meta) else None
          | _ => None
          end
      end
  end.

(** *** Frames *)

(** [e] writes only to identifier directories in [I]. *)
Definition ev_in (I : string → Prop) (e : Event) : Prop :=
  ∀ id, ev_target e = Some id → I id.

(** From [w] to [w']: the directories (in both areas) and the index
    entries of identifiers outside [I] are unchanged, and the trace grew
    by events that write inside [I] and satisfy [P]. *)
Record frame (I : string → Prop) (P : list Event → Prop) (w w' : World) : Prop :=
  mkFrame {
    frame_deleted : ∀ id, ¬ I id → deleted w' !! id = deleted w !! id;
    frame_active : ∀ id, ¬ I id → active w' !! id = active w !! id;
    frame_nlist : ∀ id, ¬ I id → nlist w' !! id = nlist w !! id;
    frame_log : ∃ evs, log w' = log w ++ evs ∧ Forall (ev_in I) evs ∧ P evs
  }.

(** Trace properties that hold of nothing and are kept by appending. *)
Class Closed (P : list Event → Prop) : Prop := {
  closed_nil : P [];
  closed_app l1 l2 : P l1 → P l2 → P (l1 ++ l2)
}.

(** Every run of [m] relates its first and last world by [R]. *)
Definition sat {A} (R : relation World) (m : M A) : Prop :=
  ∀ w r w', m w = (r, w') → R w w'.

(** *** Relations between the worlds of a run *)

(** A trace without completion markers. *)
Definition no_touch : list Event → Prop := Forall (λ e, ¬ is_touch e).

(** A trace of console output only. *)
Definition silent : list Event → Prop := Forall (λ e, ev_target e = None).

(** The trace of [w'] extends the trace of [w]. *)
Definition log_grows (w w' : World) : Prop := ∃ evs, log w' = log w ++ evs.

(** The world in which the first loop starts. *)
Definition reset (w : World) : World :=
  mkWorld (active w) (deleted w) ∅ (log w).

(** Every identifier but [id]. *)
Definition others (id : string) : string → Prop := λ id', id' ≠ id.

(** Every file of the active directories of the identifiers in [I] that
    exists in [w] exists in [w']. *)
Definition grows (I : string → Prop) (w w' : World) : Prop :=
  ∀ id md name, I id →
    is_Some (file_at (active w) id md name) →
    is_Some (file_at (active w') id md name).

(** [id]'s directories are the same in [w] and [w'], and the trace grew by
    events that do not write to them. *)
Definition apart (id : string) (w w' : World) : Prop :=
  active w' !! id = active w !! id ∧
  deleted w' !! id = deleted w !! id ∧
  nlist w' !! id = nlist w !! id ∧
  ∃ evs, log w' = log w ++ evs ∧ Forall (λ e, ev_target e ≠ Some id) evs.

(** [id]'s active directory is the same in [w] and [w'], and the trace
    grew by events that do not write to it. *)
Definition quiet (id : string) (w w' : World) : Prop :=
  active w' !! id = active w !! id ∧
  ∃ evs, log w' = log w ++ evs ∧ Forall (λ e, ev_target e ≠ Some id) evs.

(** A run leaves the component [proj] of the world as it is. *)
Definition keeps {A} (proj : World → A) : relation World :=
  λ w w', proj w' = proj w.

(** No entry of the deleted area is lost or replaced. *)
Definition deleted_grows (w w' : World) : Prop := deleted w ⊆ deleted w'.

(** The index after the first loop: the notes of the remote list, entered
    in order. *)
Definition index_of (nl : list Note) : gmap string Note :=
  foldl (λ m n, <[identifier n := n]> m) ∅ nl.

(** [i] is an index of [s] that holds a colon. *)
Definition colon_at (s : string) (i : nat) : Prop :=
  String.get i s = Some ":"%char.

(** The character [c] does not occur in [s]. *)
Definition free_of (c : ascii) (s : string) : Prop :=
  ∀ i, String.get i s ≠ Some c.

(** The file names under which [_synchronise_note] stores the attachments
    of [line]. *)
Definition attachment_names (line : string) : list string :=
  (if PyStr.contains "[file:" line
   then [snd (attachment_ref "file" line)] else [])
  ++ (if PyStr.contains "[image:" line
      then [snd (attachment_ref "image" line)] else []).

(** The file [id/md/name] of the active area. *)
Definition file_of (id md name : string) (w : World) : option File :=
  file_at (active w) id md name.

(** From [w] to [w'] no snapshot directory other than [id/md] is created,
    removed or changed. *)
Definition within (id md : string) (w w' : World) : Prop :=
  ∀ id' md', (id', md') ≠ (id, md) →
    snapshot (active w') id' md' = snapshot (active w) id' md'.

(** Every snapshot directory that has a completion marker has a metadata
    file. *)
Definition complete_markers (a : Area) : Prop :=
  ∀ id md, is_Some (file_at a id md ".done") →
           is_Some (file_at a id md "note.json").

(** Every [note.json] of the area is a metadata record, as
    [_synchronise_note] writes it. *)
Definition metadata_records (a : Area) : Prop :=
  ∀ id md f, file_at a id md "note.json" = Some f → ∃ m, f = FJson m.

(** The first loop has nothing to do for [n]: its snapshot directory has
    the marker, and its metadata file is a record whose tags have the
    characters of the remote ones, so that [sorted(meta["tags"])] equals
    [sorted(note["tags"])]. *)
Definition up_to_date (a : Area) (n : Note) : Prop :=
  is_Some (file_at a (identifier n) (mdate n) ".done") ∧
  ∃ meta,
    file_at a (identifier n) (mdate n) "note.json" = Some (FJson meta) ∧
    PyStr.chars (tags meta) ≡ₚ PyStr.chars (tags n).

(** A name that [path / name] keeps right below [path]: one path
    component, not empty and not a dot name. *)
Definition plain_name (s : string) : Prop :=
  s ≠ "" ∧ s ≠ "." ∧ s ≠ ".." ∧ free_of "/" s.

(** The attachments of [lines] are stored under plain names, none of them
    under the name of the metadata file. *)
Definition plain_attachments (lines : list string) : Prop :=
  ∀ line nm, line ∈ lines → nm ∈ attachment_names line →
             plain_name nm ∧ nm ≠ "note.json".

(** ... for the text of every note of [nl]. *)
Definition attachments_apart (env : Remote) (nl : list Note) : Prop :=
  ∀ n lines, n ∈ nl → open_note env (identifier n) = Ok lines →
             plain_attachments lines.

(** The snapshot directory of [n] is as a completed fetch of [n] leaves
    it: marker, metadata and text are there, and with plain attachments
    the text is what Bear returned and the metadata is [n]. *)
Definition fetched (env : Remote) (a : Area) (n : Note) : Prop :=
  ∃ lines,
    open_note env (identifier n) = Ok lines ∧
    is_Some (file_at a (identifier n) (mdate n) ".done") ∧
    is_Some (file_at a (identifier n) (mdate n) "note.json") ∧
    is_Some (file_at a (identifier n) (mdate n) "note.md") ∧
    (plain_attachments lines →
     file_at a (identifier n) (mdate n) "note.md" = Some (FText lines) ∧
     file_at a (identifier n) (mdate n) "note.json" = Some (FJson n)).

(** From [w] to [w'] the store is unchanged, and the trace grew by events
    that write to no note directory. *)
Definition idle (w w' : World) : Prop :=
  active w' = active w ∧ deleted w' = deleted w ∧
  ∃ evs, log w' = log w ++ evs ∧ silent evs.

(** A run that starts in a world with [Q] ends in one. *)
Definition stays (Q : World → Prop) : relation World := λ w w', Q w → Q w'.

(** Every entry of the index is a note of [nl], stored under its own
    identifier. *)
Definition indexed (nl : list Note) (w : World) : Prop :=
  ∀ i m, nlist w !! i = Some m → identifier m = i ∧ m ∈ nl.

(** [id/md] is a snapshot directory of a note of [nl] that is not the
    one [synchronise] expects for any note of [nl]. *)
Definition older_snapshot (nl : list Note) (id md : string) : Prop :=
  id ∈ identifier <$> nl ∧
  ∀ n, n ∈ nl → (identifier n, mdate n) ≠ (id, md).

(** From a world whose index holds notes of [nl], a run leads to such a
    world, and it leaves [id/md] as it is when that is an older snapshot. *)
Definition spares (nl : list Note) (id md : string) (w w' : World) : Prop :=
  indexed nl w →
  indexed nl w' ∧
  (older_snapshot nl id md →
   snapshot (active w') id md = snapshot (active w) id md).

(** *** Three statements of the specification, as it words them *)

(** C3 as worded: a note with a completion marker and the remote tags is
    never written to. *)
Definition fresh_note_never_written (env : Remote) (w : World) : Prop :=
  ∀ nl w' n meta,
    search env = Ok nl →
    synchronise env w = (Ok tt, w') →
    n ∈ nl →
    is_Some (file_at (active w) (identifier n) (mdate n) ".done") →
    file_at (active w) (identifier n) (mdate n) "note.json" = Some (FJson meta) →
    PyStr.chars (tags meta) ≡ₚ PyStr.chars (tags n) →
    ∀ evs, log w' = log w ++ evs →
           Forall (λ e, ev_target e ≠ Some (identifier n)) evs.

(** C4 as worded: in a fetch, all the text is written before any
    attachment is copied. *)
Definition fetch_text_first (env : Remote) (w : World) (n : Note) : Prop :=
  ∀ w' evs,
    fetch env n (identifier n) (mdate n) w = (Ok tt, w') →
    log w' = log w ++ evs →
    text_before_attachments evs.

(** C5 as worded, the half that fails: a title is recorded as changed
    only for a note that gets no fresh snapshot in this pass. *)
Definition recorded_only_if_skipped (env : Remote) (w : World) (n : Note) : Prop :=
  ∀ tc act tc' act' w',
    sync_one env (tc, act) n w = (Ok (tc', act'), w') →
    tc' ≠ tc →
    ∀ evs, log w' = log w ++ evs → Touch (identifier n) (mdate n) ∉ evs.

(** ** Scenarios *)

Module Scenario.

Definition T1 : string := "2021-11-15T08:45:59Z".
Definition T2 : string := "2021-12-01T10:00:00Z".
Definition D1 : string := "2021-11-15T08-45-59Z".

(** The tags as Bear serialises them: no tag, and the one tag [t]. *)
Definition no_tags : string := "[]".
Definition quote : string := String (Ascii.ascii_of_nat 34) EmptyString.
Definition one_tag (t : string) : string :=
  "[" +:+ quote +:+ t +:+ quote +:+ "]".

Definition note (id tm ttl tgs : string) : Note :=
  mkNote id tm ttl tgs "2019-07-07T13:02:42Z" "no".

(** A snapshot directory as a completed fetch leaves it. *)
Definition complete (meta : Note) (lines : list string) : Snapshot :=
  {[ "note.json" := FJson meta; "note.md" := FText lines; ".done" := FEmpty ]}.

Definition x_old : Note := note "X" T1 "Old" no_tags.
Definition a_note : Note := note "A" T1 "Index" no_tags.
Definition z_note : Note := note "Z" T1 "Gone" no_tags.

(** Bear answering [search] with [nl] and [open-note] with [text]. *)
Definition bear (nl : list Note) (text : string → list string) : Remote :=
  mkRemote (Ok nl) (λ id, Ok (text id)) (λ _ _ _, true).

(** One note [X], backed up completely at [T1]. *)
Definition store_x : Area := {[ "X" := {[ D1 := complete x_old ["hello"] ]} ]}.
Definition w_x : World := mkWorld store_x ∅ ∅ [].

(** The remote note keeps its timestamp; tags and title change. *)
Definition x_tagged : Note := note "X" T1 "New" (one_tag "a").
Definition env_tagged : Remote := bear [x_tagged] (λ _, ["hello"]).

(** Nothing changed remotely. *)
Definition env_same : Remote := bear [x_old] (λ _, ["hello"]).

(** [X] is backed up with the tag [ab]; in Bear its tag is now [ba], and
    nothing else of it changed. *)
Definition x_ab : Note := note "X" T1 "Old" (one_tag "ab").
Definition x_ba : Note := note "X" T1 "Old" (one_tag "ba").
Definition w_ab : World :=
  mkWorld {[ "X" := {[ D1 := complete x_ab ["hello"] ]} ]} ∅ ∅ [].
Definition env_ba : Remote := bear [x_ba] (λ _, ["hello"]).

(** Bear lists the note with new tags, and then fails to open it. *)
Definition env_offline : Remote :=
  mkRemote (Ok [x_tagged]) (λ _, Raise (XCallError "timeout")) (λ _ _ _, true).

(** The remote note has a new timestamp and a new title. *)
Definition x_renamed : Note := note "X" T2 "New" no_tags.
Definition env_renamed : Remote := bear [x_renamed] (λ _, ["hello"]).

(** [A] links to [X] by its old title and is itself unchanged. *)
Definition store_xa : Area :=
  {[ "X" := {[ D1 := complete x_old ["hello"] ]};
     "A" := {[ D1 := complete a_note ["see [[Old]]"] ]} ]}.
Definition w_xa : World := mkWorld store_xa ∅ ∅ [].
Definition env_xa : Remote :=
  bear [x_renamed; a_note]
       (λ id, if decide (id = "A") then ["see [[New]]"] else ["hello"]).

(** A note whose first line refers to an attachment. *)
Definition y_note : Note := note "Y" T1 "Paper" no_tags.
Definition env_attachment : Remote :=
  bear [y_note] (λ _, ["[file:U/a.pdf]"; "second line"]).
Definition w_empty : World := mkWorld ∅ ∅ ∅ [].

(** A fetch of [X] at [T1] that stopped right after [mkdir], and one
    that stopped after creating [note.json] and before writing to it. *)
Definition w_mkdir_only : World :=
  mkWorld {[ "X" := {[ D1 := ∅ ]} ]} ∅ ∅ [].
Definition w_empty_json : World :=
  mkWorld {[ "X" := {[ D1 := {[ "note.json" := FEmpty ]} ]} ]} ∅ ∅ [].

(** [Z] is backed up but no longer in Bear. *)
Definition z_history : History := {[ D1 := complete z_note ["bye"] ]}.
Definition store_xz : Area :=
  {[ "X" := {[ D1 := complete x_old ["hello"] ]}; "Z" := z_history ]}.
Definition w_xz : World := mkWorld store_xz ∅ ∅ [].

(** ... and was already moved to the deleted area once. *)
Definition z_deleted : History := {[ D1 := complete z_note ["earlier"] ]}.
Definition w_xz_dup : World := mkWorld store_xz {[ "Z" := z_deleted ]} ∅ [].

(** A store with one note [A] whose only snapshot holds [lines]. *)
Definition one_note_world (lines : list string) : World :=
  mkWorld {[ "A" := {[ "2021-11-15T08-45-59Z" :=
                        {[ "note.md" := FText lines ]} ]} ]} ∅ ∅ [].

Definition example_line : string := "see [[Project Plan]] and [[Budget]]".

End Scenario.

(** * Lemmas *)

(** ** Reasoning about the monad *)

Lemma bind_inv {A B} (m : M A) (k : A → M B) w r w' :
  bind m k w = (r, w') →
  (∃ a w1, m w = (Ok a, w1) ∧ k a w1 = (r, w')) ∨
  (∃ e, m w = (Raise e, w') ∧ r = Raise e).
Proof.
  unfold bind. destruct (m w) as [[a|e] w1]; intros H.
  - left. eauto.
  - right. inversion H; subst. eauto.
Qed.

Lemma bind_ok_inv {A B} (m : M A) (k : A → M B) w b w' :
  bind m k w = (Ok b, w') →
  ∃ a w1, m w = (Ok a, w1) ∧ k a w1 = (Ok b, w').
Proof.
  intros H. apply bind_inv in H as [H|(e & _ & H)]; [done|discriminate].
Qed.

Lemma bind_ok {A B} (m : M A) (k : A → M B) w a w1 :
  m w = (Ok a, w1) → bind m k w = k a w1.
Proof. unfold bind. by intros ->. Qed.

Lemma bind_raise {A B} (m : M A) (k : A → M B) w e w1 :
  m w = (Raise e, w1) → bind m k w = (Raise e, w1).
Proof. unfold bind. by intros ->. Qed.

Lemma for_acc_cons {A S} (f : S → A → M S) acc x l :
  for_acc f acc (x :: l) = bind (f acc x) (λ acc', for_acc f acc' l).
Proof. done. Qed.

Lemma for_each_cons {A} (f : A → M unit) x l :
  for_each f (x :: l) = bind (f x) (λ _, for_each f l).
Proof. done. Qed.

(** ** Python strings: facts about [find] and [slice] *)

Module PyStrFacts.
Import PyStr.

Lemma index_ge sub : ∀ line n m,
  String.index n sub line = Some m → (n ≤ m)%nat.
Proof.
  induction line as [|c line IH]; intros [|n] m; simpl; try lia.
  - discriminate.
  - destruct (String.index n sub line) eqn:E; [|discriminate].
    intros [= <-]. apply IH in E. lia.
Qed.

Lemma occurs_length sub line i :
  sub ≠ "" → occurs sub line i →
  (i + String.length sub ≤ String.length line)%nat.
Proof.
  unfold occurs. revert i sub.
  induction line as [|c line IH]; intros [|i] [|a sub] Hne; simpl; try done.
  - intros [= -> H]. destruct sub as [|b sub]; [simpl; lia|].
    specialize (IH 0%nat (String b sub)). simpl in IH, H |- *.
    specialize (IH ltac:(done) H). lia.
  - intros H. specialize (IH i (String a sub) Hne H). simpl in IH. lia.
Qed.

Lemma find_none line sub n :
  find line sub n = -1 ↔ String.index n sub line = None.
Proof. unfold find. destruct (String.index n sub line); split; (done || lia). Qed.

Lemma find_first line sub n :
  find line sub n ≠ -1 →
  ∃ m, find line sub n = Z.of_nat m ∧ first_at sub line n m.
Proof.
  unfold find. destruct (String.index n sub line) as [m|] eqn:E; [|done].
  intros _. exists m. split; [done|]. split; [|split].
  - by eapply index_ge.
  - by eapply String.index_correct1.
  - intros p ??. by eapply String.index_correct2.
Qed.

Lemma find_absent line sub n :
  sub ≠ "" → find line sub n = -1 →
  ∀ i, (n ≤ i)%nat → ¬ occurs sub line i.
Proof.
  intros Hne H%find_none i Hi. by eapply String.index_correct3.
Qed.

Lemma first_at_unique sub line from i j :
  first_at sub line from i → first_at sub line from j → i = j.
Proof.
  intros (Hi & Oi & Mi) (Hj & Oj & Mj).
  destruct (Nat.lt_trichotomy i j) as [H|[H|H]]; [|done|].
  - by destruct (Mj i).
  - by destruct (Mi j).
Qed.

(** A two-character delimiter occurs where its two characters stand. *)
Lemma occurs_pair a b line i :
  occurs (String a (String b "")) line i ↔
  String.get i line = Some a ∧ String.get (S i) line = Some b.
Proof.
  unfold occurs. simpl String.length. revert i.
  induction line as [|c line IH]; intros [|i]; simpl.
  - split; [done|]. by intros [? _].
  - split; [done|]. by intros [? _].
  - destruct line as [|d line]; simpl.
    + split; [done|]. by intros [_ ?].
    + assert (String.substring 0 0 line = "") as -> by (by destruct line).
      split; [by intros [= -> ->]|]. by intros [[= ->] [= ->]].
  - apply IH.
Qed.

Lemma slice_nonneg line b e :
  (b ≤ e)%nat → (e ≤ String.length line)%nat →
  slice line (Z.of_nat b) (Z.of_nat e) = String.substring b (e - b) line.
Proof.
  intros Hbe He. unfold slice, norm_index.
  destruct (Z.ltb_spec (Z.of_nat b) 0); [lia|].
  destruct (Z.ltb_spec (Z.of_nat e) 0); [lia|].
  rewrite !Z.min_l by lia.
  destruct (Z.ltb_spec (Z.of_nat b) (Z.of_nat e)).
  - f_equal; lia.
  - assert (e = b) as -> by lia. rewrite Nat.sub_diag.
    clear. revert b. induction line; intros [|b]; simpl; auto.
Qed.

End PyStrFacts.

(** ** The link extractor *)

Section Links.
Import PyStr PyStrFacts.

Lemma delimiters_apart line s f :
  occurs "[[" line s → occurs "]]" line f → (s ≤ f)%nat →
  (s + 2 ≤ f)%nat ∧ (f + 2 ≤ String.length line)%nat.
Proof.
  intros Hs Hf Hle. split.
  - apply occurs_pair in Hs as [Hs0 Hs1]. apply occurs_pair in Hf as [Hf0 Hf1].
    destruct (decide (f = s)) as [->|]; [congruence|].
    destruct (decide (f = S s)) as [->|]; [congruence|]. lia.
  - by apply (occurs_length "]]") in Hf.
Qed.

Lemma find_present line sub n i :
  sub ≠ "" → (n ≤ i)%nat → occurs sub line i → find line sub n ≠ -1.
Proof. intros Hne Hi Ho H. by eapply find_absent. Qed.

(** One iteration of the loop, when both delimiters are found. *)
Lemma links_loop_step fuel id line offset links s f :
  first_at "[[" line offset s → first_at "]]" line s f →
  links_loop (S fuel) id line offset links =
  links_loop fuel id line (f + 2)
    (add_link links (String.substring (s + 2) (f - (s + 2)) line)).
Proof.
  intros Hs Hf. simpl.
  destruct (find_first line "[[" offset) as (s' & Es & Hs').
  { destruct Hs as (? & ? & _). by eapply find_present. }
  assert (s' = s) as -> by eauto using first_at_unique.
  rewrite Es. destruct (Z.eqb_spec (Z.of_nat s) (-1)); [lia|].
  rewrite Nat2Z.id.
  destruct (find_first line "]]" s) as (f' & Ef & Hf').
  { destruct Hf as (? & ? & _). by eapply find_present. }
  assert (f' = f) as -> by eauto using first_at_unique.
  rewrite Ef. destruct (Z.eqb_spec (Z.of_nat f) (-1)); [lia|].
  destruct Hs as (_ & Os & _), Hf as (Hsf & Of & _).
  destruct (delimiters_apart line s f) as [H1 H2]; [done..|].
  replace (Z.of_nat s + 2) with (Z.of_nat (s + 2)) by lia.
  rewrite slice_nonneg by lia.
  replace (Z.to_nat (Z.of_nat f + 2)) with (f + 2)%nat by lia.
  done.
Qed.

(** On a well-formed line the loop ends normally, with the titles of the
    line added in order, and leaves the world alone. *)
Lemma links_loop_ok id line : well_formed line →
  ∀ fuel offset links w,
    (String.length line - offset < fuel)%nat →
    ∃ ts, titles_from line offset ts ∧
          links_loop fuel id line offset links w
          = (Ok (foldl add_link links ts), w).
Proof.
  intros Hwf. induction fuel as [|fuel IH]; intros offset links w Hfuel; [lia|].
  destruct (decide (find line "[[" offset = -1)) as [E|E].
  - exists []. split.
    + constructor. by apply find_absent.
    + simpl. rewrite E. done.
  - destruct (find_first _ _ _ E) as (s & Es & Hs).
    destruct (Hwf s) as (j & Hj & Oj); [apply Hs|].
    destruct (find_first line "]]" s) as (f & Ef & Hf).
    { by eapply find_present. }
    rewrite (links_loop_step _ _ _ _ _ s f) by done.
    destruct Hs as (Hos & Os & ?), Hf as (Hsf & Of & ?).
    destruct (delimiters_apart line s f) as [H1 H2]; [done..|].
    destruct (IH (f + 2)%nat
                (add_link links (String.substring (s + 2) (f - (s + 2)) line)) w)
      as (ts & Hts & ->); [lia|].
    eexists (_ :: ts). split; [by econstructor|done].
Qed.

(** An opening delimiter with no closing delimiter after it stops the
    process, wherever the scan starts before it. *)
Lemma links_loop_exit id line i :
  occurs "[[" line i → (∀ j, (i ≤ j)%nat → ¬ occurs "]]" line j) →
  ∀ fuel offset links w,
    (offset ≤ i)%nat → (String.length line - offset < fuel)%nat →
    ∃ w', links_loop fuel id line offset links w = (Raise SystemExit, w').
Proof.
  intros Oi Hno. induction fuel as [|fuel IH]; intros offset links w Hoff Hfuel; [lia|].
  destruct (find_first line "[[" offset) as (s & Es & Hs).
  { by eapply find_present. }
  assert (s ≤ i)%nat as Hsi.
  { destruct Hs as (_ & _ & Hmin). destruct (decide (s ≤ i)%nat); [done|].
    destruct (Hmin i); [lia..|done]. }
  destruct (decide (find line "]]" s = -1)) as [E|E].
  - simpl. rewrite Es. destruct (Z.eqb_spec (Z.of_nat s) (-1)); [lia|].
    rewrite Nat2Z.id, E. simpl. eauto.
  - destruct (find_first _ _ _ E) as (f & Ef & Hf).
    rewrite (links_loop_step _ _ _ _ _ s f) by done.
    destruct Hs as (Hos & Os & ?), Hf as (Hsf & Of & ?).
    destruct (delimiters_apart line s f) as [H1 H2]; [done..|].
    assert (f < i)%nat as Hfi.
    { destruct (decide (f < i)%nat); [done|]. destruct (Hno f); [lia|done]. }
    apply IH; [|lia].
    apply occurs_pair in Oi as [Oi _]. apply occurs_pair in Of as [_ Of].
    destruct (decide (i = S f)) as [->|]; [congruence|lia].
Qed.

(** With the fuel [note_links] gives it, the loop ends normally or stops
    the process; it never runs out of fuel. *)
Lemma links_loop_total id line :
  ∀ fuel offset links w,
    (String.length line - offset < fuel)%nat →
    (∃ l, links_loop fuel id line offset links w = (Ok l, w)) ∨
    (∃ w', links_loop fuel id line offset links w = (Raise SystemExit, w')).
Proof.
  induction fuel as [|fuel IH]; intros offset links w Hfuel; [lia|].
  destruct (decide (find line "[[" offset = -1)) as [E|E].
  { left. simpl. rewrite E. simpl. eauto. }
  destruct (find_first _ _ _ E) as (s & Es & Hs).
  destruct (decide (find line "]]" s = -1)) as [E'|E'].
  { right. simpl. rewrite Es. destruct (Z.eqb_spec (Z.of_nat s) (-1)); [lia|].
    rewrite Nat2Z.id, E'. simpl. eauto. }
  destruct (find_first _ _ _ E') as (f & Ef & Hf).
  rewrite (links_loop_step _ _ _ _ _ s f) by done.
  destruct Hs as (Hos & Os & ?), Hf as (Hsf & Of & ?).
  destruct (delimiters_apart line s f) as [H1 H2]; [done..|].
  apply IH. lia.
Qed.

Lemma links_of_lines_ok id lines : Forall well_formed lines →
  ∀ links w, ∃ tss,
    Forall2 (λ line ts, titles_from line 0 ts) lines tss ∧
    links_of_lines id links lines w
    = (Ok (foldl add_link links (concat tss)), w).
Proof.
  induction 1 as [|line lines Hwf _ IH]; intros links w.
  - exists []. split; [constructor|done].
  - destruct (links_loop_ok id line Hwf (S (String.length line)) 0%nat links w)
      as (ts & Hts & E); [lia|].
    destruct (IH (foldl add_link links ts) w) as (tss & Htss & E').
    exists (ts :: tss). split; [by constructor|].
    unfold links_of_lines in *. rewrite for_acc_cons.
    rewrite (bind_ok _ _ _ _ _ E). cbv beta. rewrite E'. by rewrite concat_cons, foldl_app.
Qed.

Lemma links_of_lines_total id lines :
  ∀ links w,
    (∃ l, links_of_lines id links lines w = (Ok l, w)) ∨
    (∃ w', links_of_lines id links lines w = (Raise SystemExit, w')).
Proof.
  induction lines as [|line lines IH]; intros links w.
  - left. by exists links.
  - unfold links_of_lines in *. rewrite for_acc_cons.
    destruct (links_loop_total id line (S (String.length line)) 0%nat links w)
      as [(l & E)|(w' & E)]; [lia|..].
    + rewrite (bind_ok _ _ _ _ _ E). apply IH.
    + right. exists w'. by rewrite (bind_raise _ _ _ _ _ E).
Qed.

Lemma links_of_lines_exit id lines :
  Exists (λ line, ∃ i, occurs "[[" line i ∧
                       ∀ j, (i ≤ j)%nat → ¬ occurs "]]" line j) lines →
  ∀ links w, ∃ w', links_of_lines id links lines w = (Raise SystemExit, w').
Proof.
  induction 1 as [line lines (i & Oi & Hno)|line lines _ IH]; intros links w.
  - destruct (links_loop_exit id line i Oi Hno (S (String.length line)) 0%nat links w)
      as (w' & E); [lia..|].
    exists w'. unfold links_of_lines. rewrite for_acc_cons.
    by rewrite (bind_raise _ _ _ _ _ E).
  - unfold links_of_lines in *. rewrite for_acc_cons.
    destruct (links_loop_total id line (S (String.length line)) 0%nat links w)
      as [(l & E)|(w' & E)]; [lia|..].
    + rewrite (bind_ok _ _ _ _ _ E). apply IH.
    + exists w'. by rewrite (bind_raise _ _ _ _ _ E).
Qed.

(** Appending unseen links one by one keeps each title once, in the
    order of first occurrence. *)
Lemma foldl_add_link ts : ∀ links,
  foldl add_link links ts
  = links ++ filter (λ y, y ∉ links) (first_seen ts).
Proof.
  induction ts as [|x ts IH]; intros links; simpl.
  - by rewrite app_nil_r.
  - rewrite IH. unfold add_link. rewrite filter_cons.
    destruct (decide (x ∈ links)) as [Hx|Hx].
    + rewrite decide_False by (by intros ?). f_equal.
      rewrite list_filter_filter. apply list_filter_iff.
      intros y. split; [|naive_solver]. intros Hy. split; [done|].
      by intros ->.
    + rewrite decide_True by done. rewrite <- app_assoc. f_equal. simpl. f_equal.
      rewrite list_filter_filter. apply list_filter_iff.
      intros y. rewrite elem_of_app, list_elem_of_singleton. naive_solver.
Qed.

Lemma foldl_add_link_nil ts : foldl add_link [] ts = first_seen ts.
Proof.
  rewrite foldl_add_link. simpl.
  induction (first_seen ts) as [|x l IH]; [done|].
  rewrite filter_cons_True by apply not_elem_of_nil. by rewrite IH.
Qed.

Lemma first_seen_elem_of l x : x ∈ first_seen l ↔ x ∈ l.
Proof.
  induction l as [|y l IH]; simpl; [done|].
  rewrite !elem_of_cons, list_elem_of_filter, IH.
  destruct (decide (x = y)); naive_solver.
Qed.

Lemma first_seen_NoDup l : NoDup (first_seen l).
Proof.
  induction l as [|y l IH]; simpl; constructor.
  - rewrite list_elem_of_filter. naive_solver.
  - by apply NoDup_filter.
Qed.

End Links.

(** ** Frames and the [sat] calculus *)

Section Sat.
Context (R : relation World) `{!PreOrder R}.

Lemma sat_ret {A} (a : A) : sat R (ret a).
Proof. intros w r w' [= <- <-]. done. Qed.

Lemma sat_raise {A} e : sat R (raise (A:=A) e).
Proof. intros w r w' [= <- <-]. done. Qed.

Lemma sat_lift {A} (x : Res A) : sat R (lift x).
Proof. intros w r w' [= <- <-]. done. Qed.

Lemma sat_get_world : sat R get_world.
Proof. intros w r w' [= <- <-]. done. Qed.

Lemma sat_bind {A B} (m : M A) (k : A → M B) :
  sat R m → (∀ a, sat R (k a)) → sat R (bind m k).
Proof.
  intros Hm Hk w r w' H. apply bind_inv in H as [(a & w1 & H1 & H2)|(e & H1 & _)].
  - etrans; [by eapply Hm|by eapply Hk].
  - by eapply Hm.
Qed.

Lemma sat_for_each {A} (f : A → M unit) l :
  (∀ x, sat R (f x)) → sat R (for_each f l).
Proof.
  intros Hf. induction l as [|x l IH]; simpl.
  - apply sat_ret.
  - apply sat_bind; [apply Hf|done].
Qed.

Lemma sat_for_acc {A S} (f : S → A → M S) l :
  (∀ acc x, sat R (f acc x)) → ∀ acc, sat R (for_acc f acc l).
Proof.
  intros Hf. induction l as [|x l IH]; intros acc; simpl.
  - apply sat_ret.
  - apply sat_bind; [apply Hf|done].
Qed.
End Sat.

Arguments sat_ret {R _ A} a.
Arguments sat_raise {R _ A} e.
Arguments sat_lift {R _ A} x.
Arguments sat_get_world {R _}.
Arguments sat_bind {R _ A B} m k.
Arguments sat_for_each {R _ A} f l.
Arguments sat_for_acc {R _ A S} f l.

Lemma sat_weaken {A} (R R' : relation World) (m : M A) :
  (∀ w w', R w w' → R' w w') → sat R m → sat R' m.
Proof. intros HR Hm w r w' H. eauto. Qed.

#[global] Instance Forall_closed (Q : Event → Prop) : Closed (Forall Q).
Proof. split; [constructor|]. intros. by apply Forall_app. Qed.

#[global] Instance frame_preorder I P `{!Closed P} : PreOrder (frame I P).
Proof.
  split.
  - intros w. split; try done. exists []. rewrite app_nil_r.
    split_and!; [done|constructor|apply closed_nil].
  - intros w1 w2 w3 [Hd1 Ha1 Hn1 (e1 & Hl1 & Hi1 & Hp1)] [Hd2 Ha2 Hn2 (e2 & Hl2 & Hi2 & Hp2)].
    split.
    + intros id Hid. rewrite Hd2, Hd1; done.
    + intros id Hid. rewrite Ha2, Ha1; done.
    + intros id Hid. rewrite Hn2, Hn1; done.
    + exists (e1 ++ e2). rewrite Hl2, Hl1, app_assoc.
      split_and!; [done|by apply Forall_app|by apply closed_app].
Qed.

Lemma frame_weaken (I I' : string → Prop) (P P' : list Event → Prop) w w' :
  (∀ id, I id → I' id) → (∀ evs, P evs → P' evs) →
  frame I P w w' → frame I' P' w w'.
Proof.
  intros HI HP [Hd Ha Hn (evs & Hl & Hi & Hp)]. split.
  - intros id Hid. apply Hd. naive_solver.
  - intros id Hid. apply Ha. naive_solver.
  - intros id Hid. apply Hn. naive_solver.
  - exists evs. split_and!; [done| |by apply HP].
    eapply Forall_impl; [done|]. intros e He id Hid. apply HI. by apply He.
Qed.

(** One step of symbolic execution in the goal or in a hypothesis. *)
Ltac sat_step :=
  lazymatch goal with
  | |- sat _ (bind _ _) => apply sat_bind; [|intros ?]
  | |- sat _ (ret _) => apply sat_ret
  | |- sat _ (raise _) => apply sat_raise
  | |- sat _ (lift _) => apply sat_lift
  | |- sat _ get_world => apply sat_get_world
  | |- sat _ (for_each _ _) => apply sat_for_each; intros ?
  | |- sat _ (for_acc _ _ _) => apply sat_for_acc; intros ? ?
  | |- sat _ (match ?x with _ => _ end) => destruct x eqn:?
  end.

(** Apply a frame lemma and discharge its class premises. *)
Tactic Notation "fapply" uconstr(l) := (apply l; try (exact _)).

(** The store and index parts of a frame that changes neither. *)
Lemma frame_log_only I P w evs :
  Forall (ev_in I) evs → P evs →
  frame I P w (mkWorld (active w) (deleted w) (nlist w) (log w ++ evs)).
Proof. intros. split; simpl; eauto. Qed.

Section FramePrimitives.
Context (I : string → Prop) (P : list Event → Prop) `{!Closed P}.

Lemma emit_frame e : ev_in I e → P [e] → sat (frame I P) (emit e).
Proof.
  intros Hi Hp w r w' [= <- <-]. apply frame_log_only; [by constructor|done].
Qed.

Lemma print_frame msg : P [Print msg] → sat (frame I P) (print msg).
Proof. intros. fapply emit_frame; [|done]. by intros id. Qed.

Lemma put_snapshot_lookup_ne a id md d id' :
  id' ≠ id → put_snapshot a id md d !! id' = a !! id'.
Proof. intros. unfold put_snapshot. by rewrite lookup_insert_ne. Qed.

Lemma set_snapshot_frame id md d w :
  I id →
  frame I P w (mkWorld (put_snapshot (active w) id md d) (deleted w) (nlist w) (log w)).
Proof.
  intros Hid. split; simpl; try done.
  - intros id' Hid'. apply put_snapshot_lookup_ne. by intros ->.
  - exists []. rewrite app_nil_r. split_and!; [done|constructor|apply closed_nil].
Qed.

Lemma write_file_frame id md name f : I id → sat (frame I P) (write_file id md name f).
Proof.
  intros Hid w r w'. unfold write_file, bind, get_world.
  destruct (snapshot (active w) id md) as [d|]; intros [= <- <-].
  - by apply set_snapshot_frame.
  - done.
Qed.

Lemma mkdir_frame id md : I id → P [Mkdir id md] → sat (frame I P) (mkdir id md).
Proof.
  intros Hid Hp. unfold mkdir. apply sat_bind.
  { fapply emit_frame; [|done]. by intros ? [= <-]. }
  intros _ w r w'. unfold bind, get_world.
  destruct (snapshot (active w) id md) as [d|]; intros [= <- <-].
  - done.
  - by apply set_snapshot_frame.
Qed.

Lemma touch_frame id md : I id → P [Touch id md] → sat (frame I P) (touch id md).
Proof.
  intros Hid Hp w r w'. unfold touch, bind, get_world, emit.
  destruct (snapshot (active w) id md) as [d|] eqn:E; [|by intros [= <- <-]].
  destruct (d !! ".done"); intros [= <- <-]; simpl.
  - apply frame_log_only; [|done]. constructor; [|done]. by intros ? [= <-].
  - etrans; [|apply (set_snapshot_frame id md _ (mkWorld _ _ _ _)); done].
    apply frame_log_only; [|done]. constructor; [|done]. by intros ? [= <-].
Qed.

Lemma load_json_frame id md : sat (frame I P) (load_json id md).
Proof.
  intros w r w'. unfold load_json, bind, get_world.
  repeat case_match; intros [= <- <-]; done.
Qed.

Lemma append_text_frame id md line :
  I id → P [WriteLine id md line] → sat (frame I P) (append_text id md line).
Proof.
  intros Hid Hp. unfold append_text. apply sat_bind.
  { fapply emit_frame; [|done]. by intros ? [= <-]. }
  intros _. sat_step; [sat_step|]. intros w.
  repeat case_match; by fapply write_file_frame.
Qed.

Lemma note_contents_frame id : sat (frame I P) (note_contents id).
Proof.
  intros w r w'. unfold note_contents, bind, get_world.
  repeat case_match; intros [= <- <-]; done.
Qed.

Lemma remember_note_frame n : I (identifier n) → sat (frame I P) (remember_note n).
Proof.
  intros Hid w r w' [= <- <-]. split; simpl; try done.
  - intros id Hn. apply lookup_insert_ne. intros E. apply Hn. by rewrite <- E.
  - exists []. rewrite app_nil_r. split_and!; [done|constructor|apply closed_nil].
Qed.

End FramePrimitives.

(** Inversion of a successful run, one bind at a time. *)
Ltac minv :=
  repeat match goal with
  | H : bind _ _ _ = (Ok _, _) |- _ =>
      apply bind_ok_inv in H as (? & ? & ? & H)
  | H : ret _ _ = _ |- _ => unfold ret in H; simplify_eq
  | H : lift _ _ = _ |- _ => unfold lift in H; simplify_eq
  | H : get_world _ = _ |- _ => unfold get_world in H; simplify_eq
  | H : emit _ _ = _ |- _ => unfold emit in H; simplify_eq
  | H : print _ _ = _ |- _ => unfold print, emit in H; simplify_eq
  | H : raise _ _ = _ |- _ => unfold raise in H; simplify_eq
  | H : set_nlist _ _ = _ |- _ => unfold set_nlist in H; simplify_eq
  | H : set_active _ _ = _ |- _ => unfold set_active in H; simplify_eq
  | H : set_deleted _ _ = _ |- _ => unfold set_deleted in H; simplify_eq
  | x : unit |- _ => destruct x
  end.

(** ** Traces of a fetch *)

Lemma no_touch_marker_last env evs : no_touch evs → marker_last env evs.
Proof.
  intros H pre id md post ->. apply Forall_app in H as [_ H].
  apply Forall_cons in H as [H _]. by destruct H.
Qed.

#[global] Instance marker_last_closed env : Closed (marker_last env).
Proof.
  split.
  - intros pre id md post H. by destruct pre.
  - intros l1 l2 H1 H2 pre id md post E.
    apply app_eq_inv in E as [(k & -> & E)|(k & -> & ->)].
    + destruct k as [|e k]; simpl in E.
      * destruct (H2 [] id md post) as (pre0 & note & lines & _ & E'); [done|].
        unfold snapshot_writes in E'. by destruct pre0.
      * simplify_eq. by eapply H1.
    + destruct (H2 k id md post) as (pre0 & note & lines & Ho & ->); [done|].
      exists (l1 ++ pre0), note, lines. by rewrite app_assoc.
Qed.

Lemma write_file_log id md name f w r w' :
  write_file id md name f w = (r, w') → log w' = log w.
Proof.
  unfold write_file, bind, get_world.
  destruct (snapshot (active w) id md); by intros [= <- <-].
Qed.

Lemma mkdir_ok id md w :
  ∃ w', mkdir id md w = (Ok tt, w') ∧ log w' = log w ++ [Mkdir id md] ∧
        is_Some (snapshot (active w') id md).
Proof.
  unfold mkdir, bind, emit, get_world. simpl.
  destruct (snapshot (active w) id md) as [d|] eqn:E; eexists; (split; [done|]); simpl.
  - by rewrite E.
  - split; [done|]. unfold snapshot, history, put_snapshot.
    rewrite lookup_insert_eq. simpl. rewrite lookup_insert_eq. eauto.
Qed.

Section FetchTrace.
Variable env : Remote.

Lemma attachment_trace atype id md line w w' :
  _synchronise_attachment env atype id md line w = (Ok tt, w') →
  log w' = log w ++ attachment_writes atype id md line.
Proof.
  unfold _synchronise_attachment, attachment_writes.
  destruct (attachment_ref atype line) as [f name].
  destruct (decide (name = "note.md")); [by intros [= ]|].
  destruct (copy_ok env atype f name); intros H; minv.
  apply write_file_log in H0. simpl in *. rewrite H0.
  by rewrite <- app_assoc.
Qed.

Lemma append_text_log id md line w w' :
  append_text id md line w = (Ok tt, w') →
  log w' = log w ++ [WriteLine id md line].
Proof.
  unfold append_text. intros H. minv.
  repeat case_match; apply write_file_log in H; by rewrite H.
Qed.

Lemma write_line_trace id md line w w' :
  write_line env id md line w = (Ok tt, w') →
  log w' = log w ++ line_writes id md line.
Proof.
  unfold write_line, line_writes. intros H. minv.
  apply append_text_log in H0.
  assert (log x2 = log x0 ++
    (if PyStr.contains "[file:" line
     then attachment_writes "file" id md line else [])) as E1.
  { destruct (PyStr.contains "[file:" line); minv.
    - by apply attachment_trace.
    - by rewrite app_nil_r. }
  assert (log w' = log x2 ++
    (if PyStr.contains "[image:" line
     then attachment_writes "image" id md line else [])) as E2.
  { destruct (PyStr.contains "[image:" line); minv.
    - by apply attachment_trace.
    - by rewrite app_nil_r. }
  rewrite E2, E1, H0, <- !app_assoc. done.
Qed.

End FetchTrace.

Lemma touch_log id md w w' :
  touch id md w = (Ok tt, w') → log w' = log w ++ [Touch id md].
Proof.
  unfold touch, bind, get_world, emit.
  destruct (snapshot (active w) id md) as [d|]; [|by intros [= ]].
  destruct (d !! ".done"); by intros [= <-].
Qed.

Lemma touch_raise_log id md w e w' :
  touch id md w = (Raise e, w') → w' = w.
Proof.
  unfold touch, bind, get_world, emit.
  destruct (snapshot (active w) id md) as [d|]; [|by intros [= ]].
  destruct (d !! ".done"); by intros [= ].
Qed.

Lemma frame_strengthen I (P : list Event → Prop) w w' :
  frame I (λ _, True) w w' →
  (∀ evs, log w' = log w ++ evs → P evs) →
  frame I P w w'.
Proof.
  intros [Hd Ha Hn (evs & Hl & Hi & _)] HP. split; try done.
  exists evs. split_and!; [done..|by apply HP].
Qed.

#[global] Instance True_closed : Closed (λ _, True).
Proof. by split. Qed.

Lemma last_touch l id md pre id' md' post :
  no_touch l → l ++ [Touch id md] = pre ++ Touch id' md' :: post →
  pre = l ∧ id' = id ∧ md' = md.
Proof.
  intros Hl E. apply app_eq_inv in E as [(k & -> & E)|(k & -> & E)].
  - destruct k as [|e k]; simpl in E; simplify_eq.
    + by rewrite app_nil_r.
    + apply Forall_app in Hl as [_ Hl]. apply Forall_cons in Hl as [Hl _].
      by destruct Hl.
  - destruct k as [|e k]; simpl in E; simplify_eq.
    + by rewrite app_nil_r.
    + by destruct k.
Qed.

Section FetchFrame.
Variable env : Remote.
Context (I : string → Prop) (P : list Event → Prop) `{!Closed P}.
Hypothesis P_low : ∀ e, ¬ is_touch e → P [e].

Lemma attachment_frame atype id md line :
  I id → sat (frame I P) (_synchronise_attachment env atype id md line).
Proof.
  intros Hid. unfold _synchronise_attachment.
  destruct (attachment_ref atype line) as [f name].
  destruct (decide (name = "note.md")); [apply sat_raise|].
  sat_step.
  - destruct (copy_ok env atype f name); [|apply sat_raise].
    sat_step; [|by fapply write_file_frame].
    fapply emit_frame; [by intros ? [= <-]|apply P_low; by intros []].
  - fapply print_frame. apply P_low; by intros [].
Qed.

Lemma write_line_frame id md line :
  I id → sat (frame I P) (write_line env id md line).
Proof.
  intros Hid. unfold write_line. sat_step; [|sat_step].
  - fapply append_text_frame; [done|apply P_low; by intros []].
  - destruct (PyStr.contains "[file:" line);
      [by fapply attachment_frame|apply sat_ret].
  - destruct (PyStr.contains "[image:" line);
      [by fapply attachment_frame|apply sat_ret].
Qed.

Lemma synchronise_note_frame note id md :
  I id → sat (frame I P) (_synchronise_note env note id md).
Proof.
  intros Hid. unfold _synchronise_note.
  sat_step; [fapply print_frame; apply P_low; by intros []|].
  sat_step; [fapply mkdir_frame; [done|apply P_low; by intros []]|].
  sat_step; [fapply emit_frame; [by intros ? [= <-]|apply P_low; by intros []]|].
  sat_step; [by fapply write_file_frame|].
  sat_step; [fapply emit_frame; [by intros ? [= <-]|apply P_low; by intros []]|].
  sat_step; [by fapply write_file_frame|].
  sat_step; [apply sat_lift|].
  sat_step. by fapply write_line_frame.
Qed.

Lemma links_loop_frame fuel id line : ∀ offset links,
  sat (frame I P) (links_loop fuel id line offset links).
Proof.
  induction fuel as [|fuel IH]; intros offset links; simpl.
  - apply sat_raise.
  - destruct (_ =? _); [apply sat_ret|].
    destruct (_ =? _); [|apply IH].
    sat_step; [fapply print_frame; apply P_low; by intros []|].
    sat_step; [fapply print_frame; apply P_low; by intros []|apply sat_raise].
Qed.

Lemma note_links_frame id : sat (frame I P) (note_links id).
Proof.
  unfold note_links, links_of_lines. sat_step; [fapply note_contents_frame|].
  sat_step. fapply links_loop_frame.
Qed.

End FetchFrame.

Section Fetch.
Variable env : Remote.

Lemma lines_trace id md lines : ∀ w w',
  for_each (write_line env id md) lines w = (Ok tt, w') →
  log w' = log w ++ flat_map (line_writes id md) lines.
Proof.
  induction lines as [|line lines IH]; intros w w' H.
  - simpl in H. minv. simpl. by rewrite app_nil_r.
  - rewrite for_each_cons in H. minv.
    apply write_line_trace in H0. apply IH in H.
    simpl. by rewrite H, H0, <- app_assoc.
Qed.

Lemma synchronise_note_trace note id md w w' :
  _synchronise_note env note id md w = (Ok tt, w') →
  ∃ lines, open_note env id = Ok lines ∧
           log w' = log w ++ snapshot_writes note id md lines.
Proof.
  unfold _synchronise_note. intros H. minv.
  repeat match goal with
  | H : mkdir ?i ?m ?w0 = (Ok _, _) |- _ =>
      let E := fresh in
      destruct (mkdir_ok i m w0) as (? & E & ? & _);
      rewrite E in H; clear E; simplify_eq
  | H : write_file _ _ _ _ _ = _ |- _ => apply write_file_log in H; simpl in H
  | H : for_each (write_line _ _ _) _ _ = _ |- _ => apply lines_trace in H
  end.
  eexists. split; [done|]. unfold snapshot_writes. simpl in *.
  repeat match goal with H : log _ = _ |- _ => rewrite H; clear H end.
  by rewrite <- !app_assoc.
Qed.

Lemma fetch_trace note id md w w' :
  fetch env note id md w = (Ok tt, w') →
  ∃ lines, open_note env id = Ok lines ∧
           log w' = log w ++ snapshot_writes note id md lines ++ [Touch id md].
Proof.
  unfold fetch. intros H. minv.
  apply synchronise_note_trace in H0 as (lines & Ho & Hl).
  apply touch_log in H. exists lines. split; [done|].
  by rewrite H, Hl, <- app_assoc.
Qed.

Lemma fetch_frame (I : string → Prop) note id md :
  I id → sat (frame I (marker_last env)) (fetch env note id md).
Proof.
  intros Hid w r w' H. apply frame_strengthen.
  { assert (sat (frame I (λ _, True)) (fetch env note id md)) as Hs;
      [|by eapply Hs].
    unfold fetch. sat_step.
    - by fapply synchronise_note_frame.
    - by fapply touch_frame. }
  intros evs Hevs. unfold fetch in H.
  apply bind_inv in H as [([] & w1 & H1 & H2)|(e & H1 & _)].
  - pose proof (synchronise_note_frame env I no_touch
                  ltac:(intros; by constructor) note id md Hid _ _ _ H1)
      as [_ _ _ (evs1 & Hl1 & _ & Hnt)].
    apply synchronise_note_trace in H1 as (lines & Ho & Hl).
    rewrite Hl1 in Hl. apply app_inv_head in Hl as ->.
    destruct r as [[]|e].
    + apply touch_log in H2. rewrite H2, Hl1, <- app_assoc in Hevs.
      apply app_inv_head in Hevs as <-.
      intros pre id' md' post E.
      apply last_touch in E as (-> & -> & ->); [|done].
      by exists [], note, lines.
    + apply touch_raise_log in H2 as ->. rewrite Hl1 in Hevs.
      apply app_inv_head in Hevs as <-. by apply no_touch_marker_last.
  - pose proof (synchronise_note_frame env I no_touch
                  ltac:(intros; by constructor) note id md Hid _ _ _ H1)
      as [_ _ _ (evs1 & Hl1 & _ & Hnt)].
    rewrite Hl1 in Hevs. apply app_inv_head in Hevs as <-.
    by apply no_touch_marker_last.
Qed.

End Fetch.

(** ** What a decision depends on *)

Lemma history_local (a a' : Area) id : a !! id = a' !! id → history a id = history a' id.
Proof. unfold history. by intros ->. Qed.

Lemma file_at_local (a a' : Area) id md name :
  a !! id = a' !! id → file_at a id md name = file_at a' id md name.
Proof. intros H. unfold file_at, snapshot. by rewrite (history_local _ _ _ H). Qed.

Lemma note_dates_local (a a' : Area) id :
  a !! id = a' !! id → note_dates a id = note_dates a' id.
Proof. intros H. unfold note_dates. by rewrite (history_local _ _ _ H). Qed.

Lemma tags_differ_local (a a' : Area) n :
  a !! identifier n = a' !! identifier n → tags_differ a n = tags_differ a' n.
Proof. intros H. unfold tags_differ. by rewrite (file_at_local _ _ _ _ _ H). Qed.

Lemma must_fetch_local (a a' : Area) n :
  a !! identifier n = a' !! identifier n → must_fetch a n = must_fetch a' n.
Proof.
  intros H. unfold must_fetch.
  by rewrite (file_at_local _ _ _ _ _ H), (tags_differ_local _ _ _ H).
Qed.

Lemma title_change_local (a a' : Area) n :
  a !! identifier n = a' !! identifier n → title_change a n = title_change a' n.
Proof.
  intros H. unfold title_change.
  rewrite (file_at_local _ _ _ _ "note.json" H), (note_dates_local _ _ _ H).
  destruct (file_at a' _ _ _); [done|].
  destruct (last _); [|done]. by rewrite (file_at_local _ _ _ _ _ H).
Qed.

Lemma links_loop_indep id line : ∀ fuel offset links w l w1,
  links_loop fuel id line offset links w = (Ok l, w1) →
  w1 = w ∧ ∀ w2, links_loop fuel id line offset links w2 = (Ok l, w2).
Proof.
  induction fuel as [|fuel IH]; intros offset links w l w1; simpl; [done|].
  destruct (_ =? _).
  { intros [= <- <-]. done. }
  destruct (_ =? _).
  { intros H. apply bind_ok_inv in H as (? & ? & _ & H).
    apply bind_ok_inv in H as (? & ? & _ & H). done. }
  apply IH.
Qed.

Lemma links_of_lines_indep id lines : ∀ links w l w1,
  links_of_lines id links lines w = (Ok l, w1) →
  w1 = w ∧ ∀ w2, links_of_lines id links lines w2 = (Ok l, w2).
Proof.
  unfold links_of_lines.
  induction lines as [|line lines IH]; intros links w l w1 H.
  - simpl in H. minv. done.
  - rewrite for_acc_cons in H. minv.
    apply links_loop_indep in H0 as [-> H0].
    apply IH in H as [-> H]. split; [done|]. intros w2.
    rewrite for_acc_cons, (bind_ok _ _ _ _ _ (H0 w2)). apply H.
Qed.

Lemma note_contents_inv id w r w' :
  note_contents id w = (r, w') → w' = w.
Proof.
  unfold note_contents, bind, get_world. repeat case_match; by intros [= ].
Qed.

Lemma note_contents_local id w w2 :
  active w2 !! id = active w !! id →
  fst (note_contents id w2) = fst (note_contents id w).
Proof.
  intros H. unfold note_contents, bind, get_world.
  rewrite (note_dates_local _ _ _ H). destruct (last _); [|done].
  rewrite (file_at_local _ _ _ _ _ H). by repeat case_match.
Qed.

(** The links of a note depend on its own directory only, and reading
    them changes nothing. *)
Lemma note_links_local id w links w1 w2 :
  note_links id w = (Ok links, w1) →
  active w2 !! id = active w !! id →
  w1 = w ∧ note_links id w2 = (Ok links, w2).
Proof.
  unfold note_links. intros H Ha. minv.
  pose proof (note_contents_inv _ _ _ _ H0) as ->.
  apply links_of_lines_indep in H as [-> H]. split; [done|].
  pose proof (note_contents_local id w w2 Ha) as E. rewrite H0 in E.
  destruct (note_contents id w2) as [r w3] eqn:E2. simpl in E. subst r.
  pose proof (note_contents_inv _ _ _ _ E2) as ->.
  rewrite (bind_ok _ _ _ _ _ E2). apply H.
Qed.

(** ** The first loop *)

Lemma load_json_inv id md w n w' :
  load_json id md w = (Ok n, w') →
  w' = w ∧ file_at (active w) id md "note.json" = Some (FJson n).
Proof.
  unfold load_json, bind, get_world. repeat case_match; by intros [= <- <-].
Qed.

Lemma examine_spec n w tc ch w1 :
  examine n w = (Ok (tc, ch), w1) →
  active w1 = active w ∧ deleted w1 = deleted w ∧ nlist w1 = nlist w ∧
  tc = tags_differ (active w) n ∧ ch = title_change (active w) n ∧
  ∃ evs, log w1 = log w ++ evs ∧ silent evs.
Proof.
  unfold examine, tags_differ, title_change, load_json, print, emit,
    bind, get_world, ret, raise.
  repeat case_match; intros [= <- <- <-]; simplify_eq; simpl;
    (split_and!; try done).
  all: try (exists []; rewrite app_nil_r; split; [done|constructor]).
  all: eexists; split; [done|]; by repeat constructor.
Qed.

Section FirstLoop.
Variable env : Remote.

Lemma examine_frame I P `{!Closed P} n :
  (∀ e, ¬ is_touch e → P [e]) → sat (frame I P) (examine n).
Proof.
  intros P_low. unfold examine. sat_step; [apply sat_get_world|].
  destruct (file_at _ _ _ _).
  { sat_step; [fapply load_json_frame|apply sat_ret]. }
  destruct (last _); [|apply sat_ret].
  sat_step; [fapply load_json_frame|].
  destruct (decide _); [|apply sat_ret].
  sat_step; [|apply sat_ret].
  fapply print_frame. apply P_low. by intros [].
Qed.

Lemma fetch_if_stale_frame (I : string → Prop) tc n :
  I (identifier n) → sat (frame I (marker_last env)) (fetch_if_stale env tc n).
Proof.
  intros Hid. unfold fetch_if_stale. sat_step; [apply sat_get_world|].
  destruct (_ || _); [by apply fetch_frame|apply sat_ret].
Qed.

Lemma sync_one_frame (I : string → Prop) acc n :
  I (identifier n) → sat (frame I (marker_last env)) (sync_one env acc n).
Proof.
  intros Hid. unfold sync_one. destruct acc as [tc act].
  sat_step; [by fapply remember_note_frame|].
  sat_step.
  { fapply examine_frame. intros e He. apply no_touch_marker_last.
    by constructor. }
  destruct a0. sat_step; [by apply fetch_if_stale_frame|apply sat_ret].
Qed.

Lemma relink_frame (I : string → Prop) tc ident :
  I ident → sat (frame I (marker_last env)) (relink env tc ident).
Proof.
  intros Hid. unfold relink. sat_step.
  { fapply note_links_frame. intros e He. apply no_touch_marker_last.
    by constructor. }
  sat_step. destruct (decide _); [|apply sat_ret].
  sat_step; [apply sat_get_world|].
  destruct (nlist _ !! _); [by apply fetch_frame|apply sat_raise].
Qed.

Lemma fetch_if_stale_spec tc n w w' :
  fetch_if_stale env tc n w = (Ok tt, w') →
  if negb (bool_decide
             (is_Some (file_at (active w) (identifier n) (mdate n) ".done")))
     || tc
  then fetch env n (identifier n) (mdate n) w = (Ok tt, w')
  else w' = w.
Proof.
  unfold fetch_if_stale. intros H. minv.
  destruct (_ || _); [done|]. by minv.
Qed.

(** What one iteration of the first loop does, when it succeeds. *)
Lemma sync_one_ok tc act n w acc' w' :
  sync_one env (tc, act) n w = (Ok acc', w') →
  acc' = (tc ++ from_option (λ t, [t]) [] (title_change (active w) n),
          act ++ [identifier n]) ∧
  ∃ w1, active w1 = active w ∧ deleted w1 = deleted w ∧
        nlist w1 = <[identifier n := n]> (nlist w) ∧
        (∃ evs, log w1 = log w ++ evs ∧ silent evs) ∧
        if must_fetch (active w) n
        then fetch env n (identifier n) (mdate n) w1 = (Ok tt, w')
        else w' = w1.
Proof.
  unfold sync_one, remember_note. intros H. minv.
  match goal with
  | H : examine _ _ = (Ok ?r, _) |- _ =>
      destruct r as [tags_changed changed];
      apply examine_spec in H as (Ha & Hd & Hn & -> & -> & Hl)
  end.
  minv. simpl in *. split; [done|].
  match goal with
  | H : fetch_if_stale _ _ _ ?w1 = _ |- _ =>
      exists w1; apply fetch_if_stale_spec in H; rewrite Ha in H
  end.
  split_and!; done.
Qed.

End FirstLoop.

(** ** Loops over distinct identifiers *)

Section Focus.
Context {A : Type} (key : A → string) (P : list Event → Prop) `{!Closed P}.

Lemma for_acc_frame {S} (f : S → A → M S) l :
  (∀ acc x, sat (frame (eq (key x)) P) (f acc x)) →
  ∀ acc, sat (frame (λ id, id ∈ key <$> l) P) (for_acc f acc l).
Proof.
  intros Hf. induction l as [|x l IH]; intros acc; simpl.
  - apply sat_ret.
  - apply sat_bind.
    + eapply sat_weaken; [|apply Hf]. intros w w'.
      apply frame_weaken; [|done]. intros id <-. set_solver.
    + intros acc'. eapply sat_weaken; [|apply IH]. intros w w'.
      apply frame_weaken; [|done]. intros id ?. set_solver.
Qed.

(** A successful loop over items with distinct keys splits around each
    item: the other iterations leave the item's directories alone. *)
Lemma for_acc_focus {S} (f : S → A → M S) :
  (∀ acc x, sat (frame (eq (key x)) P) (f acc x)) →
  ∀ l acc w acc' w',
    for_acc f acc l w = (Ok acc', w') → NoDup (key <$> l) →
    ∀ x, x ∈ l →
      ∃ acc1 acc2 w1 w2,
        frame (λ id, id ≠ key x) P w w1 ∧
        f acc1 x w1 = (Ok acc2, w2) ∧
        frame (λ id, id ≠ key x) P w2 w'.
Proof.
  intros Hf. induction l as [|y l IH]; intros acc w acc' w' H Hnd x Hx.
  { by apply elem_of_nil in Hx. }
  rewrite for_acc_cons in H. apply bind_ok_inv in H as (acc1 & w1 & H1 & H2).
  rewrite fmap_cons in Hnd. apply NoDup_cons in Hnd as [Hy Hnd].
  apply elem_of_cons in Hx as [->|Hx].
  - exists acc, acc1, w, w1. split_and!; [done|done|].
    eapply frame_weaken; [| |by eapply for_acc_frame]; [|done].
    intros id Hid ->. by apply Hy.
  - destruct (IH _ _ _ _ H2 Hnd x Hx) as (a1 & a2 & wa & wb & F1 & Hs & F2).
    exists a1, a2, wa, wb. split_and!; [|done..].
    etrans; [|done]. eapply frame_weaken; [| |by eapply Hf]; [|done].
    intros id <- E. apply Hy. rewrite E. by apply list_elem_of_fmap_2.
Qed.

End Focus.

Lemma for_each_for_acc {A} (f : A → M unit) l w :
  for_each f l w = for_acc (λ _ x, f x) tt l w.
Proof.
  revert w. induction l as [|x l IH]; intros w; simpl; [done|].
  unfold bind. destruct (f x w) as [[[]|e] w1]; [apply IH|done].
Qed.

(** ** The three loops of a pass *)

Lemma omap_cons_app {A B} (f : A → option B) x l :
  omap f (x :: l) = from_option (λ y, [y]) [] (f x) ++ omap f l.
Proof. change (omap f (x :: l)) with (list_omap _ _ f (x :: l)). simpl. by destruct (f x). Qed.

Section Passes.
Variable env : Remote.

Lemma first_pass_frame nl :
  sat (frame (λ id, id ∈ identifier <$> nl) (marker_last env)) (first_pass env nl).
Proof.
  unfold first_pass. apply for_acc_frame; [apply _|].
  intros acc n. by apply sync_one_frame.
Qed.

Lemma second_pass_frame tc act :
  sat (frame (λ id, id ∈ act) (marker_last env)) (second_pass env tc act).
Proof.
  intros w r w' H. unfold second_pass in H. rewrite for_each_for_acc in H.
  pose proof (for_acc_frame id (marker_last env) (λ _ x, relink env tc x) act
                ltac:(intros; by apply relink_frame) tt w r w' H) as F.
  by rewrite list_fmap_id in F.
Qed.

(** The lists the first loop builds: the old titles of the notes whose
    title changed, and the identifiers of the remote list. *)
Lemma first_pass_acc nl : ∀ tc act w tc' act' w',
  for_acc (sync_one env) (tc, act) nl w = (Ok (tc', act'), w') →
  NoDup (identifier <$> nl) →
  tc' = tc ++ omap (title_change (active w)) nl ∧
  act' = act ++ (identifier <$> nl).
Proof.
  induction nl as [|n nl IH]; intros tc act w tc' act' w' H Hnd.
  - simpl in H. minv. by rewrite !app_nil_r.
  - rewrite for_acc_cons in H. apply bind_ok_inv in H as (acc1 & w1 & H1 & H2).
    pose proof (sync_one_frame env (eq (identifier n)) _ _ eq_refl _ _ _ H1) as F.
    apply sync_one_ok in H1 as (-> & _).
    rewrite fmap_cons in Hnd. apply NoDup_cons in Hnd as [Hn Hnd].
    apply IH in H2 as [-> ->]; [|done].
    rewrite fmap_cons, omap_cons_app, <- !app_assoc. split; [|done]. do 2 f_equal.
    assert (omap (title_change (active w1)) nl
                   = omap (title_change (active w)) nl) as ->.
    { clear -F Hn. induction nl as [|m nl IH]; [done|].
      rewrite fmap_cons, not_elem_of_cons in Hn. destruct Hn as [Hm Hn].
      rewrite !omap_cons_app, (IH Hn).
      rewrite (title_change_local (active w1) (active w) m); [done|].
      apply F. congruence. }
    done.
Qed.

Lemma synchronise_inv w w' :
  synchronise env w = (Ok tt, w') →
  ∃ nl tc act w1 w2,
    search env = Ok nl ∧
    first_pass env nl (mkWorld (active w) (deleted w) ∅ (log w))
      = (Ok (tc, act), w1) ∧
    second_pass env tc act w1 = (Ok tt, w2) ∧
    third_pass act w2 = (Ok tt, w').
Proof.
  unfold synchronise. intros H. minv.
  match goal with H : first_pass _ _ _ = (Ok ?r, _) |- _ => destruct r as [tc act] end.
  minv. eauto 10.
Qed.

Lemma rename_to_deleted_spec name w r w' :
  rename_to_deleted name w = (r, w') →
  nlist w' = nlist w ∧
  match active w !! name with
  | Some h => r = Ok tt ∧ active w' = delete name (active w) ∧
              deleted w' = <[name := h]> (deleted w) ∧
              log w' = log w ++ [Rename name]
  | None => r = Raise FileNotFoundError ∧ active w' = active w ∧
            deleted w' = deleted w ∧ log w' = log w ++ [Rename name]
  end.
Proof.
  unfold rename_to_deleted, bind, emit, get_world, set_active, set_deleted, raise.
  simpl. destruct (active w !! name); intros ?; by simplify_eq.
Qed.

(** What one iteration of the third loop does. *)
Lemma remove_deleted_spec act name w r w' :
  remove_deleted act name w = (r, w') →
  nlist w' = nlist w ∧
  if decide (name ∈ act)
  then r = Ok tt ∧ active w' = active w ∧ deleted w' = deleted w ∧
       log w' = log w ++ [MkdirDeleted]
  else match deleted w !! name with
       | Some _ =>
           r = Ok tt ∧ active w' = active w ∧ deleted w' = deleted w ∧
           log w' = log w ++
             [MkdirDeleted;
              Print ("ERROR: deleted note was already deleted? " +:+ name)]
       | None =>
           match active w !! name with
           | Some h =>
               r = Ok tt ∧ active w' = delete name (active w) ∧
               deleted w' = <[name := h]> (deleted w) ∧
               log w' = log w ++
                 [MkdirDeleted; Rename name; Print (name +:+ " deleted")]
           | None =>
               r = Raise FileNotFoundError ∧ active w' = active w ∧
               deleted w' = deleted w ∧
               log w' = log w ++ [MkdirDeleted; Rename name]
           end
       end.
Proof.
  intros H. unfold remove_deleted in H.
  apply bind_inv in H as [([] & w1 & H1 & H)|(e & H1 & _)]; [|done].
  unfold emit in H1. simplify_eq.
  destruct (decide (name ∈ act)).
  { unfold ret in H. by simplify_eq. }
  unfold bind at 1, get_world in H. simpl in H.
  destruct (deleted w !! name) eqn:Ed.
  { unfold print, emit in H. simplify_eq. simpl. by rewrite <- app_assoc. }
  apply bind_inv in H as [([] & w1 & H1 & H)|(e & H1 & ->)];
    apply rename_to_deleted_spec in H1 as [Hn H1]; simpl in *;
    destruct (active w !! name);
    destruct H1 as (? & Ha & Hd & Hl); simplify_eq.
  - unfold print, emit in H. simplify_eq. simpl.
    by rewrite Hl, <- !app_assoc.
  - by rewrite Hl, <- !app_assoc.
Qed.

Lemma remove_deleted_frame P `{!Closed P} act name :
  (∀ e, ¬ is_touch e → P [e]) →
  sat (frame (eq name) P) (remove_deleted act name).
Proof.
  intros P_low w r w' H. apply remove_deleted_spec in H as [Hn H].
  assert (∀ l, Forall (λ e, ¬ is_touch e) l → P l) as HP.
  { induction 1; [apply closed_nil|].
    apply (closed_app [_]); [by apply P_low|done]. }
  assert (∀ l, log w' = log w ++ l →
            Forall (ev_in (eq name)) l → Forall (λ e, ¬ is_touch e) l →
            (∀ id, id ≠ name → active w' !! id = active w !! id) →
            (∀ id, id ≠ name → deleted w' !! id = deleted w !! id) →
            frame (eq name) P w w') as Hmk.
  { intros l Hl Ht Hnt Ha Hd. split.
    - intros id Hid. apply Hd. congruence.
    - intros id Hid. apply Ha. congruence.
    - intros id _. by rewrite Hn.
    - exists l. split_and!; [done..|by apply HP]. }
  destruct (decide _).
  { destruct H as (_ & Ha & Hd & Hl). eapply Hmk; [done|..].
    - repeat constructor. by intros ?.
    - repeat constructor. by intros [].
    - by rewrite Ha.
    - by rewrite Hd. }
  destruct (deleted w !! name) eqn:Ed.
  { destruct H as (_ & Ha & Hd & Hl). eapply Hmk; [done|..].
    - repeat constructor; by intros ?.
    - repeat constructor; by intros [].
    - by rewrite Ha.
    - by rewrite Hd. }
  destruct (active w !! name) eqn:Ea; destruct H as (_ & Ha & Hd & Hl).
  - eapply Hmk; [done|..].
    + repeat constructor; by intros ? [= ].
    + repeat constructor; by intros [].
    + intros id Hid. rewrite Ha. by apply lookup_delete_ne.
    + intros id Hid. rewrite Hd. by apply lookup_insert_ne.
  - eapply Hmk; [done|..].
    + repeat constructor; by intros ? [= ].
    + repeat constructor; by intros [].
    + by rewrite Ha.
    + by rewrite Hd.
Qed.

End Passes.

Lemma third_pass_frame P `{!Closed P} act :
  (∀ e, ¬ is_touch e → P [e]) →
  sat (frame (λ _, True) P) (third_pass act).
Proof.
  intros P_low. unfold third_pass. sat_step; [apply sat_get_world|].
  sat_step. eapply sat_weaken; [|by apply remove_deleted_frame].
  intros w w'. by apply frame_weaken.
Qed.

Lemma note_dates_empty (a : Area) id : history a id = ∅ → note_dates a id = [].
Proof. intros H. unfold note_dates. by rewrite H, map_to_list_empty. Qed.

Lemma sorted_eq_iff l1 l2 : PyStr.sorted l1 = PyStr.sorted l2 ↔ l1 ≡ₚ l2.
Proof.
  unfold PyStr.sorted. split; intros H.
  - by rewrite <- (merge_sort_Permutation String.le l1), H, merge_sort_Permutation.
  - apply (Sorted_unique String.le); [apply Sorted_merge_sort, _..|].
    by rewrite !merge_sort_Permutation.
Qed.

(** * Results *)

(** ** Read accessors *)

(** C10: for an identifier with no snapshot directory in the active area
    (its directory is missing or empty), [note_contents] and [note_links]
    both end in [IndexError], raised by [note_dates[-1]] on the empty list,
    and leave the world as it was. *)
Theorem accessors_need_a_snapshot (w : World) (id : string) :
  history (active w) id = ∅ →
  note_contents id w = (Raise IndexError, w) ∧
  note_links id w = (Raise IndexError, w).
Proof.
  intros H. assert (note_contents id w = (Raise IndexError, w)) as E.
  { unfold note_contents, bind, get_world. by rewrite (note_dates_empty _ _ H). }
  split; [done|]. unfold note_links. by rewrite (bind_raise _ _ _ _ _ E).
Qed.

Lemma accessors_need_a_snapshot_witness :
  note_contents "X" (mkWorld ∅ ∅ ∅ []) = (Raise IndexError, mkWorld ∅ ∅ ∅ []) ∧
  note_links "X" (mkWorld ∅ ∅ ∅ []) = (Raise IndexError, mkWorld ∅ ∅ ∅ []).
Proof. apply (accessors_need_a_snapshot (mkWorld ∅ ∅ ∅ []) "X"). reflexivity. Defined.

(** ** Link extraction *)

(** C6: when the latest snapshot of a note has a line with an opening
    delimiter that no closing delimiter follows, [note_links] ends in
    [SystemExit]; no list of titles is returned. *)
Theorem unterminated_link_exits (w : World) (id : string) (lines : list string) :
  note_contents id w = (Ok lines, w) →
  Exists (λ line, ∃ i, occurs "[[" line i ∧
                       ∀ j, (i ≤ j)%nat → ¬ occurs "]]" line j) lines →
  ∃ w', note_links id w = (Raise SystemExit, w').
Proof.
  intros Hc Hbad. unfold note_links. rewrite (bind_ok _ _ _ _ _ Hc).
  by apply links_of_lines_exit.
Qed.

(** C7: on well-formed lines [note_links] returns normally, leaves the
    world alone, and its result is the list of the titles between the
    delimiter pairs of the lines, read left to right, each title kept once
    at its first occurrence; for the one line of the example it is
    [Project Plan], then [Budget]. *)
Theorem note_links_titles (w : World) (id : string) (lines : list string) :
  note_contents id w = (Ok lines, w) →
  (Forall well_formed lines →
   ∃ tss, Forall2 (λ line ts, titles_from line 0 ts) lines tss ∧
          note_links id w = (Ok (first_seen (concat tss)), w) ∧
          NoDup (first_seen (concat tss)) ∧
          ∀ t, t ∈ first_seen (concat tss) ↔ t ∈ concat tss) ∧
  (lines = ["see [[Project Plan]] and [[Budget]]"] →
   note_links id w = (Ok ["Project Plan"; "Budget"], w)).
Proof.
  intros Hc. split.
  - intros Hwf.
    destruct (links_of_lines_ok id lines Hwf [] w) as (tss & Htss & E).
    exists tss. split_and!; [done| |apply first_seen_NoDup|apply first_seen_elem_of].
    unfold note_links. by rewrite (bind_ok _ _ _ _ _ Hc), E, foldl_add_link_nil.
  - intros ->. unfold note_links. rewrite (bind_ok _ _ _ _ _ Hc).
    vm_compute. reflexivity.
Qed.

(** ** The pass around one note *)

#[global] Instance log_grows_preorder : PreOrder log_grows.
Proof.
  split.
  - intros w. exists []. by rewrite app_nil_r.
  - intros w1 w2 w3 [e1 H1] [e2 H2]. exists (e1 ++ e2).
    by rewrite H2, H1, app_assoc.
Qed.

Lemma frame_log_grows I P w w' : frame I P w w' → log_grows w w'.
Proof. intros [_ _ _ (evs & H & _)]. by exists evs. Qed.

Section Around.
Variable env : Remote.

(** A successful pass, split around the iteration of the first loop
    that handles the note [n] of the remote list. *)
Lemma synchronise_focus w w' nl n :
  synchronise env w = (Ok tt, w') →
  search env = Ok nl →
  NoDup (identifier <$> nl) →
  n ∈ nl →
  ∃ acc1 acc2 wa wb w1 w2,
    frame (others (identifier n)) (marker_last env) (reset w) wa ∧
    sync_one env acc1 n wa = (Ok acc2, wb) ∧
    frame (others (identifier n)) (marker_last env) wb w1 ∧
    second_pass env (omap (title_change (active w)) nl) (identifier <$> nl) w1
      = (Ok tt, w2) ∧
    third_pass (identifier <$> nl) w2 = (Ok tt, w').
Proof.
  intros H Hs Hnd Hn.
  apply synchronise_inv in H as (nl' & tc & act & w1 & w2 & Hs' & H1 & H2 & H3).
  rewrite Hs in Hs'. simplify_eq.
  unfold first_pass in H1.
  destruct (first_pass_acc env _ _ _ _ _ _ _ H1 Hnd) as [-> ->]. simpl in *.
  destruct (for_acc_focus identifier (marker_last env) (sync_one env)
              ltac:(intros; by apply sync_one_frame) _ _ _ _ _ H1 Hnd n Hn)
    as (acc1 & acc2 & wa & wb & F1 & Hone & F2).
  exists acc1, acc2, wa, wb, w1, w2. done.
Qed.

Lemma others_self {A} (f g : string → A) id :
  (∀ id', ¬ others id id' → f id' = g id') → f id = g id.
Proof. intros H. apply H. by intros []. Qed.

(** In a successful pass over a remote list with distinct identifiers,
    every note that the store makes stale is fetched: the trace has all
    the writes of its snapshot, then its completion marker. *)
Lemma stale_note_fetched w w' nl n :
  synchronise env w = (Ok tt, w') →
  search env = Ok nl →
  NoDup (identifier <$> nl) →
  n ∈ nl →
  must_fetch (active w) n = true →
  ∃ lines l1 l2,
    open_note env (identifier n) = Ok lines ∧
    log w' = log w ++ l1
             ++ snapshot_writes n (identifier n) (mdate n) lines
             ++ Touch (identifier n) (mdate n) :: l2.
Proof.
  intros H Hs Hnd Hn Hm.
  destruct (synchronise_focus _ _ _ _ H Hs Hnd Hn)
    as (acc1 & acc2 & wa & wb & w1 & w2 & F1 & Hone & F2 & H2 & H3).
  destruct acc1 as [tc act].
  apply sync_one_ok in Hone as (_ & w0 & Ha & _ & _ & (e0 & Hl0 & _) & Hf).
  rewrite (must_fetch_local (active wa) (active w) n), Hm in Hf.
  2:{ apply (others_self (λ i, active wa !! i) (λ i, active w !! i)), F1. }
  apply fetch_trace in Hf as (lines & Ho & Hl).
  apply frame_log_grows in F1 as [e1 Hl1], F2 as [e2 Hl2].
  apply second_pass_frame, frame_log_grows in H2 as [e3 Hl3].
  apply (third_pass_frame (λ _, True)), frame_log_grows in H3 as [e4 Hl4];
    [|done].
  exists lines, (e1 ++ e0), (e2 ++ e3 ++ e4). split; [done|].
  rewrite Hl4, Hl3, Hl2, Hl, Hl0, Hl1. simpl.
  rewrite <- !app_assoc. simpl. by rewrite <- !app_assoc.
Qed.

End Around.

(** ** Files stay *)

#[global] Instance grows_preorder I : PreOrder (grows I).
Proof.
  split.
  - by intros w id md name.
  - intros w1 w2 w3 H1 H2 id md name Hid H. by apply H2, H1.
Qed.

Lemma grows_same_active I w w' : active w' = active w → grows I w w'.
Proof. intros E id md name _. by rewrite E. Qed.

Lemma file_at_put_snapshot (a : Area) id md d id' md' name :
  file_at (put_snapshot a id md d) id' md' name
  = if decide (id' = id ∧ md' = md) then d !! name else file_at a id' md' name.
Proof.
  unfold file_at, snapshot, history, put_snapshot.
  destruct (decide (id' = id)) as [->|Hid].
  - rewrite lookup_insert_eq. simpl.
    destruct (decide (md' = md)) as [->|Hmd].
    + rewrite lookup_insert_eq. simpl. by rewrite decide_True.
    + rewrite lookup_insert_ne by done. rewrite decide_False by naive_solver. done.
  - rewrite lookup_insert_ne by done. rewrite decide_False by naive_solver. done.
Qed.

Lemma file_at_snapshot (a : Area) id md d name :
  snapshot a id md = Some d → file_at a id md name = d !! name.
Proof. unfold file_at. by intros ->. Qed.

Lemma file_at_no_snapshot (a : Area) id md name :
  snapshot a id md = None → file_at a id md name = None.
Proof. unfold file_at. by intros ->. Qed.

Lemma write_file_grows I id md name f : sat (grows I) (write_file id md name f).
Proof.
  intros w r w'. unfold write_file, bind, get_world, set_active, raise.
  destruct (snapshot (active w) id md) as [d|] eqn:E; intros ?; simplify_eq;
    [|done].
  intros id' md' name' _. simpl. rewrite file_at_put_snapshot.
  destruct (decide _) as [[-> ->]|]; [|done].
  rewrite (file_at_snapshot _ _ _ _ _ E).
  destruct (decide (name' = name)) as [->|].
  - rewrite lookup_insert_eq. eauto.
  - by rewrite lookup_insert_ne.
Qed.

Lemma write_file_post id md name f w w' :
  write_file id md name f w = (Ok tt, w') →
  file_at (active w') id md name = Some f.
Proof.
  unfold write_file, bind, get_world, set_active, raise.
  destruct (snapshot (active w) id md) as [d|] eqn:E; intros ?; simplify_eq.
  simpl. rewrite file_at_put_snapshot, decide_True by done.
  by rewrite lookup_insert_eq.
Qed.

Lemma emit_grows I e : sat (grows I) (emit e).
Proof. intros w r w' ?. unfold emit in *. simplify_eq. by apply grows_same_active. Qed.

Lemma mkdir_grows I id md : sat (grows I) (mkdir id md).
Proof.
  intros w r w'. unfold mkdir, bind, emit, get_world, set_active, ret. simpl.
  destruct (snapshot (active w) id md) as [d|] eqn:E; intros ?; simplify_eq;
    [by apply grows_same_active|].
  intros id' md' name' _. simpl. rewrite file_at_put_snapshot.
  destruct (decide _) as [[-> ->]|]; [|done].
  rewrite (file_at_no_snapshot _ _ _ _ E). by intros [? ?].
Qed.

Lemma touch_grows I id md : sat (grows I) (touch id md).
Proof.
  intros w r w'. unfold touch, bind, emit, get_world, set_active, ret, raise.
  destruct (snapshot (active w) id md) as [d|] eqn:E; [|by intros ?; simplify_eq].
  simpl. destruct (d !! ".done") eqn:Ed; intros ?; simplify_eq;
    [by apply grows_same_active|].
  intros id' md' name' _. simpl. rewrite file_at_put_snapshot.
  destruct (decide _) as [[-> ->]|]; [|done].
  rewrite (file_at_snapshot _ _ _ _ _ E).
  destruct (decide (name' = ".done")) as [->|].
  - rewrite lookup_insert_eq. eauto.
  - by rewrite lookup_insert_ne.
Qed.

Lemma touch_post id md w w' :
  touch id md w = (Ok tt, w') → is_Some (file_at (active w') id md ".done").
Proof.
  unfold touch, bind, emit, get_world, set_active, ret, raise.
  destruct (snapshot (active w) id md) as [d|] eqn:E; [|by intros ?; simplify_eq].
  simpl. destruct (d !! ".done") eqn:Ed; intros ?; simplify_eq; simpl.
  - rewrite (file_at_snapshot _ _ _ _ _ E). eauto.
  - rewrite file_at_put_snapshot, decide_True by done.
    rewrite lookup_insert_eq. eauto.
Qed.

(** Computations that leave the active area as it is. *)
Lemma same_active_grows {A} I (m : M A) :
  (∀ w r w', m w = (r, w') → active w' = active w) → sat (grows I) m.
Proof. intros H w r w' Hm. eapply grows_same_active, H, Hm. Qed.

Lemma load_json_grows I id md : sat (grows I) (load_json id md).
Proof.
  apply same_active_grows. intros w r w'. unfold load_json, bind, get_world.
  repeat case_match; by intros [= <- <-].
Qed.

Lemma remember_note_grows I n : sat (grows I) (remember_note n).
Proof. apply same_active_grows. by intros w r w' [= <- <-]. Qed.

Lemma note_contents_grows I id : sat (grows I) (note_contents id).
Proof.
  apply same_active_grows. intros w r w' H.
  by rewrite (note_contents_inv _ _ _ _ H).
Qed.

Section Grows.
Variable env : Remote.
Variable I : string → Prop.

Lemma attachment_grows atype id md line :
  sat (grows I) (_synchronise_attachment env atype id md line).
Proof.
  unfold _synchronise_attachment. destruct (attachment_ref atype line) as [f name].
  destruct (decide _); [apply sat_raise|].
  sat_step; [|apply emit_grows].
  destruct (copy_ok env atype f name); [|apply sat_raise].
  sat_step; [apply emit_grows|apply write_file_grows].
Qed.

Lemma append_text_grows id md line : sat (grows I) (append_text id md line).
Proof.
  unfold append_text. sat_step; [apply emit_grows|].
  sat_step; [apply sat_get_world|]. repeat case_match; apply write_file_grows.
Qed.

Lemma write_line_grows id md line : sat (grows I) (write_line env id md line).
Proof.
  unfold write_line. sat_step; [apply append_text_grows|].
  sat_step; (destruct (PyStr.contains _ _);
             [apply attachment_grows|apply sat_ret]).
Qed.

Lemma lines_grow id md lines :
  sat (grows I) (for_each (write_line env id md) lines).
Proof. sat_step. apply write_line_grows. Qed.

Lemma synchronise_note_grows note id md :
  sat (grows I) (_synchronise_note env note id md).
Proof.
  unfold _synchronise_note.
  sat_step; [apply emit_grows|].
  sat_step; [apply mkdir_grows|].
  sat_step; [apply emit_grows|].
  sat_step; [apply write_file_grows|].
  sat_step; [apply emit_grows|].
  sat_step; [apply write_file_grows|].
  sat_step; [apply sat_lift|]. apply lines_grow.
Qed.

Lemma fetch_grows note id md : sat (grows I) (fetch env note id md).
Proof.
  unfold fetch. sat_step; [apply synchronise_note_grows|apply touch_grows].
Qed.

(** A completed fetch leaves the metadata file, the text file and the
    completion marker in the snapshot directory. *)
Lemma fetch_post note id md w w' :
  I id →
  fetch env note id md w = (Ok tt, w') →
  is_Some (file_at (active w') id md "note.json") ∧
  is_Some (file_at (active w') id md "note.md") ∧
  is_Some (file_at (active w') id md ".done").
Proof.
  intros Hid. unfold fetch, _synchronise_note. intros H. minv.
  repeat match goal with
  | H : write_file _ _ ?name _ _ = _ |- _ =>
      let Hg := fresh "Hg" in
      pose proof (write_file_grows I _ _ _ _ _ _ _ H) as Hg;
      apply write_file_post in H
  | H : for_each (write_line _ _ _) _ _ = _ |- _ =>
      apply lines_grow in H
  | H : touch _ _ _ = _ |- _ =>
      let Hg := fresh "Hg" in
      pose proof (touch_grows I _ _ _ _ _ H) as Hg;
      apply touch_post in H
  end.
  simpl in *. split_and!; [..|done];
    repeat first
      [ match goal with
        | H : file_at ?a ?i ?m ?nm = Some _ |- is_Some (file_at ?a ?i ?m ?nm) =>
            rewrite H; eauto
        end
      | match goal with
        | Hg : grows _ _ ?w |- is_Some (file_at (active ?w) _ _ _) =>
            apply Hg; [done|]; simpl
        end ].
Qed.

Lemma links_loop_grows fuel id line : ∀ offset links,
  sat (grows I) (links_loop fuel id line offset links).
Proof.
  induction fuel as [|fuel IH]; intros offset links; simpl.
  - apply sat_raise.
  - destruct (_ =? _); [apply sat_ret|].
    destruct (_ =? _); [|apply IH].
    sat_step; [apply emit_grows|].
    sat_step; [apply emit_grows|apply sat_raise].
Qed.

Lemma note_links_grows id : sat (grows I) (note_links id).
Proof.
  unfold note_links, links_of_lines. sat_step; [apply note_contents_grows|].
  sat_step. apply links_loop_grows.
Qed.

Lemma examine_grows n : sat (grows I) (examine n).
Proof.
  unfold examine. sat_step; [apply sat_get_world|].
  destruct (file_at _ _ _ _).
  { sat_step; [apply load_json_grows|apply sat_ret]. }
  destruct (last _); [|apply sat_ret].
  sat_step; [apply load_json_grows|].
  destruct (decide _); [|apply sat_ret].
  sat_step; [apply emit_grows|apply sat_ret].
Qed.

Lemma sync_one_grows acc n : sat (grows I) (sync_one env acc n).
Proof.
  unfold sync_one, fetch_if_stale. destruct acc as [tc act].
  sat_step; [apply remember_note_grows|].
  sat_step; [apply examine_grows|]. destruct a0.
  sat_step; [|apply sat_ret].
  sat_step; [apply sat_get_world|].
  destruct (_ || _); [apply fetch_grows|apply sat_ret].
Qed.

Lemma relink_grows tc ident : sat (grows I) (relink env tc ident).
Proof.
  unfold relink. sat_step; [apply note_links_grows|].
  sat_step. destruct (decide _); [|apply sat_ret].
  sat_step; [apply sat_get_world|].
  destruct (nlist _ !! _); [apply fetch_grows|apply sat_raise].
Qed.

Lemma first_pass_grows nl : sat (grows I) (first_pass env nl).
Proof. unfold first_pass. sat_step. apply sync_one_grows. Qed.

Lemma second_pass_grows tc act : sat (grows I) (second_pass env tc act).
Proof. unfold second_pass. sat_step. apply relink_grows. Qed.

End Grows.

Lemma remove_deleted_grows act name :
  sat (grows (λ id, id ∈ act)) (remove_deleted act name).
Proof.
  intros w r w' H. apply remove_deleted_spec in H as [_ H].
  destruct (decide _); [destruct H as (_ & Ha & _); by apply grows_same_active|].
  destruct (deleted w !! name);
    [destruct H as (_ & Ha & _); by apply grows_same_active|].
  destruct (active w !! name);
    [|destruct H as (_ & Ha & _); by apply grows_same_active].
  destruct H as (_ & Ha & _). intros id md nm Hid.
  rewrite (file_at_local (active w') (active w) id); [done|].
  rewrite Ha. apply lookup_delete_ne. by intros ->.
Qed.

Lemma third_pass_grows act : sat (grows (λ id, id ∈ act)) (third_pass act).
Proof.
  unfold third_pass. sat_step; [apply sat_get_world|].
  sat_step. apply remove_deleted_grows.
Qed.

Section Persisted.
Variable env : Remote.

Lemma first_pass_persisted nl : ∀ acc w acc' w',
  for_acc (sync_one env) acc nl w = (Ok acc', w') →
  NoDup (identifier <$> nl) →
  ∀ n, n ∈ nl → must_fetch (active w) n = true →
    is_Some (file_at (active w') (identifier n) (mdate n) "note.json") ∧
    is_Some (file_at (active w') (identifier n) (mdate n) "note.md") ∧
    is_Some (file_at (active w') (identifier n) (mdate n) ".done").
Proof.
  induction nl as [|m nl IH]; intros acc w acc' w' H Hnd n Hn Hm.
  { by apply elem_of_nil in Hn. }
  rewrite for_acc_cons in H. apply bind_ok_inv in H as (acc1 & w1 & H1 & H2).
  rewrite fmap_cons in Hnd. apply NoDup_cons in Hnd as [Hx Hnd].
  apply elem_of_cons in Hn as [->|Hn].
  - destruct acc as [tc act].
    apply sync_one_ok in H1 as (_ & w0 & Ha & _ & _ & _ & Hf).
    rewrite Hm in Hf.
    apply (fetch_post env (λ _, True)) in Hf as (Hj & Ht & Hd); [|done].
    pose proof (sat_for_acc (R:=grows (λ _, True)) (sync_one env) nl
                  (sync_one_grows env _) _ _ _ _ H2) as Hg.
    split_and!; by apply Hg.
  - eapply IH; [done..|].
    pose proof (sync_one_frame env (eq (identifier m)) _ _ eq_refl _ _ _ H1) as F.
    rewrite (must_fetch_local (active w1) (active w) n); [done|].
    apply F. intros E. apply Hx. rewrite E. by apply list_elem_of_fmap_2.
Qed.

(** In a pass that completes, a stale note of a remote list with
    distinct identifiers ends with its metadata file, its text file and
    its completion marker in the expected snapshot directory. *)
Lemma stale_note_persisted w w' nl n :
  synchronise env w = (Ok tt, w') →
  search env = Ok nl →
  NoDup (identifier <$> nl) →
  n ∈ nl →
  must_fetch (active w) n = true →
  is_Some (file_at (active w') (identifier n) (mdate n) "note.json") ∧
  is_Some (file_at (active w') (identifier n) (mdate n) "note.md") ∧
  is_Some (file_at (active w') (identifier n) (mdate n) ".done").
Proof.
  intros H Hs Hnd Hn Hm.
  apply synchronise_inv in H as (nl' & tc & act & w1 & w2 & Hs' & H1 & H2 & H3).
  assert (nl' = nl) as -> by congruence. unfold first_pass in H1.
  destruct (first_pass_acc env _ _ _ _ _ _ _ H1 Hnd) as [_ ->]. simpl in *.
  destruct (first_pass_persisted _ _ _ _ _ H1 Hnd n Hn Hm) as (Hj & Ht & Hd).
  pose proof (second_pass_grows env (λ _, True) _ _ _ _ _ H2) as G2.
  pose proof (third_pass_grows _ _ _ _ H3) as G3.
  assert (identifier n ∈ identifier <$> nl) as Hid by (by apply list_elem_of_fmap_2).
  split_and!; by apply G3, G2.
Qed.

End Persisted.

(** ** Deletion reconciliation *)

Lemma elem_of_keys {A} (m : gmap string A) id :
  id ∈ fst <$> map_to_list m ↔ is_Some (m !! id).
Proof.
  rewrite list_elem_of_fmap. split.
  - intros ([k v] & -> & H%elem_of_map_to_list). eauto.
  - intros [v H]. exists (id, v). split; [done|]. by apply elem_of_map_to_list.
Qed.

#[global] Instance apart_preorder id : PreOrder (apart id).
Proof.
  split.
  - intros w. split_and!; try done. exists []. by rewrite app_nil_r.
  - intros w1 w2 w3 (Ha1 & Hd1 & Hn1 & e1 & Hl1 & Hf1) (Ha2 & Hd2 & Hn2 & e2 & Hl2 & Hf2).
    split_and!; [congruence..|]. exists (e1 ++ e2).
    rewrite Hl2, Hl1, app_assoc. split; [done|]. by apply Forall_app.
Qed.

Lemma frame_apart (I : string → Prop) P id w w' :
  ¬ I id → frame I P w w' → apart id w w'.
Proof.
  intros Hid [Hd Ha Hn (evs & Hl & Hi & _)].
  split_and!; [by apply Ha|by apply Hd|by apply Hn|].
  exists evs. split; [done|]. eapply Forall_impl; [done|].
  intros e He E. apply Hid. by apply He.
Qed.

Section Deletion.
Variable env : Remote.

Lemma first_pass_active nl : ∀ tc act w tc' act' w',
  for_acc (sync_one env) (tc, act) nl w = (Ok (tc', act'), w') →
  act' = act ++ (identifier <$> nl).
Proof.
  induction nl as [|n nl IH]; intros tc act w tc' act' w' H.
  - simpl in H. minv. by rewrite app_nil_r.
  - rewrite for_acc_cons in H. apply bind_ok_inv in H as (acc1 & w1 & H1 & H2).
    apply sync_one_ok in H1 as (-> & _). apply IH in H2 as ->.
    by rewrite fmap_cons, <- app_assoc.
Qed.

(** The first two loops leave alone every identifier that is not in the
    remote list, whatever their outcome. *)
Lemma first_pass_apart nl id w r w' :
  id ∉ identifier <$> nl →
  first_pass env nl w = (r, w') → apart id w w'.
Proof.
  intros Hid H. eapply frame_apart; [|by eapply first_pass_frame]. done.
Qed.

Lemma second_pass_apart tc act id w r w' :
  id ∉ act → second_pass env tc act w = (r, w') → apart id w w'.
Proof.
  intros Hid H. eapply frame_apart; [|by eapply second_pass_frame]. done.
Qed.

(** The third loop never raises. *)
Lemma remove_all_total act : ∀ names w,
  NoDup names → (∀ x, x ∈ names → is_Some (active w !! x)) →
  ∃ w', for_each (remove_deleted act) names w = (Ok tt, w').
Proof.
  induction names as [|x names IH]; intros w Hnd Hin.
  - by exists w.
  - apply NoDup_cons in Hnd as [Hx Hnd].
    destruct (remove_deleted act x w) as [r w1] eqn:E.
    pose proof (remove_deleted_spec _ _ _ _ _ E) as [_ Hs].
    destruct (Hin x) as [h Hh]; [set_solver|]. rewrite Hh in Hs.
    assert (r = Ok tt ∧ ∀ y, y ≠ x → active w1 !! y = active w !! y) as [-> Hw1].
    { destruct (decide _); [|destruct (deleted w !! x)];
        destruct Hs as (-> & -> & _); split; try done.
      intros y Hy. by apply lookup_delete_ne. }
    destruct (IH w1 Hnd) as [w' H'].
    { intros y Hy. rewrite Hw1; [apply Hin; set_solver|]. by intros ->. }
    exists w'. by rewrite for_each_cons, (bind_ok _ _ _ _ _ E).
Qed.

Lemma third_pass_total act w : ∃ w', third_pass act w = (Ok tt, w').
Proof.
  unfold third_pass, bind, get_world.
  apply remove_all_total; [apply NoDup_fst_map_to_list|].
  intros x. by rewrite elem_of_keys.
Qed.

(** The third loop, split around the entry [id] of [active/]. *)
Lemma third_pass_focus act w w' id :
  third_pass act w = (Ok tt, w') →
  is_Some (active w !! id) →
  ∃ wa wb, apart id w wa ∧ remove_deleted act id wa = (Ok tt, wb) ∧ apart id wb w'.
Proof.
  unfold third_pass, bind, get_world. rewrite for_each_for_acc.
  intros H Hid.
  destruct (for_acc_focus (λ x : string, x) (λ _, True)
              (λ _ x, remove_deleted act x)
              ltac:(intros; by apply remove_deleted_frame) _ _ _ _ _ H)
    with (x := id) as ([] & [] & wa & wb & F1 & Hone & F2).
  { rewrite list_fmap_id. apply NoDup_fst_map_to_list. }
  { by apply elem_of_keys. }
  exists wa, wb. split_and!; [|done|].
  - eapply frame_apart; [|done]. by intros [].
  - eapply frame_apart; [|done]. by intros [].
Qed.

(** The third loop leaves the identifiers of the remote list alone. *)
Lemma third_pass_apart act w w' id :
  third_pass act w = (Ok tt, w') → id ∈ act → is_Some (active w !! id) →
  apart id w w'.
Proof.
  intros H Hid Hh.
  destruct (third_pass_focus _ _ _ id H) as (wa & wb & F1 & Hone & F2); [done|].
  etrans; [done|]. etrans; [|done].
  apply remove_deleted_spec in Hone as [Hn Hs].
  rewrite decide_True in Hs by done. destruct Hs as (_ & Ha & Hd & Hl).
  split_and!; [congruence..|]. eexists. split; [done|]. by repeat constructor.
Qed.

(** How a pass can end: in the first loop, in the second, or with
    the third. *)
Lemma synchronise_cases w r w' nl :
  synchronise env w = (r, w') →
  search env = Ok nl →
  (∃ e, r = Raise e ∧ first_pass env nl (reset w) = (Raise e, w')) ∨
  ∃ tc w1,
    first_pass env nl (reset w) = (Ok (tc, identifier <$> nl), w1) ∧
    ((∃ e, r = Raise e ∧
           second_pass env tc (identifier <$> nl) w1 = (Raise e, w')) ∨
     ∃ w2, second_pass env tc (identifier <$> nl) w1 = (Ok tt, w2) ∧
           third_pass (identifier <$> nl) w2 = (r, w')).
Proof.
  unfold synchronise. intros H Hs.
  apply bind_inv in H as [([] & w0 & H0 & H)|(e & H0 & _)]; [|done].
  unfold set_nlist in H0. simplify_eq.
  rewrite Hs in H. unfold bind at 1, lift in H.
  apply bind_inv in H as [([tc act] & w1 & H1 & H)|(e & H1 & ->)]; [|eauto].
  right. pose proof H1 as Hact. apply first_pass_active in Hact. simpl in Hact.
  subst act. exists tc, w1. split; [done|].
  apply bind_inv in H as [([] & w2 & H2 & H)|(e & H2 & ->)]; eauto.
Qed.

End Deletion.

(** C8: in a pass that completes, an identifier that has a directory in
    the active area, is absent from the remote list and has no entry in
    the deleted area has its whole directory, with every snapshot in it,
    renamed into the deleted area; afterwards it is in neither the active
    area nor the index, so [note_exists] is false. *)
Theorem deleted_note_moved (env : Remote) (w w' : World) (nl : list Note)
    (id : string) (h : History) :
  synchronise env w = (Ok tt, w') →
  search env = Ok nl →
  id ∉ identifier <$> nl →
  active w !! id = Some h →
  deleted w !! id = None →
  active w' !! id = None ∧
  deleted w' !! id = Some h ∧
  note_exists w' id = false.
Proof.
  intros H Hs Hid Hh Hd.
  destruct (synchronise_cases env _ _ _ _ H Hs)
    as [(e & [=] & _)|(tc & w1 & H1 & [(e & [=] & _)|(w2 & H2 & H3)])].
  pose proof (first_pass_apart env _ id _ _ _ Hid H1) as A1.
  pose proof (second_pass_apart env _ _ id _ _ _ Hid H2) as A2.
  assert (apart id (reset w) w2) as (Ha & Hd2 & Hn & _) by (by etrans).
  simpl in *.
  destruct (third_pass_focus _ _ _ id H3) as (wa & wb & F1 & Hone & F2).
  { rewrite Ha, Hh. eauto. }
  destruct F1 as (Ha1 & Hd1 & Hn1 & _), F2 as (Ha2 & Hd3 & Hn2 & _).
  apply remove_deleted_spec in Hone as [Hnl Hone].
  rewrite decide_False in Hone by done.
  rewrite Hd1, Hd2, Hd, Ha1, Ha, Hh in Hone.
  destruct Hone as (_ & Hab & Hdb & _).
  split_and!.
  - by rewrite Ha2, Hab, lookup_delete_eq.
  - by rewrite Hd3, Hdb, lookup_insert_eq.
  - unfold note_exists. apply bool_decide_eq_false.
    rewrite Hn2, Hnl, Hn1, Hn, lookup_empty. by intros [? ?].
Qed.

Lemma synchronise_unfold env w nl :
  search env = Ok nl →
  synchronise env w
  = bind (first_pass env nl)
      (λ r, let '(tc, act) := r in second_pass env tc act ;; third_pass act)
      (reset w).
Proof. intros Hs. unfold synchronise. by rewrite Hs. Qed.

Lemma apart_no_rename id w w' evs :
  apart id w w' → log w' = log w ++ evs → Rename id ∉ evs.
Proof.
  intros (_ & _ & _ & evs' & Hl & Hf) Hl' Hin. rewrite Hl in Hl'.
  apply app_inv_head in Hl' as ->.
  rewrite Forall_forall in Hf. by apply (Hf _ Hin).
Qed.

(** The third loop on an identifier that is already in the deleted area:
    nothing is moved and the anomaly is printed. *)
Lemma third_pass_duplicate act w w' id d :
  third_pass act w = (Ok tt, w') →
  is_Some (active w !! id) → deleted w !! id = Some d → id ∉ act →
  apart id w w' ∧
  ∃ l1 l2, log w' = log w ++ l1 ++
             Print ("ERROR: deleted note was already deleted? " +:+ id) :: l2.
Proof.
  intros H Hh Hd Hid.
  destruct (third_pass_focus _ _ _ id H Hh) as (wa & wb & F1 & Hone & F2).
  apply remove_deleted_spec in Hone as [Hn Hs].
  rewrite decide_False in Hs by done.
  destruct F1 as (Ha1 & Hd1 & Hn1 & e1 & Hl1 & Hf1).
  rewrite Hd1, Hd in Hs. destruct Hs as (_ & Ha & Hdb & Hl).
  assert (apart id wa wb) as Fm.
  { split_and!; [congruence..|]. eexists. split; [done|]. by repeat constructor. }
  split.
  - etrans; [|done]. etrans; [|done]. split_and!; eauto.
  - destruct F2 as (_ & _ & _ & e2 & Hl2 & _).
    exists (e1 ++ [MkdirDeleted]), e2.
    rewrite Hl2, Hl, Hl1, <- !app_assoc. done.
Qed.

(** C9: let an identifier be absent from the remote list and have entries
    in both areas. Then however the pass ends, both entries are as they
    were and nothing is renamed for the identifier; and when the first two
    loops complete, so does the pass, with the anomaly printed. *)
Theorem duplicate_deletion_skipped (env : Remote) (w : World) (nl : list Note)
    (id : string) (h d : History) :
  search env = Ok nl →
  id ∉ identifier <$> nl →
  active w !! id = Some h →
  deleted w !! id = Some d →
  (∀ r w', synchronise env w = (r, w') →
     active w' !! id = Some h ∧ deleted w' !! id = Some d ∧
     ∀ evs, log w' = log w ++ evs → Rename id ∉ evs) ∧
  (∀ tc w1 w2,
     first_pass env nl (reset w) = (Ok (tc, identifier <$> nl), w1) →
     second_pass env tc (identifier <$> nl) w1 = (Ok tt, w2) →
     ∃ w' l1 l2,
       synchronise env w = (Ok tt, w') ∧
       log w' = log w2 ++ l1 ++
         Print ("ERROR: deleted note was already deleted? " +:+ id) :: l2).
Proof.
  intros Hs Hid Hh Hd.
  assert (∀ w', apart id (reset w) w' →
            active w' !! id = Some h ∧ deleted w' !! id = Some d ∧
            ∀ evs, log w' = log w ++ evs → Rename id ∉ evs) as Hfin.
  { intros w' A. pose proof A as (Ha & Hd' & _). simpl in *.
    split_and!; [congruence..|]. intros evs. by apply (apart_no_rename id (reset w)). }
  split.
  - intros r w' H. apply Hfin.
    destruct (synchronise_cases env _ _ _ _ H Hs)
      as [(e & _ & H1)|(tc & w1 & H1 & [(e & _ & H2)|(w2 & H2 & H3)])].
    + by eapply first_pass_apart.
    + etrans; [by eapply first_pass_apart|by eapply second_pass_apart].
    + assert (apart id (reset w) w2) as A.
      { etrans; [by eapply first_pass_apart|by eapply second_pass_apart]. }
      etrans; [done|]. destruct A as (Ha & Hd' & _). simpl in *.
      destruct (third_pass_total (identifier <$> nl) w2) as [w'' E].
      rewrite E in H3. simplify_eq.
      eapply third_pass_duplicate; [done| | |done].
      * rewrite Ha, Hh. eauto.
      * by rewrite Hd'.
  - intros tc w1 w2 H1 H2.
    assert (apart id (reset w) w2) as (Ha & Hd' & _).
    { etrans; [by eapply first_pass_apart|by eapply second_pass_apart]. }
    simpl in *.
    destruct (third_pass_total (identifier <$> nl) w2) as [w' E].
    destruct (third_pass_duplicate _ _ _ id d E) as [_ (l1 & l2 & Hl)]; [| |done|].
    { rewrite Ha, Hh. eauto. }
    { by rewrite Hd'. }
    exists w', l1, l2. split; [|done].
    rewrite (synchronise_unfold _ _ _ Hs), (bind_ok _ _ _ _ _ H1).
    simpl. by rewrite (bind_ok _ _ _ _ _ H2).
Qed.

(** ** Notes that are up to date *)

#[global] Instance quiet_preorder id : PreOrder (quiet id).
Proof.
  split.
  - intros w. split; [done|]. exists []. by rewrite app_nil_r.
  - intros w1 w2 w3 (Ha1 & e1 & Hl1 & Hf1) (Ha2 & e2 & Hl2 & Hf2).
    split; [congruence|]. exists (e1 ++ e2).
    rewrite Hl2, Hl1, app_assoc. split; [done|]. by apply Forall_app.
Qed.

Lemma apart_quiet id w w' : apart id w w' → quiet id w w'.
Proof. intros (Ha & _ & _ & H). by split. Qed.

Lemma frame_quiet P id w w' : frame (others id) P w w' → quiet id w w'.
Proof. intros F. eapply apart_quiet, frame_apart; [|done]. by intros []. Qed.

Lemma file_at_dir (a : Area) id md name :
  is_Some (file_at a id md name) → is_Some (a !! id).
Proof.
  unfold file_at, snapshot, history. destruct (a !! id); [eauto|].
  simpl. rewrite lookup_empty. by intros [? ?].
Qed.

Section UpToDate.
Variable env : Remote.

(** A note none of whose links names a changed title is not fetched by
    the second loop. *)
Lemma relink_skip tc id links w :
  note_links id w = (Ok links, w) →
  (∀ l, l ∈ links → l ∉ tc) →
  relink env tc id w = (Ok tt, w).
Proof.
  intros Hl Hno. unfold relink. rewrite (bind_ok _ _ _ _ _ Hl).
  clear Hl. induction links as [|l links IH]; [done|].
  rewrite for_each_cons. rewrite decide_False by (apply Hno; set_solver).
  unfold bind at 1, ret. apply IH. intros l' ?. apply Hno. set_solver.
Qed.

Lemma second_pass_quiet tc act id links w w' :
  second_pass env tc act w = (Ok tt, w') →
  NoDup act →
  note_links id w = (Ok links, w) →
  (∀ l, l ∈ links → l ∉ tc) →
  quiet id w w'.
Proof.
  intros H Hnd Hl Hno. destruct (decide (id ∈ act)) as [Hid|Hid].
  - unfold second_pass in H. rewrite for_each_for_acc in H.
    destruct (for_acc_focus (λ x : string, x) (marker_last env)
                (λ _ x, relink env tc x)
                ltac:(intros; by apply relink_frame) _ _ _ _ _ H)
      with (x := id) as ([] & [] & wa & wb & F1 & Hone & F2);
      [by rewrite list_fmap_id|done|].
    apply frame_quiet in F1, F2.
    destruct (note_links_local id w links w wa Hl) as [_ Hla]; [apply F1|].
    rewrite (relink_skip _ _ _ _ Hla Hno) in Hone. simplify_eq.
    by etrans.
  - by eapply apart_quiet, second_pass_apart.
Qed.

(** In a pass that completes, a note whose snapshot is complete and has
    the remote tags, and none of whose links names a changed title, is
    left alone. *)
Lemma fresh_note_quiet w w' nl n links :
  synchronise env w = (Ok tt, w') →
  search env = Ok nl →
  NoDup (identifier <$> nl) →
  n ∈ nl →
  must_fetch (active w) n = false →
  note_links (identifier n) w = (Ok links, w) →
  (∀ l, l ∈ links → l ∉ omap (title_change (active w)) nl) →
  quiet (identifier n) w w'.
Proof.
  intros H Hs Hnd Hn Hm Hl Hno.
  destruct (synchronise_focus _ _ _ _ _ H Hs Hnd Hn)
    as (acc1 & acc2 & wa & wb & w1 & w2 & F1 & Hone & F2 & H2 & H3).
  apply frame_quiet in F1, F2. destruct acc1 as [tc act].
  apply sync_one_ok in Hone as (_ & w0 & Ha & _ & _ & (e0 & Hl0 & Hs0) & Hf).
  rewrite (must_fetch_local (active wa) (active w) n), Hm in Hf by apply F1.
  subst w0.
  assert (quiet (identifier n) wa wb) as Fm.
  { split; [by rewrite Ha|]. exists e0. split; [done|].
    eapply Forall_impl; [done|]. by intros e ->. }
  assert (quiet (identifier n) (reset w) w1) as Q1 by (by repeat (etrans; [done|])).
  assert (quiet (identifier n) w1 w2) as Q2.
  { eapply second_pass_quiet; [done..| |done].
    by destruct (note_links_local _ _ _ _ w1 Hl) as [_ ?]; [apply Q1|]. }
  assert (quiet (identifier n) w2 w') as Q3.
  { eapply apart_quiet, third_pass_apart; [done|by apply list_elem_of_fmap_2|].
    destruct Q2 as [-> _], Q1 as [-> _]. simpl.
    unfold must_fetch in Hm. apply orb_false_iff in Hm as [Hm _].
    apply negb_false_iff, bool_decide_eq_true in Hm. by eapply file_at_dir. }
  assert (quiet (identifier n) (reset w) w') as [Ha' Hl'] by (by repeat (etrans; [done|])).
  by split.
Qed.

End UpToDate.

(** C3, as the code has it: in a pass that completes, over a remote list
    with distinct identifiers, a note whose snapshot directory has the
    completion marker and metadata whose tags have the characters of the
    remote tags (as equal tag sets have, in whatever order), and
    none of whose links names a title that changed in this pass, is not
    written to: its directory is as before and no event of the trace
    targets it. *)
Theorem unchanged_note_untouched (env : Remote) (w w' : World) (nl : list Note)
    (n meta : Note) (links : list string) :
  synchronise env w = (Ok tt, w') →
  search env = Ok nl →
  NoDup (identifier <$> nl) →
  n ∈ nl →
  is_Some (file_at (active w) (identifier n) (mdate n) ".done") →
  file_at (active w) (identifier n) (mdate n) "note.json" = Some (FJson meta) →
  PyStr.chars (tags meta) ≡ₚ PyStr.chars (tags n) →
  note_links (identifier n) w = (Ok links, w) →
  (∀ l, l ∈ links → l ∉ omap (title_change (active w)) nl) →
  active w' !! identifier n = active w !! identifier n ∧
  ∀ evs, log w' = log w ++ evs →
         Forall (λ e, ev_target e ≠ Some (identifier n)) evs.
Proof.
  intros H Hs Hnd Hn Hdone Hj Ht Hl Hno.
  destruct (fresh_note_quiet env w w' nl n links H Hs Hnd Hn)
    as (Ha & evs & Hlog & Hf); [|done..|].
  - unfold must_fetch, tags_differ. rewrite Hj.
    rewrite (bool_decide_true _ Hdone). simpl.
    apply bool_decide_eq_false. intros Hne. apply Hne. by apply sorted_eq_iff.
  - split; [done|]. intros evs' Hlog'. rewrite Hlog in Hlog'.
    by apply app_inv_head in Hlog' as ->.
Qed.

(** ** Order of the writes of a fetch *)

Lemma synchronise_marker_last env :
  sat (frame (λ _, True) (marker_last env)) (synchronise env).
Proof.
  unfold synchronise. sat_step.
  { intros w r w' [= <- <-]. split; simpl; try done.
    exists []. rewrite app_nil_r. split_and!; [done|constructor|apply closed_nil]. }
  sat_step; [apply sat_lift|]. sat_step.
  { eapply sat_weaken; [|apply first_pass_frame]. intros w w'. by apply frame_weaken. }
  destruct a1 as [tc act]. sat_step.
  { eapply sat_weaken; [|apply second_pass_frame]. intros w w'. by apply frame_weaken. }
  apply third_pass_frame; [apply _|]. intros e He. apply no_touch_marker_last.
  by constructor.
Qed.

(** C4, as the code has it: in the trace of a pass, however the pass
    ends, every completion marker comes right after the whole sequence of
    writes of its snapshot: the metadata first, then the text lines in
    order, each followed at once by the attachment copies made for it
    ([snapshot_writes]), for all the lines Bear returned for the note. *)
Theorem marker_written_last (env : Remote) (w : World) (r : Res unit) (w' : World)
    (pre post : list Event) (id md : string) :
  synchronise env w = (r, w') →
  log w' = log w ++ pre ++ Touch id md :: post →
  ∃ pre0 note lines,
    open_note env id = Ok lines ∧
    pre = pre0 ++ snapshot_writes note id md lines.
Proof.
  intros H Hl.
  destruct (synchronise_marker_last env _ _ _ H) as [_ _ _ (evs & Hl' & _ & Hm)].
  rewrite Hl' in Hl. apply app_inv_head in Hl as ->. by eapply Hm.
Qed.

(** ** Title changes *)

Lemma title_change_iff (a : Area) (n : Note) (t : string) :
  title_change a n = Some t ↔
  file_at a (identifier n) (mdate n) "note.json" = None ∧
  ∃ latest meta,
    last (note_dates a (identifier n)) = Some latest ∧
    file_at a (identifier n) latest "note.json" = Some (FJson meta) ∧
    title meta ≠ title n ∧ t = title meta.
Proof.
  unfold title_change. split.
  - repeat case_match; try done. intros [= <-]. eauto 10.
  - intros (-> & latest & meta & -> & -> & Hne & ->). by rewrite decide_True.
Qed.

(** C5, as the code has it: over a remote list with distinct identifiers,
    the list [title_changed] that the first loop builds holds, in the
    order of the remote list, the recorded title of each note for which
    the expected snapshot directory has no metadata file, the identifier
    has some snapshot directory, and the metadata of the latest one has a
    title other than the remote title; whether the note is then fetched
    plays no part. *)
Theorem title_changes_recorded (env : Remote) (nl : list Note) (w : World)
    (tc act : list string) (w1 : World) :
  first_pass env nl w = (Ok (tc, act), w1) →
  NoDup (identifier <$> nl) →
  tc = omap (title_change (active w)) nl ∧
  ∀ n t,
    title_change (active w) n = Some t ↔
    file_at (active w) (identifier n) (mdate n) "note.json" = None ∧
    ∃ latest meta,
      last (note_dates (active w) (identifier n)) = Some latest ∧
      file_at (active w) (identifier n) latest "note.json" = Some (FJson meta) ∧
      title meta ≠ title n ∧ t = title meta.
Proof.
  intros H Hnd. split; [|intros; apply title_change_iff].
  by destruct (first_pass_acc env _ _ _ _ _ _ _ H Hnd) as [-> _].
Qed.

Section Examples.
Import Scenario.

(** [A] has its marker and its tags, its text links to the old title of
    [X], and [X] was renamed: the second loop fetches [A] again. *)
Lemma fresh_note_rewritten : ¬ fresh_note_never_written env_xa w_xa.
Proof.
  intros H.
  assert (Forall (λ e, ev_target e ≠ Some "A")
            (log (snd (synchronise env_xa w_xa)))) as HF.
  { apply (H [x_renamed; a_note] (snd (synchronise env_xa w_xa)) a_note a_note).
    - reflexivity.
    - vm_compute; reflexivity.
    - set_solver.
    - vm_compute; eauto.
    - vm_compute; reflexivity.
    - done.
    - reflexivity. }
  rewrite Forall_forall in HF. apply (HF (Touch "A" D1)); [|done].
  apply list_elem_of_lookup. exists 12%nat. vm_compute; reflexivity.
Qed.

(** The attachment of the first line is copied before the second line is
    written. *)
Lemma attachment_before_text : ¬ fetch_text_first env_attachment w_empty y_note.
Proof.
  intros H.
  specialize (H (snd (fetch env_attachment y_note "Y" D1 w_empty)) _
                ltac:(vm_compute; reflexivity) ltac:(vm_compute; reflexivity)).
  specialize (H 5%nat 7%nat _ _ _ _ _ _ _ _ eq_refl eq_refl). lia.
Qed.

(** [X] has a new timestamp and a new title: the old title is recorded
    and the note is fetched in the same iteration. *)
Lemma title_recorded_and_fetched :
  ¬ recorded_only_if_skipped env_renamed w_x x_renamed.
Proof.
  intros H.
  specialize (H [] [] ["Old"] ["X"]
                (snd (sync_one env_renamed ([], []) x_renamed w_x))
                ltac:(vm_compute; reflexivity) ltac:(done) _
                ltac:(vm_compute; reflexivity)).
  apply H. apply list_elem_of_lookup. exists 6%nat. vm_compute; reflexivity.
Qed.

(** Of two markers of one kind on a line, the first alone is copied. *)
Lemma second_marker_not_copied :
  line_writes "Y" D1 "[file:U/a.pdf] [file:U/b.pdf]"
  = [WriteLine "Y" D1 "[file:U/a.pdf] [file:U/b.pdf]";
     Copy "Y" D1 "file" "U/a.pdf" "a.pdf"; Print "             a.pdf"].
Proof. vm_compute; reflexivity. Qed.

End Examples.

(** ** The results on the scenarios *)

Section Witnesses.
Import Scenario.

Lemma example_line_well_formed : well_formed example_line.
Proof.
  intros i Hi. exists 33%nat. split; [|reflexivity].
  destruct (decide (i < 26)%nat); [lia|]. exfalso.
  apply (PyStrFacts.find_absent example_line "[[" 26) with (i := i);
    [done|reflexivity|lia|done].
Qed.

Lemma note_links_titles_witness :
  (∃ tss, Forall2 (λ line ts, titles_from line 0 ts) [example_line] tss ∧
          note_links "A" (one_note_world [example_line])
          = (Ok (first_seen (concat tss)), one_note_world [example_line]) ∧
          NoDup (first_seen (concat tss)) ∧
          ∀ t, t ∈ first_seen (concat tss) ↔ t ∈ concat tss) ∧
  note_links "A" (one_note_world [example_line])
  = (Ok ["Project Plan"; "Budget"], one_note_world [example_line]).
Proof.
  destruct (note_links_titles (one_note_world [example_line]) "A" [example_line])
    as [H1 H2]; [reflexivity|].
  split; [apply H1|by apply H2].
  constructor; [apply example_line_well_formed|constructor].
Defined.

Lemma unterminated_link_exits_witness :
  ∃ w', note_links "A" (one_note_world ["see [[Project Plan"])
        = (Raise SystemExit, w').
Proof.
  apply (unterminated_link_exits _ "A" ["see [[Project Plan"]); [reflexivity|].
  left. exists 4%nat. split; [reflexivity|].
  intros j _. apply (PyStrFacts.find_absent _ "]]" 0); [done|reflexivity|lia].
Defined.

Lemma unchanged_note_untouched_witness :
  active (snd (synchronise env_same w_x)) !! identifier x_old
  = active w_x !! identifier x_old ∧
  ∀ evs, log (snd (synchronise env_same w_x)) = log w_x ++ evs →
         Forall (λ e, ev_target e ≠ Some (identifier x_old)) evs.
Proof.
  apply (unchanged_note_untouched env_same w_x (snd (synchronise env_same w_x))
           [x_old] x_old x_old []).
  - vm_compute; reflexivity.
  - reflexivity.
  - apply NoDup_singleton.
  - apply list_elem_of_singleton. reflexivity.
  - exists FEmpty. vm_compute; reflexivity.
  - vm_compute; reflexivity.
  - reflexivity.
  - vm_compute; reflexivity.
  - intros l Hl. by apply elem_of_nil in Hl.
Defined.

Lemma marker_written_last_witness :
  ∃ pre0 note lines,
    open_note env_tagged "X" = Ok lines ∧
    [Print "synchronise: New"; Mkdir "X" D1; WriteJson "X" D1 x_tagged;
     OpenText "X" D1; WriteLine "X" D1 "hello"]
    = pre0 ++ snapshot_writes note "X" D1 lines.
Proof.
  apply (marker_written_last env_tagged w_x (Ok tt)
           (snd (synchronise env_tagged w_x)) _ [MkdirDeleted] "X" D1).
  - vm_compute; reflexivity.
  - vm_compute; reflexivity.
Defined.

Lemma title_changes_recorded_witness :
  ["Old"] = omap (title_change (active w_x)) [x_renamed] ∧
  ∀ n t,
    title_change (active w_x) n = Some t ↔
    file_at (active w_x) (identifier n) (mdate n) "note.json" = None ∧
    ∃ latest meta,
      last (note_dates (active w_x) (identifier n)) = Some latest ∧
      file_at (active w_x) (identifier n) latest "note.json" = Some (FJson meta) ∧
      title meta ≠ title n ∧ t = title meta.
Proof.
  apply (title_changes_recorded env_renamed [x_renamed] w_x ["Old"] ["X"]
           (snd (first_pass env_renamed [x_renamed] w_x))).
  - vm_compute; reflexivity.
  - apply NoDup_singleton.
Defined.

Lemma deleted_note_moved_witness :
  active (snd (synchronise env_same w_xz)) !! "Z" = None ∧
  deleted (snd (synchronise env_same w_xz)) !! "Z" = Some z_history ∧
  note_exists (snd (synchronise env_same w_xz)) "Z" = false.
Proof.
  apply (deleted_note_moved env_same w_xz (snd (synchronise env_same w_xz))
           [x_old] "Z" z_history).
  - vm_compute; reflexivity.
  - reflexivity.
  - intros H. apply list_elem_of_singleton in H. discriminate H.
  - vm_compute; reflexivity.
  - vm_compute; reflexivity.
Defined.

Lemma duplicate_deletion_skipped_witness :
  (∀ r w', synchronise env_same w_xz_dup = (r, w') →
     active w' !! "Z" = Some z_history ∧ deleted w' !! "Z" = Some z_deleted ∧
     ∀ evs, log w' = log w_xz_dup ++ evs → Rename "Z" ∉ evs) ∧
  (∀ tc w1 w2,
     first_pass env_same [x_old] (reset w_xz_dup)
     = (Ok (tc, identifier <$> [x_old]), w1) →
     second_pass env_same tc (identifier <$> [x_old]) w1 = (Ok tt, w2) →
     ∃ w' l1 l2,
       synchronise env_same w_xz_dup = (Ok tt, w') ∧
       log w' = log w2 ++ l1 ++
         Print ("ERROR: deleted note was already deleted? " +:+ "Z") :: l2).
Proof.
  apply (duplicate_deletion_skipped env_same w_xz_dup [x_old] "Z"
           z_history z_deleted).
  - reflexivity.
  - intros H. apply list_elem_of_singleton in H. discriminate H.
  - vm_compute; reflexivity.
  - vm_compute; reflexivity.
Defined.

(** C1: a tag change that the comparison misses. [sorted] is applied to
    the tags as Bear sends them, a string, so it sorts characters: a
    change of the tags is seen when the characters change (first part:
    [X] gets the tag [a], is fetched at its unchanged timestamp, and the
    directory then holds the new metadata), and it is missed when the new
    tags are a rearrangement of the old characters (second part: the tag
    [ab] of [X] became [ba]; the pass completes, fetches nothing and
    leaves the old metadata in place). *)
Theorem anagram_tags_not_fetched :
  (tags x_old ≠ tags x_tagged ∧
   modificationDate x_old = modificationDate x_tagged ∧
   file_at (active w_x) "X" D1 "note.json" = Some (FJson x_old) ∧
   is_Some (file_at (active w_x) "X" D1 ".done") ∧
   search env_tagged = Ok [x_tagged] ∧
   fst (synchronise env_tagged w_x) = Ok tt ∧
   snapshot (active (snd (synchronise env_tagged w_x))) "X" D1
   = Some (complete x_tagged ["hello"])) ∧
  (tags x_ab = one_tag "ab" ∧ tags x_ba = one_tag "ba" ∧
   tags x_ab ≠ tags x_ba ∧
   modificationDate x_ab = modificationDate x_ba ∧
   file_at (active w_ab) "X" D1 "note.json" = Some (FJson x_ab) ∧
   is_Some (file_at (active w_ab) "X" D1 ".done") ∧
   search env_ba = Ok [x_ba] ∧
   PyStr.sorted (PyStr.chars (tags x_ab)) = PyStr.sorted (PyStr.chars (tags x_ba)) ∧
   fst (synchronise env_ba w_ab) = Ok tt ∧
   active (snd (synchronise env_ba w_ab)) = active w_ab ∧
   log (snd (synchronise env_ba w_ab)) = [MkdirDeleted]).
Proof.
  split.
  - split_and!; try (vm_compute; reflexivity).
    + intros H. discriminate H.
    + exists FEmpty. vm_compute; reflexivity.
  - split_and!; try (vm_compute; reflexivity).
    + intros H. discriminate H.
    + exists FEmpty. vm_compute; reflexivity.
Qed.

(** C2: a snapshot directory that an interrupted fetch left without its
    metadata file, or with an empty one, has no completion marker, so
    the note is due for a fetch; but the pass stops in the title check
    before it writes anything, and the note is not fetched. *)
Theorem partial_snapshot_stops_pass :
  x_old ∈ [x_old] ∧ search env_same = Ok [x_old] ∧
  (must_fetch (active w_mkdir_only) x_old = true ∧
   fst (synchronise env_same w_mkdir_only) = Raise FileNotFoundError ∧
   log (snd (synchronise env_same w_mkdir_only)) = [] ∧
   active (snd (synchronise env_same w_mkdir_only)) = active w_mkdir_only) ∧
  (must_fetch (active w_empty_json) x_old = true ∧
   fst (synchronise env_same w_empty_json) = Raise JSONDecodeError ∧
   log (snd (synchronise env_same w_empty_json)) = [] ∧
   active (snd (synchronise env_same w_empty_json)) = active w_empty_json).
Proof.
  split; [by apply list_elem_of_singleton|]. split; [done|].
  split; split_and!; vm_compute; reflexivity.
Qed.

End Witnesses.

(** * Further properties *)

(** ** What a run leaves alone *)

#[global] Instance keeps_preorder {A} (proj : World → A) : PreOrder (keeps proj).
Proof.
  split.
  - by intros w.
  - intros w1 w2 w3 H1 H2. unfold keeps in *. congruence.
Qed.

Section Keeps.
Context {A : Type} (proj : World → A).
Hypothesis proj_side :
  ∀ w a l, proj (mkWorld a (deleted w) (nlist w) l) = proj w.

Lemma keeps_store w a l :
  keeps proj w (mkWorld a (deleted w) (nlist w) l).
Proof. apply proj_side. Qed.

Lemma emit_keeps e : sat (keeps proj) (emit e).
Proof. intros w r w' ?. unfold emit in *. simplify_eq. apply keeps_store. Qed.

Lemma write_file_keeps id md name f : sat (keeps proj) (write_file id md name f).
Proof.
  intros w r w'. unfold write_file, bind, get_world, set_active, raise.
  destruct (snapshot (active w) id md); intros ?; simplify_eq; simpl;
    [apply keeps_store|done].
Qed.

Lemma mkdir_keeps id md : sat (keeps proj) (mkdir id md).
Proof.
  intros w r w'. unfold mkdir, bind, emit, get_world, set_active, ret. simpl.
  destruct (snapshot (active w) id md); intros ?; simplify_eq; simpl;
    apply keeps_store.
Qed.

Lemma touch_keeps id md : sat (keeps proj) (touch id md).
Proof.
  intros w r w'. unfold touch, bind, emit, get_world, set_active, ret, raise.
  destruct (snapshot (active w) id md) as [d|]; [|by intros ?; simplify_eq].
  simpl. destruct (d !! ".done"); intros ?; simplify_eq; simpl;
    apply keeps_store.
Qed.

Lemma load_json_keeps id md : sat (keeps proj) (load_json id md).
Proof.
  intros w r w'. unfold load_json, bind, get_world.
  repeat case_match; by intros [= <- <-].
Qed.

Lemma note_contents_keeps id : sat (keeps proj) (note_contents id).
Proof. intros w r w' H. by rewrite (note_contents_inv _ _ _ _ H). Qed.

Lemma append_text_keeps id md line : sat (keeps proj) (append_text id md line).
Proof.
  unfold append_text. sat_step; [apply emit_keeps|].
  sat_step; [apply sat_get_world|]. repeat case_match; apply write_file_keeps.
Qed.

Lemma links_loop_keeps fuel id line : ∀ offset links,
  sat (keeps proj) (links_loop fuel id line offset links).
Proof.
  induction fuel as [|fuel IH]; intros offset links; simpl.
  - apply sat_raise.
  - destruct (_ =? _); [apply sat_ret|].
    destruct (_ =? _); [|apply IH].
    sat_step; [apply emit_keeps|].
    sat_step; [apply emit_keeps|apply sat_raise].
Qed.

Lemma note_links_keeps id : sat (keeps proj) (note_links id).
Proof.
  unfold note_links, links_of_lines. sat_step; [apply note_contents_keeps|].
  sat_step. apply links_loop_keeps.
Qed.

Lemma examine_keeps n : sat (keeps proj) (examine n).
Proof.
  unfold examine. sat_step; [apply sat_get_world|].
  destruct (file_at _ _ _ _).
  { sat_step; [apply load_json_keeps|apply sat_ret]. }
  destruct (last _); [|apply sat_ret].
  sat_step; [apply load_json_keeps|].
  destruct (decide _); [|apply sat_ret].
  sat_step; [apply emit_keeps|apply sat_ret].
Qed.

Variable env : Remote.

Lemma attachment_keeps atype id md line :
  sat (keeps proj) (_synchronise_attachment env atype id md line).
Proof.
  unfold _synchronise_attachment. destruct (attachment_ref atype line) as [f name].
  destruct (decide _); [apply sat_raise|].
  sat_step; [|apply emit_keeps].
  destruct (copy_ok env atype f name); [|apply sat_raise].
  sat_step; [apply emit_keeps|apply write_file_keeps].
Qed.

Lemma write_line_keeps id md line : sat (keeps proj) (write_line env id md line).
Proof.
  unfold write_line. sat_step; [apply append_text_keeps|].
  sat_step; (destruct (PyStr.contains _ _);
             [apply attachment_keeps|apply sat_ret]).
Qed.

Lemma synchronise_note_keeps note id md :
  sat (keeps proj) (_synchronise_note env note id md).
Proof.
  unfold _synchronise_note.
  sat_step; [apply emit_keeps|].
  sat_step; [apply mkdir_keeps|].
  sat_step; [apply emit_keeps|].
  sat_step; [apply write_file_keeps|].
  sat_step; [apply emit_keeps|].
  sat_step; [apply write_file_keeps|].
  sat_step; [apply sat_lift|]. sat_step. apply write_line_keeps.
Qed.

Lemma fetch_keeps note id md : sat (keeps proj) (fetch env note id md).
Proof.
  unfold fetch. sat_step; [apply synchronise_note_keeps|apply touch_keeps].
Qed.

Lemma fetch_if_stale_keeps tc n : sat (keeps proj) (fetch_if_stale env tc n).
Proof.
  unfold fetch_if_stale. sat_step; [apply sat_get_world|].
  destruct (_ || _); [apply fetch_keeps|apply sat_ret].
Qed.

Lemma relink_keeps tc ident : sat (keeps proj) (relink env tc ident).
Proof.
  unfold relink. sat_step; [apply note_links_keeps|].
  sat_step. destruct (decide _); [|apply sat_ret].
  sat_step; [apply sat_get_world|].
  destruct (nlist _ !! _); [apply fetch_keeps|apply sat_raise].
Qed.

Lemma second_pass_keeps tc act : sat (keeps proj) (second_pass env tc act).
Proof. unfold second_pass. sat_step. apply relink_keeps. Qed.

End Keeps.

Lemma keeps_deleted_side w a l :
  deleted (mkWorld a (deleted w) (nlist w) l) = deleted w.
Proof. done. Qed.

Lemma keeps_nlist_side w a l :
  nlist (mkWorld a (deleted w) (nlist w) l) = nlist w.
Proof. done. Qed.

Lemma sync_one_keeps_deleted env acc n : sat (keeps deleted) (sync_one env acc n).
Proof.
  unfold sync_one. destruct acc as [tc act].
  sat_step; [by intros w r w' [= <- <-]|].
  sat_step; [apply examine_keeps, keeps_deleted_side|]. destruct a0.
  sat_step; [apply fetch_if_stale_keeps, keeps_deleted_side|apply sat_ret].
Qed.

Lemma first_pass_keeps_deleted env nl : sat (keeps deleted) (first_pass env nl).
Proof. unfold first_pass. sat_step. apply sync_one_keeps_deleted. Qed.

Lemma third_pass_keeps_nlist act : sat (keeps nlist) (third_pass act).
Proof.
  unfold third_pass. sat_step; [apply sat_get_world|]. sat_step.
  intros w r w' H. by apply remove_deleted_spec in H as [? _].
Qed.

(** ** The index after a pass *)

Lemma last_cons_some {A} (x : A) l :
  last (x :: l) = Some (default x (last l)).
Proof.
  revert x. induction l as [|y l IH]; intros x; [done|].
  change (last (x :: y :: l)) with (last (y :: l)). rewrite IH.
  by destruct l.
Qed.

Lemma NoDup_fmap_inj {A B} (f : A → B) l x y :
  NoDup (f <$> l) → x ∈ l → y ∈ l → f x = f y → x = y.
Proof.
  induction l as [|z l IH]; [by intros _ ?%elem_of_nil|].
  rewrite fmap_cons, NoDup_cons, !elem_of_cons.
  intros [Hz Hnd] [->|Hx] [->|Hy] E; [done| | |by apply IH].
  - destruct Hz. rewrite E. by apply list_elem_of_fmap_2.
  - destruct Hz. rewrite <- E. by apply list_elem_of_fmap_2.
Qed.

(** Entering a list of notes in an index: for each identifier the last
    note of the list with that identifier stays. *)
Lemma lookup_foldl_index nl : ∀ (m : gmap string Note) id,
  foldl (λ m n, <[identifier n := n]> m) m nl !! id
  = match last (filter (λ n, identifier n = id) nl) with
    | Some n => Some n
    | None => m !! id
    end.
Proof.
  induction nl as [|n nl IH]; intros m id; [done|].
  simpl. rewrite IH, filter_cons. destruct (decide (identifier n = id)) as [E|E].
  - rewrite last_cons_some. destruct (last _); [done|].
    simpl. by rewrite <- E, lookup_insert_eq.
  - destruct (last _); [done|]. by rewrite lookup_insert_ne.
Qed.

Lemma index_of_is_Some nl id :
  is_Some (index_of nl !! id) ↔ id ∈ identifier <$> nl.
Proof.
  unfold index_of. rewrite lookup_foldl_index, lookup_empty.
  rewrite list_elem_of_fmap. split.
  - destruct (last _) as [n|] eqn:E; [|by intros [? ?]]. intros _.
    apply last_Some_elem_of, list_elem_of_filter in E as [E Hn]. eauto.
  - intros (n & -> & Hn).
    assert (n ∈ filter (λ n0, identifier n0 = identifier n) nl) as Hf.
    { by apply list_elem_of_filter. }
    destruct (filter _ nl) as [|x l]; [by apply elem_of_nil in Hf|].
    rewrite last_cons_some. eauto.
Qed.

Lemma index_of_lookup nl n :
  NoDup (identifier <$> nl) → n ∈ nl → index_of nl !! identifier n = Some n.
Proof.
  intros Hnd Hn. unfold index_of. rewrite lookup_foldl_index.
  destruct (last _) as [m|] eqn:E.
  - apply last_Some_elem_of, list_elem_of_filter in E as [E Hm].
    f_equal. by apply (NoDup_fmap_inj identifier nl).
  - apply last_None in E.
    assert (n ∈ filter (λ n0, identifier n0 = identifier n) nl) as Hf.
    { by apply list_elem_of_filter. }
    rewrite E in Hf. by apply elem_of_nil in Hf.
Qed.

Lemma index_of_lookup_inv nl id n :
  index_of nl !! id = Some n → n ∈ nl ∧ identifier n = id.
Proof.
  unfold index_of. rewrite lookup_foldl_index, lookup_empty.
  destruct (last _) as [m|] eqn:E; [|done]. intros [= ->].
  by apply last_Some_elem_of, list_elem_of_filter in E as [E Hm].
Qed.

Section Index.
Variable env : Remote.

Lemma sync_one_index acc n w acc' w' :
  sync_one env acc n w = (Ok acc', w') →
  nlist w' = <[identifier n := n]> (nlist w).
Proof.
  destruct acc as [tc act]. intros H.
  apply sync_one_ok in H as (_ & w1 & _ & _ & Hn & _ & Hf).
  destruct (must_fetch _ _); [|by subst].
  apply (fetch_keeps nlist keeps_nlist_side) in Hf. unfold keeps in Hf. congruence.
Qed.

Lemma first_pass_index nl : ∀ acc w acc' w',
  for_acc (sync_one env) acc nl w = (Ok acc', w') →
  nlist w' = foldl (λ m n, <[identifier n := n]> m) (nlist w) nl.
Proof.
  induction nl as [|n nl IH]; intros acc w acc' w' H.
  - simpl in H. by minv.
  - rewrite for_acc_cons in H. apply bind_ok_inv in H as (acc1 & w1 & H1 & H2).
    apply sync_one_index in H1. apply IH in H2. simpl. congruence.
Qed.

(** After a pass that completes, the index holds the notes of the remote
    list and nothing else. *)
Lemma synchronise_index w w' nl :
  synchronise env w = (Ok tt, w') → search env = Ok nl →
  nlist w' = index_of nl.
Proof.
  intros H Hs.
  apply synchronise_inv in H as (nl' & tc & act & w1 & w2 & Hs' & H1 & H2 & H3).
  assert (nl' = nl) as -> by congruence.
  apply first_pass_index in H1.
  apply (second_pass_keeps nlist keeps_nlist_side) in H2.
  apply third_pass_keeps_nlist in H3. unfold keeps in *. simpl in *.
  unfold index_of. congruence.
Qed.

End Index.

(** X1: after a pass that completes, [note_exists] holds of the
    identifiers of the remote list and of no other, whatever the index
    held before; [note_info] raises [KeyError] for every other identifier
    and, when the identifiers of the remote list are distinct, returns for
    each note of the list that note. *)
Theorem accessors_after_pass (env : Remote) (w w' : World) (nl : list Note) :
  synchronise env w = (Ok tt, w') →
  search env = Ok nl →
  (∀ id, note_exists w' id = true ↔ id ∈ identifier <$> nl) ∧
  (∀ id, id ∉ identifier <$> nl → note_info w' id = Raise KeyError) ∧
  (NoDup (identifier <$> nl) →
   ∀ n, n ∈ nl → note_info w' (identifier n) = Ok n).
Proof.
  intros H Hs. pose proof (synchronise_index env _ _ _ H Hs) as Hn.
  unfold note_exists, note_info. rewrite Hn. split_and!.
  - intros id. rewrite bool_decide_eq_true. apply index_of_is_Some.
  - intros id Hid. destruct (index_of nl !! id) eqn:E; [|done].
    destruct Hid. apply index_of_is_Some. eauto.
  - intros Hnd n Hin. by rewrite index_of_lookup.
Qed.

(** X2: after a pass that completes over a remote list with distinct
    identifiers, [note_list] holds the notes of the remote list, each
    once, and [has_note_with_title] is true of exactly the titles of the
    notes of the list. *)
Theorem titles_after_pass (env : Remote) (w w' : World) (nl : list Note) :
  synchronise env w = (Ok tt, w') →
  search env = Ok nl →
  NoDup (identifier <$> nl) →
  note_list w' ≡ₚ nl ∧
  ∀ t, has_note_with_title w' t = true ↔ ∃ n, n ∈ nl ∧ title n = t.
Proof.
  intros H Hs Hnd. pose proof (synchronise_index env _ _ _ H Hs) as Hn.
  assert (∀ n, n ∈ note_list w' ↔ n ∈ nl) as Hel.
  { intros n. unfold note_list. rewrite Hn, list_elem_of_fmap. split.
    - intros ([k v] & -> & Hkv). apply elem_of_map_to_list in Hkv.
      by apply index_of_lookup_inv in Hkv as [? _].
    - intros Hin. exists (identifier n, n). split; [done|].
      apply elem_of_map_to_list. by apply index_of_lookup. }
  split.
  - apply NoDup_Permutation; [|by eapply NoDup_fmap_1|done].
    unfold note_list. rewrite Hn.
    apply (NoDup_fmap_2_strong snd); [|apply NoDup_map_to_list].
    intros [k1 v1] [k2 v2] H1 H2 E. simpl in E. subst v2.
    apply elem_of_map_to_list, index_of_lookup_inv in H1 as [_ <-].
    apply elem_of_map_to_list, index_of_lookup_inv in H2 as [_ <-]. done.
  - intros t. unfold has_note_with_title. rewrite existsb_exists. split.
    + intros (n & Hin & Ht). exists n. split.
      * apply Hel. by apply list_elem_of_In.
      * by apply bool_decide_eq_true in Ht.
    + intros (n & Hin & Ht). exists n. split.
      * apply list_elem_of_In. by apply Hel.
      * by apply bool_decide_eq_true.
Qed.

(** ** The two areas after a pass *)

#[global] Instance deleted_grows_preorder : PreOrder deleted_grows.
Proof.
  split.
  - intros w. unfold deleted_grows. reflexivity.
  - intros w1 w2 w3 H1 H2. unfold deleted_grows in *. by etrans.
Qed.

Lemma keeps_deleted_grows w w' : keeps deleted w w' → deleted_grows w w'.
Proof. unfold keeps, deleted_grows. by intros ->. Qed.

Lemma remove_deleted_grows_deleted act name :
  sat deleted_grows (remove_deleted act name).
Proof.
  intros w r w' H. apply remove_deleted_spec in H as [_ H]. unfold deleted_grows.
  destruct (decide _); [by destruct H as (_ & _ & -> & _)|].
  destruct (deleted w !! name) eqn:Ed; [by destruct H as (_ & _ & -> & _)|].
  destruct (active w !! name); destruct H as (_ & _ & -> & _); [|done].
  by apply insert_subseteq.
Qed.

Lemma third_pass_grows_deleted act : sat deleted_grows (third_pass act).
Proof.
  unfold third_pass. sat_step; [apply sat_get_world|].
  sat_step. apply remove_deleted_grows_deleted.
Qed.

Lemma synchronise_grows_deleted env : sat deleted_grows (synchronise env).
Proof.
  unfold synchronise.
  sat_step; [intros w r w' [= <- <-]; unfold deleted_grows; reflexivity|].
  sat_step; [apply sat_lift|]. sat_step.
  { eapply sat_weaken; [apply keeps_deleted_grows|apply first_pass_keeps_deleted]. }
  destruct a1 as [tc act]. sat_step; [|apply third_pass_grows_deleted].
  eapply sat_weaken; [apply keeps_deleted_grows|].
  apply second_pass_keeps, keeps_deleted_side.
Qed.

(** X3: however a pass ends, every entry the deleted area had is still
    there, with the same contents: [synchronise] only ever adds entries to
    [deleted/]. *)
Theorem deleted_entries_kept (env : Remote) (w : World) (r : Res unit)
    (w' : World) (id : string) (d : History) :
  synchronise env w = (r, w') →
  deleted w !! id = Some d →
  deleted w' !! id = Some d.
Proof.
  intros H Hd. apply synchronise_grows_deleted in H.
  by eapply lookup_weaken.
Qed.

Section Areas.
Variable env : Remote.

(** The third loop does nothing to a name that is not in [active/]. *)
Lemma third_pass_absent act w r w' id :
  third_pass act w = (r, w') → active w !! id = None → apart id w w'.
Proof.
  unfold third_pass, bind, get_world. rewrite for_each_for_acc. intros H Hid.
  pose proof (for_acc_frame (λ x : string, x) (λ _, True)
                (λ _ x, remove_deleted act x) (fst <$> map_to_list (active w))
                ltac:(intros; by apply remove_deleted_frame) tt _ _ _ H) as F.
  eapply frame_apart; [|done]. rewrite list_fmap_id, elem_of_keys, Hid.
  by intros [? ?].
Qed.

(** The third loop moves an entry of [active/] that is not in the remote
    list and not yet in [deleted/]. *)
Lemma third_pass_moves act w w' id h :
  third_pass act w = (Ok tt, w') →
  id ∉ act → active w !! id = Some h → deleted w !! id = None →
  active w' !! id = None ∧ deleted w' !! id = Some h.
Proof.
  intros H Hid Hh Hd.
  destruct (third_pass_focus _ _ _ id H) as (wa & wb & F1 & Hone & F2); [eauto|].
  destruct F1 as (Ha1 & Hd1 & _), F2 as (Ha2 & Hd2 & _).
  apply remove_deleted_spec in Hone as [_ Hone].
  rewrite decide_False in Hone by done.
  rewrite Hd1, Hd, Ha1, Hh in Hone. destruct Hone as (_ & Hab & Hdb & _).
  split.
  - by rewrite Ha2, Hab, lookup_delete_eq.
  - by rewrite Hd2, Hdb, lookup_insert_eq.
Qed.

(** After the first loop every note of the remote list has its completion
    marker. *)
Lemma first_pass_marked nl : ∀ acc w acc' w',
  for_acc (sync_one env) acc nl w = (Ok acc', w') →
  ∀ n, n ∈ nl →
    is_Some (file_at (active w') (identifier n) (mdate n) ".done").
Proof.
  induction nl as [|m nl IH]; intros acc w acc' w' H n Hn.
  { by apply elem_of_nil in Hn. }
  rewrite for_acc_cons in H. apply bind_ok_inv in H as (acc1 & w1 & H1 & H2).
  apply elem_of_cons in Hn as [->|Hn]; [|by eapply IH].
  pose proof (sat_for_acc (R:=grows (λ _, True)) (sync_one env) nl
                (sync_one_grows env _) _ _ _ _ H2) as Hg.
  apply Hg; [done|]. destruct acc as [tc act].
  apply sync_one_ok in H1 as (_ & w0 & Ha & _ & _ & _ & Hf).
  destruct (must_fetch (active w) m) eqn:Hm.
  - by apply (fetch_post env (λ _, True)) in Hf as (_ & _ & Hd).
  - subst w1. rewrite Ha. unfold must_fetch in Hm.
    apply orb_false_iff in Hm as [Hm _].
    by apply negb_false_iff, bool_decide_eq_true in Hm.
Qed.

Lemma synchronise_marked w w' nl n :
  synchronise env w = (Ok tt, w') → search env = Ok nl → n ∈ nl →
  is_Some (file_at (active w') (identifier n) (mdate n) ".done").
Proof.
  intros H Hs Hn.
  destruct (synchronise_cases env _ _ _ _ H Hs)
    as [(e & [=] & _)|(tc & w1 & H1 & [(e & [=] & _)|(w2 & H2 & H3)])].
  pose proof (first_pass_marked _ _ _ _ _ H1 n Hn) as Hd.
  pose proof (second_pass_grows env (λ _, True) _ _ _ _ _ H2) as G2.
  pose proof (third_pass_grows _ _ _ _ H3) as G3.
  apply G3; [by apply list_elem_of_fmap_2|]. by apply G2.
Qed.

End Areas.

(** X4: after a pass that completes, every note of the remote list has
    its completion marker in the snapshot directory of its current
    timestamp, whether the pass fetched it or found it up to date. *)
Theorem remote_notes_marked (env : Remote) (w w' : World) (nl : list Note)
    (n : Note) :
  synchronise env w = (Ok tt, w') →
  search env = Ok nl →
  n ∈ nl →
  is_Some (file_at (active w') (identifier n) (mdate n) ".done").
Proof. apply synchronise_marked. Qed.

(** X5: however a pass ends, no file is removed from the directories of
    the notes of the remote list: a file of such a note that existed
    before the pass exists after it. *)
Theorem remote_files_kept (env : Remote) (w : World) (r : Res unit) (w' : World)
    (nl : list Note) (id md name : string) :
  synchronise env w = (r, w') →
  search env = Ok nl →
  id ∈ identifier <$> nl →
  is_Some (file_at (active w) id md name) →
  is_Some (file_at (active w') id md name).
Proof.
  intros H Hs Hid Hf.
  assert (grows (λ id, id ∈ identifier <$> nl) (reset w) w') as G; [|by apply G].
  destruct (synchronise_cases env _ _ _ _ H Hs)
    as [(e & _ & H1)|(tc & w1 & H1 & [(e & _ & H2)|(w2 & H2 & H3)])].
  - by eapply first_pass_grows.
  - etrans; [by eapply first_pass_grows|by eapply second_pass_grows].
  - etrans; [by eapply first_pass_grows|].
    etrans; [by eapply second_pass_grows|by eapply third_pass_grows].
Qed.

(** The deleted area after a completed pass. *)
Lemma synchronise_deleted_area (env : Remote) (w w' : World) (nl : list Note)
    (id : string) :
  synchronise env w = (Ok tt, w') →
  search env = Ok nl →
  deleted w' !! id
  = match deleted w !! id with
    | Some d => Some d
    | None => if decide (id ∈ identifier <$> nl) then None else active w !! id
    end.
Proof.
  intros H Hs. destruct (deleted w !! id) as [d|] eqn:Hd.
  { apply synchronise_grows_deleted in H. by eapply lookup_weaken. }
  destruct (synchronise_cases env _ _ _ _ H Hs)
    as [(e & [=] & _)|(tc & w1 & H1 & [(e & [=] & _)|(w2 & H2 & H3)])].
  pose proof (first_pass_keeps_deleted _ _ _ _ _ H1) as K1.
  pose proof (second_pass_keeps deleted keeps_deleted_side _ _ _ _ _ _ H2) as K2.
  unfold keeps in *. simpl in *.
  destruct (decide (id ∈ identifier <$> nl)) as [Hid|Hid].
  - apply list_elem_of_fmap in Hid as (n & -> & Hn).
    pose proof (first_pass_marked env _ _ _ _ _ H1 n Hn) as Hm.
    apply (second_pass_grows env (λ _, True) _ _ _ _ _ H2) in Hm; [|done].
    apply file_at_dir in Hm.
    destruct (third_pass_apart _ _ _ (identifier n) H3) as (_ & -> & _);
      [by apply list_elem_of_fmap_2|done|].
    by rewrite K2, K1.
  - pose proof (first_pass_apart env _ id _ _ _ Hid H1) as A1.
    pose proof (second_pass_apart env _ _ id _ _ _ Hid H2) as A2.
    assert (apart id (reset w) w2) as (Ha & _) by (by etrans). simpl in Ha.
    destruct (active w !! id) as [h|] eqn:Hh.
    + by destruct (third_pass_moves _ _ _ id h H3) as [_ ->];
        [done|congruence|congruence|].
    + destruct (third_pass_absent _ _ _ _ id H3) as (_ & -> & _); congruence.
Qed.

(** X6: after a pass that completes, the deleted area holds what it held
    before and, for each identifier that is not in the remote list and had
    no entry there, the directory that identifier had in the active area
    (nothing, if it had none); identifiers of the remote list get no
    entry. *)
Theorem deleted_area_after_pass (env : Remote) (w w' : World) (nl : list Note)
    (id : string) :
  synchronise env w = (Ok tt, w') →
  search env = Ok nl →
  deleted w' !! id
  = match deleted w !! id with
    | Some d => Some d
    | None => if decide (id ∈ identifier <$> nl) then None else active w !! id
    end.
Proof. apply synchronise_deleted_area. Qed.

(** The active area after a completed pass, outside the remote list. *)
Lemma synchronise_active_rest (env : Remote) (w w' : World) (nl : list Note)
    (id : string) :
  synchronise env w = (Ok tt, w') →
  search env = Ok nl →
  id ∉ identifier <$> nl →
  active w' !! id
  = match deleted w !! id with
    | Some _ => active w !! id
    | None => None
    end.
Proof.
  intros H Hs Hid.
  destruct (synchronise_cases env _ _ _ _ H Hs)
    as [(e & [=] & _)|(tc & w1 & H1 & [(e & [=] & _)|(w2 & H2 & H3)])].
  pose proof (first_pass_apart env _ id _ _ _ Hid H1) as A1.
  pose proof (second_pass_apart env _ _ id _ _ _ Hid H2) as A2.
  assert (apart id (reset w) w2) as (Ha & Hd & _) by (by etrans). simpl in *.
  destruct (active w !! id) as [h|] eqn:Hh.
  - destruct (deleted w !! id) as [d|] eqn:Hdd.
    + destruct (third_pass_duplicate _ _ _ id d H3) as [(-> & _) _];
        [rewrite Ha; eauto|congruence|done|congruence].
    + by destruct (third_pass_moves _ _ _ id h H3) as [-> _];
        [done|congruence|congruence|].
  - destruct (third_pass_absent _ _ _ _ id H3) as (-> & _); [congruence|].
    rewrite Ha. by destruct (deleted w !! id).
Qed.

(** X7: after a pass that completes, an identifier that is not in the
    remote list keeps its directory in the active area exactly when the
    deleted area already had an entry for it; otherwise it has none. *)
Theorem active_area_after_pass (env : Remote) (w w' : World) (nl : list Note)
    (id : string) :
  synchronise env w = (Ok tt, w') →
  search env = Ok nl →
  id ∉ identifier <$> nl →
  active w' !! id
  = match deleted w !! id with
    | Some _ => active w !! id
    | None => None
    end.
Proof. apply synchronise_active_rest. Qed.

(** ** What a fetch stores *)

#[global] Instance within_preorder id md : PreOrder (within id md).
Proof.
  split.
  - by intros w id' md' _.
  - intros w1 w2 w3 H1 H2 id' md' Hne. by rewrite H2, H1.
Qed.

Lemma snapshot_put_snapshot (a : Area) id md d id' md' :
  snapshot (put_snapshot a id md d) id' md'
  = if decide (id' = id ∧ md' = md) then Some d else snapshot a id' md'.
Proof.
  unfold snapshot, history, put_snapshot.
  destruct (decide (id' = id)) as [->|Hid].
  - rewrite lookup_insert_eq. simpl.
    destruct (decide (md' = md)) as [->|Hmd].
    + rewrite lookup_insert_eq. by rewrite decide_True.
    + rewrite lookup_insert_ne by done. rewrite decide_False; [done|].
      by intros [_ ?].
  - rewrite lookup_insert_ne by done. rewrite decide_False; [done|].
    by intros [? _].
Qed.

Lemma put_snapshot_within id md d w l :
  within id md w (mkWorld (put_snapshot (active w) id md d) (deleted w) (nlist w) l).
Proof.
  intros id' md' Hne. simpl. rewrite snapshot_put_snapshot.
  rewrite decide_False; [done|]. intros [-> ->]. done.
Qed.

Lemma same_active_within id md w w' : active w' = active w → within id md w w'.
Proof. intros H id' md' _. by rewrite H. Qed.

Lemma same_active_file id md name w w' :
  active w' = active w → keeps (file_of id md name) w w'.
Proof. unfold keeps, file_of. by intros ->. Qed.

Section Stores.
Variable env : Remote.

Lemma emit_within id md e : sat (within id md) (emit e).
Proof. intros w r w' [= <- <-]. by apply same_active_within. Qed.

Lemma write_file_within id md name f : sat (within id md) (write_file id md name f).
Proof.
  intros w r w'. unfold write_file, bind, get_world, set_active, raise.
  destruct (snapshot (active w) id md); intros [= <- <-]; [|done].
  apply put_snapshot_within.
Qed.

Lemma mkdir_within id md : sat (within id md) (mkdir id md).
Proof.
  unfold mkdir. apply sat_bind; [apply emit_within|].
  intros _ w r w'. unfold bind, get_world.
  destruct (snapshot (active w) id md); intros [= <- <-]; [reflexivity|].
  apply put_snapshot_within.
Qed.

Lemma touch_within id md : sat (within id md) (touch id md).
Proof.
  intros w r w'. unfold touch, bind, get_world, emit.
  destruct (snapshot (active w) id md) as [d|]; [|intros [= <- <-]; reflexivity].
  destruct (d !! ".done"); intros [= <- <-]; simpl.
  - by apply same_active_within.
  - apply put_snapshot_within.
Qed.

Lemma attachment_within atype id md line :
  sat (within id md) (_synchronise_attachment env atype id md line).
Proof.
  unfold _synchronise_attachment. destruct (attachment_ref atype line) as [f name].
  destruct (decide _); [apply sat_raise|].
  sat_step; [|apply emit_within].
  destruct (copy_ok env atype f name); [|apply sat_raise].
  sat_step; [apply emit_within|apply write_file_within].
Qed.

Lemma append_text_within id md line : sat (within id md) (append_text id md line).
Proof.
  unfold append_text. sat_step; [apply emit_within|].
  sat_step; [apply sat_get_world|]. repeat case_match; apply write_file_within.
Qed.

Lemma write_line_within id md line : sat (within id md) (write_line env id md line).
Proof.
  unfold write_line. sat_step; [apply append_text_within|].
  sat_step; (destruct (PyStr.contains _ _);
             [apply attachment_within|apply sat_ret]).
Qed.

Lemma synchronise_note_within note id md :
  sat (within id md) (_synchronise_note env note id md).
Proof.
  unfold _synchronise_note.
  sat_step; [apply emit_within|].
  sat_step; [apply mkdir_within|].
  sat_step; [apply emit_within|].
  sat_step; [apply write_file_within|].
  sat_step; [apply emit_within|].
  sat_step; [apply write_file_within|].
  sat_step; [apply sat_lift|]. sat_step. apply write_line_within.
Qed.

Lemma fetch_within note id md : sat (within id md) (fetch env note id md).
Proof.
  unfold fetch. sat_step; [apply synchronise_note_within|apply touch_within].
Qed.

(** *** Single files *)

Lemma emit_file id md name e : sat (keeps (file_of id md name)) (emit e).
Proof. intros w r w' [= <- <-]. by apply same_active_file. Qed.

(** Writing a file changes no other file. *)
Lemma write_file_other id md name f id' md' name' :
  (id', md', name') ≠ (id, md, name) →
  sat (keeps (file_of id' md' name')) (write_file id md name f).
Proof.
  intros Hne w r w'. unfold write_file, bind, get_world, set_active, raise.
  destruct (snapshot (active w) id md) as [d|] eqn:E; intros [= <- <-]; [|done].
  unfold keeps, file_of. simpl. rewrite file_at_put_snapshot.
  destruct (decide _) as [[-> ->]|]; [|done].
  rewrite (file_at_snapshot _ _ _ _ _ E). apply lookup_insert_ne. congruence.
Qed.

Lemma mkdir_file id md id' md' name' :
  sat (keeps (file_of id' md' name')) (mkdir id md).
Proof.
  unfold mkdir. apply sat_bind; [apply emit_file|].
  intros _ w r w'. unfold bind, get_world.
  destruct (snapshot (active w) id md) eqn:E; intros [= <- <-]; [done|].
  unfold keeps, file_of. simpl.
  rewrite file_at_put_snapshot. destruct (decide _) as [[-> ->]|]; [|done].
  unfold file_at. rewrite E. simpl. apply lookup_empty.
Qed.

Lemma touch_other id md id' md' name' :
  name' ≠ ".done" → sat (keeps (file_of id' md' name')) (touch id md).
Proof.
  intros Hne w r w'. unfold touch, bind, get_world, emit.
  destruct (snapshot (active w) id md) as [d|] eqn:E; [|by intros [= <- <-]].
  destruct (d !! ".done"); intros [= <- <-]; [done|].
  unfold keeps, file_of. simpl.
  rewrite file_at_put_snapshot. destruct (decide _) as [[-> ->]|]; [|done].
  rewrite (file_at_snapshot _ _ _ _ _ E). by apply lookup_insert_ne.
Qed.

(** An attachment is stored under its own name and changes no other
    file; it is never stored as [note.md]. *)
Lemma attachment_other atype id md line id' md' name' :
  name' = "note.md" ∨ snd (attachment_ref atype line) ≠ name' →
  sat (keeps (file_of id' md' name')) (_synchronise_attachment env atype id md line).
Proof.
  unfold _synchronise_attachment. destruct (attachment_ref atype line) as [f name].
  simpl. intros Hne.
  destruct (decide _) as [->|Hmd]; [apply sat_raise|].
  sat_step; [|apply emit_file].
  destruct (copy_ok env atype f name); [|apply sat_raise].
  sat_step; [apply emit_file|]. apply write_file_other.
  destruct Hne as [->|Hne]; congruence.
Qed.

Lemma append_text_other id md line id' md' name' :
  name' ≠ "note.md" → sat (keeps (file_of id' md' name')) (append_text id md line).
Proof.
  intros Hne. unfold append_text. sat_step; [apply emit_file|].
  sat_step; [apply sat_get_world|].
  repeat case_match; apply write_file_other; congruence.
Qed.

Lemma write_line_other id md line id' md' name' :
  name' ≠ "note.md" → name' ∉ attachment_names line →
  sat (keeps (file_of id' md' name')) (write_line env id md line).
Proof.
  intros Hne Hat. unfold write_line, attachment_names in *.
  sat_step; [by apply append_text_other|].
  sat_step.
  - destruct (PyStr.contains "[file:" line); [|apply sat_ret].
    apply attachment_other. right. intros E. apply Hat. rewrite E.
    apply elem_of_app. left. apply list_elem_of_here.
  - destruct (PyStr.contains "[image:" line); [|apply sat_ret].
    apply attachment_other. right. intros E. apply Hat. rewrite E.
    apply elem_of_app. right. apply list_elem_of_here.
Qed.

Lemma lines_other id md lines id' md' name' :
  name' ≠ "note.md" →
  (∀ line, line ∈ lines → name' ∉ attachment_names line) →
  sat (keeps (file_of id' md' name')) (for_each (write_line env id md) lines).
Proof.
  intros Hne. induction lines as [|line lines IH]; intros Hat; simpl.
  - apply sat_ret.
  - apply sat_bind.
    + apply write_line_other; [done|]. apply Hat, list_elem_of_here.
    + intros _. apply IH. intros l Hl. apply Hat. by apply list_elem_of_further.
Qed.

(** *** The text file *)

Lemma append_text_text id md line ls w w' :
  append_text id md line w = (Ok tt, w') →
  file_at (active w) id md "note.md" = Some (FText ls) →
  file_at (active w') id md "note.md" = Some (FText (ls ++ [line])).
Proof.
  unfold append_text, bind, emit, get_world. simpl. intros H Hf.
  rewrite Hf in H. by apply write_file_post in H.
Qed.

Lemma write_line_text id md line ls w w' :
  write_line env id md line w = (Ok tt, w') →
  file_at (active w) id md "note.md" = Some (FText ls) →
  file_at (active w') id md "note.md" = Some (FText (ls ++ [line])).
Proof.
  unfold write_line. intros H Hf.
  apply bind_ok_inv in H as ([] & w1 & H1 & H).
  apply bind_ok_inv in H as ([] & w2 & H2 & H3).
  pose proof (append_text_text _ _ _ _ _ _ H1 Hf) as Hf1.
  assert (keeps (file_of id md "note.md") w1 w2) as K2.
  { destruct (PyStr.contains "[file:" line).
    - eapply attachment_other; [by left|done].
    - by injection H2 as <-. }
  assert (keeps (file_of id md "note.md") w2 w') as K3.
  { destruct (PyStr.contains "[image:" line).
    - eapply attachment_other; [by left|done].
    - by injection H3 as <-. }
  unfold keeps, file_of in *. congruence.
Qed.

Lemma lines_text id md lines : ∀ ls w w',
  for_each (write_line env id md) lines w = (Ok tt, w') →
  file_at (active w) id md "note.md" = Some (FText ls) →
  file_at (active w') id md "note.md" = Some (FText (ls ++ lines)).
Proof.
  induction lines as [|line lines IH]; intros ls w w' H Hf.
  - injection H as <-. by rewrite app_nil_r.
  - rewrite for_each_cons in H. apply bind_ok_inv in H as ([] & w1 & H1 & H2).
    rewrite cons_middle, app_assoc. eapply IH; [done|].
    by eapply write_line_text.
Qed.

(** A completed [_synchronise_note] leaves the lines that Bear returned
    in [note.md]. *)
Lemma synchronise_note_text note id md w w' :
  _synchronise_note env note id md w = (Ok tt, w') →
  ∃ lines, open_note env id = Ok lines ∧
           file_at (active w') id md "note.md" = Some (FText lines).
Proof.
  unfold _synchronise_note. intros H.
  apply bind_ok_inv in H as ([] & w1 & _ & H).
  apply bind_ok_inv in H as ([] & w2 & _ & H).
  apply bind_ok_inv in H as ([] & w3 & _ & H).
  apply bind_ok_inv in H as ([] & w4 & _ & H).
  apply bind_ok_inv in H as ([] & w5 & _ & H).
  apply bind_ok_inv in H as ([] & w6 & H6 & H).
  apply bind_ok_inv in H as (lines & w7 & H7 & H).
  injection H7 as H7 <-. exists lines. split; [done|].
  apply write_file_post in H6.
  by apply (lines_text _ _ _ [] _ _ H).
Qed.

(** A completed [_synchronise_note] leaves the metadata it was given in
    [note.json], unless an attachment is stored under that name. *)
Lemma synchronise_note_json note id md lines w w' :
  _synchronise_note env note id md w = (Ok tt, w') →
  open_note env id = Ok lines →
  (∀ line, line ∈ lines → "note.json" ∉ attachment_names line) →
  file_at (active w') id md "note.json" = Some (FJson note).
Proof.
  unfold _synchronise_note. intros H Ho Hat.
  apply bind_ok_inv in H as ([] & w1 & _ & H).
  apply bind_ok_inv in H as ([] & w2 & _ & H).
  apply bind_ok_inv in H as ([] & w3 & _ & H).
  apply bind_ok_inv in H as ([] & w4 & H4 & H).
  apply bind_ok_inv in H as ([] & w5 & H5 & H).
  apply bind_ok_inv in H as ([] & w6 & H6 & H).
  apply bind_ok_inv in H as (lines' & w7 & H7 & H).
  injection H7 as H7 <-. assert (lines' = lines) as -> by congruence.
  apply write_file_post in H4.
  apply emit_file with (id:=id) (md:=md) (name:="note.json") in H5.
  apply (write_file_other _ _ _ _ id md "note.json") in H6; [|congruence].
  apply (lines_other _ _ _ id md "note.json") in H; [|done..].
  unfold keeps, file_of in *. congruence.
Qed.

End Stores.

(** *** The latest snapshot *)





(** ** Timestamps as directory names *)

Lemma string_compare_refl (s : string) : String.compare s s = Eq.
Proof.
  induction s as [|c s IH]; simpl; [done|].
  unfold Ascii.compare. by rewrite N.compare_refl.
Qed.

(** Replacing the colons keeps the order of two strings that have their
    colons at the same places. *)
Lemma replace_colon_compare (s1 : string) : ∀ s2,
  (∀ i, colon_at s1 i ↔ colon_at s2 i) →
  String.compare (PyStr.replace_colon s1) (PyStr.replace_colon s2)
  = String.compare s1 s2.
Proof.
  induction s1 as [|c1 s1 IH]; intros [|c2 s2] Hc; simpl; try done.
  assert (∀ i, colon_at s1 i ↔ colon_at s2 i) as Ht.
  { intros i. apply (Hc (S i)). }
  specialize (Hc 0%nat). unfold colon_at in Hc. simpl in Hc.
  rewrite (IH _ Ht).
  destruct (Ascii.eqb_spec c1 ":"%char) as [->|H1],
           (Ascii.eqb_spec c2 ":"%char) as [->|H2].
  - done.
  - exfalso. apply H2. destruct Hc as [Hc _]. by injection (Hc eq_refl).
  - exfalso. apply H1. destruct Hc as [_ Hc]. by injection (Hc eq_refl).
  - done.
Qed.

(** X11: the directory names sort like the timestamps. For two notes
    whose modification dates have their colons at the same positions (as
    timestamps of one format do), [mdate] keeps their order and keeps them
    apart: the lexicographically latest snapshot directory is the one of
    the latest modification date. *)
Theorem mdate_order (n1 n2 : Note) :
  (∀ i, colon_at (modificationDate n1) i ↔ colon_at (modificationDate n2) i) →
  (String.le (mdate n1) (mdate n2)
   ↔ String.le (modificationDate n1) (modificationDate n2)) ∧
  (mdate n1 = mdate n2 ↔ modificationDate n1 = modificationDate n2).
Proof.
  intros Hc. pose proof (replace_colon_compare _ _ Hc) as E. unfold mdate. split.
  - unfold String.le, String.leb. by rewrite E.
  - split; intros H; apply String.compare_eq_iff.
    + rewrite <- E, H. apply string_compare_refl.
    + rewrite E, H. apply string_compare_refl.
Qed.

(** ** Attachment markers *)

Section Markers.
Import PyStr PyStrFacts.

Lemma append_cons x (a b : string) : String x a +:+ b = String x (a +:+ b).
Proof. done. Qed.

Lemma append_assoc (a b c : string) : (a +:+ b) +:+ c = a +:+ (b +:+ c).
Proof.
  induction a as [|x a IH]; [done|]. by rewrite !append_cons, IH.
Qed.

Lemma length_append (a b : string) :
  String.length (a +:+ b) = (String.length a + String.length b)%nat.
Proof.
  induction a as [|x a IH]; [done|]. rewrite append_cons. simpl. by rewrite IH.
Qed.

Lemma substring_app_skip (a : string) n m s :
  String.substring (String.length a + n) m (a +:+ s) = String.substring n m s.
Proof. induction a as [|x a IH]; [done|]. by rewrite append_cons. Qed.

Lemma substring_app_at (a : string) m s :
  String.substring (String.length a) m (a +:+ s) = String.substring 0 m s.
Proof.
  rewrite <- (substring_app_skip a 0 m s). by rewrite Nat.add_0_r.
Qed.

Lemma substring_prefix (a : string) s :
  String.substring 0 (String.length a) (a +:+ s) = a.
Proof.
  induction a as [|x a IH].
  - by destruct s.
  - rewrite append_cons. simpl. by rewrite IH.
Qed.

Lemma get_app_skip (a : string) i s :
  String.get (String.length a + i) (a +:+ s) = String.get i s.
Proof. induction a as [|x a IH]; [done|]. by rewrite append_cons. Qed.

Lemma get_app_prefix (a : string) : ∀ i s,
  (i < String.length a)%nat → String.get i (a +:+ s) = String.get i a.
Proof.
  induction a as [|x a IH]; intros i s; simpl; [lia|].
  destruct i as [|i]; [done|]. intros H. apply IH. lia.
Qed.

(** A one-character string occurs where its character stands. *)
Lemma occurs_char c line i :
  occurs (String c "") line i ↔ String.get i line = Some c.
Proof.
  unfold occurs. simpl String.length. revert i.
  induction line as [|d line IH]; intros [|i]; simpl.
  - done.
  - done.
  - assert (String.substring 0 0 line = "") as -> by (by destruct line).
    split; [by intros [= ->]|by intros [= ->]].
  - apply IH.
Qed.

Lemma free_of_app c a b : free_of c a → free_of c b → free_of c (a +:+ b).
Proof.
  intros Ha Hb i. destruct (decide (i < String.length a)%nat).
  - by rewrite get_app_prefix.
  - replace i with (String.length a + (i - String.length a))%nat by lia.
    rewrite get_app_skip. apply Hb.
Qed.

Lemma first_at_char c s1 s2 :
  free_of c s1 →
  first_at (String c "") (s1 +:+ String c "" +:+ s2) 0 (String.length s1).
Proof.
  intros Hf. split; [lia|]. split.
  - apply occurs_char. rewrite <- (Nat.add_0_r (String.length s1)).
    by rewrite get_app_skip.
  - intros p _ Hp Ho. apply occurs_char in Ho.
    rewrite get_app_prefix in Ho by done. by apply (Hf p).
Qed.

Lemma first_at_shift sub p s i :
  first_at sub s 0 i →
  first_at sub (p +:+ s) (String.length p) (String.length p + i).
Proof.
  intros (Hle & Ho & Hmin). split; [lia|]. split.
  - unfold occurs in *. by rewrite substring_app_skip.
  - intros q Hq1 Hq2 Hoq. apply (Hmin (q - String.length p)%nat); [lia..|].
    unfold occurs in *. rewrite <- Hoq at 2.
    replace q with (String.length p + (q - String.length p))%nat at 2 by lia.
    by rewrite substring_app_skip.
Qed.

Lemma find_at line sub from i :
  sub ≠ "" → first_at sub line from i → find line sub from = Z.of_nat i.
Proof.
  intros Hne Hi. destruct (find_first line sub from) as (m & Em & Hm).
  { destruct Hi as (? & ? & _). by eapply find_present. }
  rewrite Em. f_equal. eauto using first_at_unique.
Qed.

(** What [_synchronise_attachment] reads off a line whose first marker of
    the type is [[atype:dir/nm]]. *)
Lemma attachment_ref_parse (atype pre dir nm post : string) :
  let line := pre +:+ "[" +:+ atype +:+ ":" +:+ dir +:+ "/" +:+ nm +:+ "]" +:+ post in
  (∀ p, (p < String.length pre)%nat → ¬ occurs ("[" +:+ atype +:+ ":") line p) →
  free_of "/" dir → free_of "]" dir → free_of "]" nm →
  attachment_ref atype line = (dir +:+ "/" +:+ nm, nm).
Proof.
  intros line Hfirst Hsd Hbd Hbn.
  set (marker := "[" +:+ atype +:+ ":").
  set (rest := dir +:+ "/" +:+ nm +:+ "]" +:+ post).
  set (P1 := pre +:+ marker).
  assert (line = pre +:+ (marker +:+ rest)) as E1.
  { unfold line, marker, rest. by rewrite !append_assoc. }
  assert (line = P1 +:+ rest) as E2.
  { rewrite E1. unfold P1. by rewrite append_assoc. }
  assert (String.length marker = (String.length atype + 2)%nat) as Lm.
  { unfold marker. rewrite !length_append. simpl. lia. }
  assert (String.length P1 = (String.length pre + String.length atype + 2)%nat) as LP.
  { unfold P1. rewrite length_append. lia. }
  assert (rest = (dir +:+ "/" +:+ nm) +:+ "]" +:+ post) as R1.
  { unfold rest. by rewrite !append_assoc. }
  assert (rest = (dir +:+ "/") +:+ nm +:+ "]" +:+ post) as R2.
  { unfold rest. by rewrite !append_assoc. }
  assert (String.length line
          = (String.length P1 + String.length (dir +:+ "/" +:+ nm)
             + S (String.length post))%nat) as Ll.
  { rewrite E2, R1, !length_append. simpl. lia. }
  assert (String.length (dir +:+ "/" +:+ nm)
          = (String.length dir + 1 + String.length nm)%nat) as Ldn.
  { rewrite !length_append. simpl. lia. }
  assert (find line marker 0 = Z.of_nat (String.length pre)) as Fm.
  { apply find_at; [done|]. split; [lia|]. split; [|intros p _; apply Hfirst].
    unfold occurs. rewrite E1.
    rewrite <- (Nat.add_0_r (String.length pre)), substring_app_skip.
    apply substring_prefix. }
  assert (find line "]" (String.length P1)
          = Z.of_nat (String.length P1 + String.length (dir +:+ "/" +:+ nm))) as Fe.
  { apply find_at; [done|]. rewrite E2. apply first_at_shift.
    rewrite R1. apply first_at_char.
    apply free_of_app; [done|]. apply free_of_app; [|done].
    intros [|[|i]]; done. }
  assert (find line "/" (String.length P1)
          = Z.of_nat (String.length P1 + String.length dir)) as Fs.
  { apply find_at; [done|]. rewrite E2. apply first_at_shift.
    unfold rest. by apply (first_at_char "/"). }
  unfold attachment_ref. fold marker. fold line. rewrite Fm.
  replace (Z.of_nat (String.length pre) + Z.of_nat (String.length atype) + 2)
    with (Z.of_nat (String.length P1)) by lia.
  rewrite Nat2Z.id, Fe, Fs.
  replace (Z.of_nat (String.length P1 + String.length dir) + 1)
    with (Z.of_nat (String.length P1 + String.length dir + 1)) by lia.
  rewrite !slice_nonneg by lia. f_equal.
  - rewrite E2, substring_app_at.
    replace (String.length P1 + String.length (dir +:+ "/" +:+ nm)
             - String.length P1)%nat
      with (String.length (dir +:+ "/" +:+ nm)) by lia.
    rewrite R1. apply substring_prefix.
  - rewrite E2.
    replace (String.length P1 + String.length (dir +:+ "/" +:+ nm)
             - (String.length P1 + String.length dir + 1))%nat
      with (String.length nm) by lia.
    replace (String.length P1 + String.length dir + 1)%nat
      with (String.length P1 + String.length (dir +:+ "/"))%nat
      by (rewrite length_append; simpl; lia).
    rewrite substring_app_skip, R2, substring_app_at.
    apply substring_prefix.
Qed.

End Markers.

(** X12: reading an attachment marker. On a line whose first marker of
    the type is [[atype:dir/nm]], where [dir] has no slash and neither
    [dir] nor [nm] has a closing bracket, [_synchronise_attachment] takes
    [dir/nm] as the path below Bear's folder and [nm] as the file name in
    the snapshot. *)
Theorem attachment_ref_marker (atype pre dir nm post : string) :
  (∀ p, (p < String.length pre)%nat →
        ¬ occurs ("[" +:+ atype +:+ ":")
            (pre +:+ "[" +:+ atype +:+ ":" +:+ dir +:+ "/" +:+ nm +:+ "]" +:+ post) p) →
  free_of "/" dir → free_of "]" dir → free_of "]" nm →
  attachment_ref atype
    (pre +:+ "[" +:+ atype +:+ ":" +:+ dir +:+ "/" +:+ nm +:+ "]" +:+ post)
  = (dir +:+ "/" +:+ nm, nm).
Proof. apply attachment_ref_parse. Qed.

(** ** Runs that write nothing *)

#[global] Instance idle_preorder : PreOrder idle.
Proof.
  split.
  - intros w. split_and!; [done..|]. exists []. split; [by rewrite app_nil_r|].
    constructor.
  - intros w1 w2 w3 (Ha1 & Hd1 & l1 & Hl1 & S1) (Ha2 & Hd2 & l2 & Hl2 & S2).
    split_and!; [congruence..|]. exists (l1 ++ l2). split.
    + by rewrite Hl2, Hl1, app_assoc.
    + by apply Forall_app.
Qed.

#[global] Instance stays_preorder Q : PreOrder (stays Q).
Proof.
  split.
  - intros w H. exact H.
  - intros w1 w2 w3 H1 H2 H. by apply H2, H1.
Qed.

Lemma same_world_idle {A} (m : M A) :
  (∀ w r w', m w = (r, w') → w' = w) → sat idle m.
Proof. intros H w r w' Hm. rewrite (H _ _ _ Hm). reflexivity. Qed.

Lemma emit_idle e : ev_target e = None → sat idle (emit e).
Proof.
  intros He w r w' [= <- <-]. split_and!; [done..|]. exists [e].
  split; [done|]. by constructor.
Qed.

Lemma print_idle msg : sat idle (print msg).
Proof. by apply emit_idle. Qed.

Lemma load_json_idle id md : sat idle (load_json id md).
Proof.
  apply same_world_idle. intros w r w'. unfold load_json, bind, get_world.
  repeat case_match; by intros [= <- <-].
Qed.

Lemma note_contents_idle id : sat idle (note_contents id).
Proof.
  apply same_world_idle. intros w r w' H. by apply note_contents_inv in H.
Qed.

Lemma remember_note_idle n : sat idle (remember_note n).
Proof.
  intros w r w' [= <- <-]. split_and!; [done..|]. exists [].
  split; [by rewrite app_nil_r|constructor].
Qed.

Lemma links_loop_idle fuel id line : ∀ offset links,
  sat idle (links_loop fuel id line offset links).
Proof.
  induction fuel as [|fuel IH]; intros offset links; simpl.
  - apply sat_raise.
  - destruct (_ =? _); [apply sat_ret|].
    destruct (_ =? _); [|apply IH].
    sat_step; [apply print_idle|].
    sat_step; [apply print_idle|apply sat_raise].
Qed.

Lemma note_links_idle id : sat idle (note_links id).
Proof.
  unfold note_links, links_of_lines. sat_step; [apply note_contents_idle|].
  sat_step. apply links_loop_idle.
Qed.

Lemma examine_idle n : sat idle (examine n).
Proof.
  unfold examine. sat_step; [apply sat_get_world|].
  destruct (file_at _ _ _ _).
  { sat_step; [apply load_json_idle|apply sat_ret]. }
  destruct (last _); [|apply sat_ret].
  sat_step; [apply load_json_idle|].
  destruct (decide _); [|apply sat_ret].
  sat_step; [apply print_idle|apply sat_ret].
Qed.

(** ** Markers and metadata *)

Lemma idle_complete w w' :
  idle w w' → stays (λ w, complete_markers (active w)) w w'.
Proof. intros (Ha & _) H. by rewrite Ha. Qed.

Lemma within_complete id md w w' :
  within id md w w' →
  is_Some (file_at (active w') id md "note.json") →
  complete_markers (active w) → complete_markers (active w').
Proof.
  intros Hw Hj Hc id' md' Hd.
  destruct (decide ((id', md') = (id, md))) as [[= -> ->]|Hne]; [done|].
  unfold file_at in Hd |- *. rewrite (Hw _ _ Hne) in Hd |- *. by apply Hc.
Qed.

Lemma delete_complete (a : Area) name :
  complete_markers a → complete_markers (delete name a).
Proof.
  intros Hc id md Hd. destruct (decide (id = name)) as [->|Hne].
  - exfalso. apply file_at_dir in Hd. rewrite lookup_delete_eq in Hd.
    by destruct Hd.
  - assert (∀ f, file_at (delete name a) id md f = file_at a id md f) as E.
    { intros f. apply file_at_local, lookup_delete_ne. congruence. }
    rewrite E in Hd |- *. by apply Hc.
Qed.

Section Complete.
Variable env : Remote.

Lemma note_tail_grows I id md :
  sat (grows I)
    (emit (OpenText id md) ;;
     write_file id md "note.md" (FText []) ;;
     content <- lift (open_note env id) ;;
     for_each (write_line env id md) content).
Proof.
  sat_step; [apply emit_grows|].
  sat_step; [apply write_file_grows|].
  sat_step; [apply sat_lift|]. apply lines_grow.
Qed.

(** However [_synchronise_note] ends, the metadata file is there. *)
Lemma synchronise_note_json_any note id md w r w' :
  _synchronise_note env note id md w = (r, w') →
  is_Some (file_at (active w') id md "note.json").
Proof.
  unfold _synchronise_note. intros H.
  apply bind_inv in H as [([] & w1 & H1 & H)|(e & H1 & _)];
    [|by unfold print, emit in H1].
  destruct (mkdir_ok id md w1) as (w2' & E & _ & Hs).
  apply bind_inv in H as [([] & w2 & H2 & H)|(e & H2 & _)]; [|congruence].
  assert (w2' = w2) as -> by congruence.
  apply bind_inv in H as [([] & w3 & H3 & H)|(e & H3 & _)];
    [|by unfold emit in H3].
  injection H3 as <-.
  apply bind_inv in H as [([] & w4 & H4 & H)|(e & H4 & _)].
  - apply write_file_post in H4.
    apply (note_tail_grows (λ _, True)) in H. apply H; [done|].
    rewrite H4. eauto.
  - exfalso. unfold write_file, bind, get_world in H4. simpl in H4.
    destruct Hs as [d Hs]. rewrite Hs in H4. discriminate.
Qed.

Lemma fetch_json_any note id md w r w' :
  fetch env note id md w = (r, w') →
  is_Some (file_at (active w') id md "note.json").
Proof.
  unfold fetch. intros H.
  apply bind_inv in H as [([] & w1 & H1 & H)|(e & H1 & _)].
  - apply synchronise_note_json_any in H1.
    apply (touch_grows (λ _, True)) in H. by apply H.
  - by eapply synchronise_note_json_any.
Qed.

Lemma fetch_complete note id md :
  sat (stays (λ w, complete_markers (active w))) (fetch env note id md).
Proof.
  intros w r w' H Hc.
  eapply within_complete; [by eapply fetch_within|by eapply fetch_json_any|done].
Qed.

Lemma sync_one_complete acc n :
  sat (stays (λ w, complete_markers (active w))) (sync_one env acc n).
Proof.
  unfold sync_one, fetch_if_stale. destruct acc as [tc act].
  sat_step; [eapply sat_weaken; [apply idle_complete|apply remember_note_idle]|].
  sat_step; [eapply sat_weaken; [apply idle_complete|apply examine_idle]|].
  destruct a0.
  sat_step; [|apply sat_ret].
  sat_step; [apply sat_get_world|].
  destruct (_ || _); [apply fetch_complete|apply sat_ret].
Qed.

Lemma relink_complete tc ident :
  sat (stays (λ w, complete_markers (active w))) (relink env tc ident).
Proof.
  unfold relink.
  sat_step; [eapply sat_weaken; [apply idle_complete|apply note_links_idle]|].
  sat_step. destruct (decide _); [|apply sat_ret].
  sat_step; [apply sat_get_world|].
  destruct (nlist _ !! _); [apply fetch_complete|apply sat_raise].
Qed.

Lemma remove_deleted_complete act name :
  sat (stays (λ w, complete_markers (active w))) (remove_deleted act name).
Proof.
  intros w r w' H Hc. apply remove_deleted_spec in H as [_ H].
  repeat case_match; destruct H as (_ & Ha & _); rewrite Ha; try done.
  by apply delete_complete.
Qed.

Lemma synchronise_complete :
  sat (stays (λ w, complete_markers (active w))) (synchronise env).
Proof.
  unfold synchronise, first_pass, second_pass, third_pass.
  sat_step; [intros w r w' [= <- <-] Hc; exact Hc|].
  sat_step; [apply sat_lift|].
  sat_step; [sat_step; apply sync_one_complete|].
  destruct a1 as [tc act].
  sat_step; [sat_step; apply relink_complete|].
  sat_step; [apply sat_get_world|].
  sat_step. apply remove_deleted_complete.
Qed.

End Complete.

(** X13: a store in which every snapshot directory with a completion
    marker also has its metadata file stays so under [synchronise],
    however the pass ends (also when it stops half way with an
    exception). *)
Theorem complete_markers_kept (env : Remote) (w : World) (r : Res unit)
    (w' : World) :
  synchronise env w = (r, w') →
  complete_markers (active w) →
  complete_markers (active w').
Proof. apply synchronise_complete. Qed.

(** ** A second pass *)

Lemma up_to_date_snapshot (a a' : Area) n :
  snapshot a' (identifier n) (mdate n) = snapshot a (identifier n) (mdate n) →
  up_to_date a n → up_to_date a' n.
Proof. unfold up_to_date, file_at. by intros ->. Qed.

Lemma fetched_snapshot env (a a' : Area) n :
  snapshot a' (identifier n) (mdate n) = snapshot a (identifier n) (mdate n) →
  fetched env a n → fetched env a' n.
Proof. unfold fetched, file_at. by intros ->. Qed.

(** What the first loop decides for a note that is up to date: no tag
    change, no fetch, no title comparison. *)
Lemma up_to_date_must_fetch (a : Area) n :
  up_to_date a n → must_fetch a n = false ∧ title_change a n = None.
Proof.
  intros (Hd & meta & Hj & Hp). unfold must_fetch, tags_differ, title_change.
  rewrite Hj. rewrite bool_decide_eq_true_2 by done. simpl. split; [|done].
  apply bool_decide_eq_false_2. intros Hne. apply Hne. by apply sorted_eq_iff.
Qed.

(** A property [Q] of the snapshot directory of [n] that a completed
    fetch of [n] establishes holds at the end of a completed pass. *)
Section Lasting.
Variables (env : Remote) (n : Note) (Q : Area → Prop).
Hypothesis Q_snapshot : ∀ a a',
  snapshot a' (identifier n) (mdate n) = snapshot a (identifier n) (mdate n) →
  Q a → Q a'.
Hypothesis Q_fetch : ∀ w w',
  fetch env n (identifier n) (mdate n) w = (Ok tt, w') → Q (active w').
Hypothesis Q_dir : ∀ a, Q a → is_Some (a !! identifier n).

Lemma lasting_dir (a a' : Area) :
  a' !! identifier n = a !! identifier n → Q a → Q a'.
Proof.
  intros E. apply Q_snapshot. unfold snapshot.
  by rewrite (history_local a' a _ E).
Qed.

Lemma fetch_elsewhere m id md w r w' :
  fetch env m id md w = (r, w') → id ≠ identifier n →
  Q (active w) → Q (active w').
Proof.
  intros H Hne. apply Q_snapshot.
  eapply (fetch_within env); [done|]. congruence.
Qed.

(** One iteration of the second loop keeps [Q] and the index. *)
Lemma relink_lasting tc ident w w' :
  relink env tc ident w = (Ok tt, w') →
  nlist w !! identifier n = Some n →
  Q (active w) →
  Q (active w') ∧ nlist w' = nlist w.
Proof.
  unfold relink. intros H Hn Hu.
  apply bind_ok_inv in H as (links & w0 & H0 & H).
  pose proof (note_links_idle _ _ _ _ H0) as (Ha & _).
  pose proof (note_links_keeps nlist keeps_nlist_side _ _ _ _ H0) as Hk.
  unfold keeps in Hk. rewrite <- Ha in Hu. rewrite <- Hk in Hn |- *.
  clear H0 Ha Hk. revert w0 H Hn Hu.
  induction links as [|link links IH]; intros w0 H Hn Hu.
  { by injection H as <-. }
  rewrite for_each_cons in H. apply bind_ok_inv in H as ([] & w1 & H1 & H).
  destruct (IH w1 H) as [Hu' Hn'].
  - destruct (decide (link ∈ tc)); [|by injection H1 as <-].
    unfold bind, get_world in H1. destruct (nlist w0 !! ident); [|done].
    apply (fetch_keeps nlist keeps_nlist_side) in H1. unfold keeps in H1.
    by rewrite H1.
  - destruct (decide (link ∈ tc)); [|by injection H1 as <-].
    unfold bind, get_world in H1.
    destruct (nlist w0 !! ident) as [m|] eqn:En; [|done].
    destruct (decide (ident = identifier n)) as [->|Hne].
    + assert (m = n) as -> by congruence. by eapply Q_fetch.
    + by eapply fetch_elsewhere.
  - split; [done|]. rewrite Hn'.
    destruct (decide (link ∈ tc)); [|by injection H1 as <-].
    unfold bind, get_world in H1. destruct (nlist w0 !! ident); [|done].
    by apply (fetch_keeps nlist keeps_nlist_side) in H1.
Qed.

Lemma second_pass_lasting tc act : ∀ w w',
  second_pass env tc act w = (Ok tt, w') →
  nlist w !! identifier n = Some n →
  Q (active w) →
  Q (active w').
Proof.
  unfold second_pass. induction act as [|ident act IH]; intros w w' H Hn Hu.
  { by injection H as <-. }
  rewrite for_each_cons in H. apply bind_ok_inv in H as ([] & w1 & H1 & H).
  destruct (relink_lasting _ _ _ _ H1 Hn Hu) as [Hu1 Hn1].
  eapply IH; [done| |done]. by rewrite Hn1.
Qed.

(** In a completed pass over distinct identifiers, what the iteration of
    the first loop for [n] establishes is there at the end. *)
Lemma synchronise_lasting w w' nl :
  synchronise env w = (Ok tt, w') →
  search env = Ok nl →
  NoDup (identifier <$> nl) →
  n ∈ nl →
  (∀ acc acc' wa wb,
     active wa !! identifier n = active w !! identifier n →
     sync_one env acc n wa = (Ok acc', wb) → Q (active wb)) →
  Q (active w').
Proof.
  intros H Hs Hnd Hn Hone.
  destruct (synchronise_focus env _ _ _ _ H Hs Hnd Hn)
    as (acc1 & acc2 & wa & wb & w1 & w2 & F1 & H1 & F2 & H2 & H3).
  assert (Q (active wb)) as Qb.
  { eapply Hone; [|done].
    apply (others_self (λ i, active wa !! i) (λ i, active w !! i)), F1. }
  assert (Q (active w1)) as Q1.
  { eapply lasting_dir; [|done].
    apply (others_self (λ i, active w1 !! i) (λ i, active wb !! i)), F2. }
  assert (nlist w1 !! identifier n = Some n) as Hn1.
  { rewrite (others_self (λ i, nlist w1 !! i) (λ i, nlist wb !! i));
      [|apply F2].
    rewrite (sync_one_index env _ _ _ _ _ H1). apply lookup_insert_eq. }
  pose proof (second_pass_lasting _ _ _ _ H2 Hn1 Q1) as Q2.
  eapply lasting_dir; [|done].
  eapply third_pass_apart; [done|by apply list_elem_of_fmap_2|by apply Q_dir].
Qed.

End Lasting.

Section Settles.
Variable env : Remote.

(** A completed fetch of [n] leaves its snapshot directory [fetched]. *)
Lemma fetch_fetched n w w' :
  fetch env n (identifier n) (mdate n) w = (Ok tt, w') →
  fetched env (active w') n.
Proof.
  intros H.
  destruct (fetch_post env (λ _, True) _ _ _ _ _ I H) as (Hj & Hm & Hd).
  unfold fetch in H. apply bind_ok_inv in H as ([] & w5 & H & Ht).
  destruct (synchronise_note_text env _ _ _ _ _ H) as (lines & Ho & Hf).
  exists lines. split_and!; [done..|]. intros Hp.
  pose proof (touch_other _ _ (identifier n) (mdate n) "note.md"
                ltac:(done) _ _ _ Ht) as Kt.
  pose proof (touch_other _ _ (identifier n) (mdate n) "note.json"
                ltac:(done) _ _ _ Ht) as Kj.
  unfold keeps, file_of in Kt, Kj. split; [congruence|].
  rewrite Kj. eapply synchronise_note_json; [done..|].
  intros line Hl Hin. by destruct (Hp line "note.json" Hl Hin) as [_ ?].
Qed.

(** ... and, with plain attachments, up to date. *)
Lemma fetch_settles n w w' :
  (∀ lines, open_note env (identifier n) = Ok lines → plain_attachments lines) →
  fetch env n (identifier n) (mdate n) w = (Ok tt, w') →
  up_to_date (active w') n.
Proof.
  intros Hp H. destruct (fetch_fetched _ _ _ H) as (lines & Ho & Hd & _ & _ & Hc).
  split; [done|]. exists n. by destruct (Hc (Hp _ Ho)) as [_ ->].
Qed.

(** After a completed pass over distinct identifiers, on a store with
    complete markers and metadata records, and with plain attachments,
    every note of the remote list is up to date. *)
Lemma synchronise_settles w w' nl n :
  synchronise env w = (Ok tt, w') →
  search env = Ok nl →
  NoDup (identifier <$> nl) →
  complete_markers (active w) →
  metadata_records (active w) →
  attachments_apart env nl →
  n ∈ nl →
  up_to_date (active w') n.
Proof.
  intros H Hs Hnd Hc Hr Hp Hn.
  apply (synchronise_lasting env n (λ a, up_to_date a n)) with (w := w) (nl := nl);
    try done.
  - intros a a'. apply up_to_date_snapshot.
  - intros w0 w0'. apply fetch_settles. intros lines. by apply Hp.
  - intros a [Hd _]. by eapply file_at_dir.
  - intros [tc act] acc' wa wb Ea H1.
    apply sync_one_ok in H1 as (_ & w0 & Ha & _ & _ & _ & Hf).
    destruct (must_fetch (active wa) n) eqn:Hm.
    + eapply fetch_settles; [|done]. intros lines. by apply Hp.
    + subst wb. unfold must_fetch in Hm. apply orb_false_iff in Hm as [Hd Ht].
      apply negb_false_iff, bool_decide_eq_true in Hd.
      assert (is_Some (file_at (active wa) (identifier n) (mdate n) "note.json"))
        as [f Hj].
      { rewrite (file_at_local _ (active w)) in Hd |- * by done. by apply Hc. }
      destruct (Hr (identifier n) (mdate n) f) as [meta ->].
      { by rewrite <- (file_at_local (active wa) (active w)). }
      unfold up_to_date. rewrite Ha. split; [done|]. exists meta. split; [done|].
      unfold tags_differ in Ht. rewrite Hj in Ht.
      apply bool_decide_eq_false in Ht. apply sorted_eq_iff.
      by destruct (decide (PyStr.sorted (PyStr.chars (tags meta))
                           = PyStr.sorted (PyStr.chars (tags n)))).
Qed.

(** In a completed pass over distinct identifiers, a note that is due
    for a fetch ends with its snapshot directory [fetched]. *)
Lemma synchronise_fetched w w' nl n :
  synchronise env w = (Ok tt, w') →
  search env = Ok nl →
  NoDup (identifier <$> nl) →
  n ∈ nl →
  must_fetch (active w) n = true →
  fetched env (active w') n.
Proof.
  intros H Hs Hnd Hn Hm.
  apply (synchronise_lasting env n (λ a, fetched env a n)) with (w := w) (nl := nl);
    try done.
  - intros a a'. apply fetched_snapshot.
  - intros w0 w0'. apply fetch_fetched.
  - intros a (lines & _ & Hd & _). by eapply file_at_dir.
  - intros [tc act] acc' wa wb Ea H1.
    apply sync_one_ok in H1 as (_ & w0 & Ha & _ & _ & _ & Hf).
    rewrite (must_fetch_local (active wa) (active w) n Ea), Hm in Hf.
    by eapply fetch_fetched.
Qed.

(** One iteration of the first loop on a note that is up to date. *)
Lemma sync_one_settled tc act n w r w' :
  up_to_date (active w) n →
  sync_one env (tc, act) n w = (r, w') →
  idle w w' ∧ ∀ acc', r = Ok acc' → acc' = (tc, act ++ [identifier n]).
Proof.
  intros Hu H. destruct (up_to_date_must_fetch _ _ Hu) as [Hm Hch].
  unfold must_fetch in Hm. apply orb_false_iff in Hm as [Hd Ht].
  unfold sync_one in H.
  apply bind_inv in H as [([] & w0 & H0 & H)|(e & H0 & _)];
    [|by unfold remember_note, bind, get_world, set_nlist in H0].
  pose proof (remember_note_idle _ _ _ _ H0) as I0.
  assert (active w0 = active w) as Ha0 by apply I0.
  apply bind_inv in H as [([tgs ch] & w1 & H1 & H)|(e & H1 & ->)].
  - pose proof (examine_idle _ _ _ _ H1) as I1.
    apply examine_spec in H1 as (Ha1 & _ & _ & -> & -> & _).
    rewrite Ha0, Ht in H.
    rewrite Hch in H. unfold fetch_if_stale, bind, get_world in H.
    rewrite Ha1, Ha0, Hd in H. simpl in H. injection H as <- <-.
    split; [by etrans|]. intros acc' [= <-]. by rewrite app_nil_r.
  - pose proof (examine_idle _ _ _ _ H1) as I1.
    split; [by etrans|]. by intros acc' [=].
Qed.

Lemma first_pass_settled nl : ∀ tc act w r w',
  (∀ n, n ∈ nl → up_to_date (active w) n) →
  for_acc (sync_one env) (tc, act) nl w = (r, w') →
  idle w w' ∧ ∀ acc', r = Ok acc' → acc' = (tc, act ++ (identifier <$> nl)).
Proof.
  induction nl as [|n nl IH]; intros tc act w r w' Hu H.
  { injection H as <- <-. split; [reflexivity|].
    intros acc' [= <-]. by rewrite app_nil_r. }
  rewrite for_acc_cons in H.
  apply bind_inv in H as [(acc1 & w1 & H1 & H)|(e & H1 & ->)].
  - destruct (sync_one_settled _ _ _ _ _ _
                (Hu n ltac:(apply list_elem_of_here)) H1) as [I1 E1].
    rewrite (E1 _ eq_refl) in H.
    assert (∀ m, m ∈ nl → up_to_date (active w1) m) as Hu1.
    { intros m Hm. destruct I1 as (-> & _). apply Hu.
      by apply list_elem_of_further. }
    destruct (IH _ _ _ _ _ Hu1 H) as [I2 E2].
    split; [by etrans|]. intros acc' ->. rewrite (E2 _ eq_refl).
    by rewrite <- app_assoc.
  - destruct (sync_one_settled _ _ _ _ _ _
                (Hu n ltac:(apply list_elem_of_here)) H1) as [I1 _].
    split; [done|]. by intros acc' [=].
Qed.

(** With no changed title the second loop writes nothing. *)
Lemma relink_nil_idle ident : sat idle (relink env [] ident).
Proof.
  unfold relink. sat_step; [apply note_links_idle|].
  sat_step. destruct (decide _) as [Hin|]; [|apply sat_ret].
  by apply elem_of_nil in Hin.
Qed.

End Settles.

(** The third loop writes nothing when every entry of [active/] outside
    the remote list already has an entry in [deleted/]. *)
Lemma remove_all_idle act names : ∀ w r w',
  (∀ x, x ∈ names → x ∉ act → is_Some (deleted w !! x)) →
  for_each (remove_deleted act) names w = (r, w') →
  idle w w'.
Proof.
  induction names as [|name names IH]; intros w r w' Hdup H.
  { injection H as _ <-. reflexivity. }
  rewrite for_each_cons in H.
  assert (∀ w1 r1, remove_deleted act name w = (r1, w1) → idle w w1) as Hone.
  { intros w1 r1 H1. apply remove_deleted_spec in H1 as [_ H1].
    destruct (decide (name ∈ act)) as [Hin|Hin].
    - destruct H1 as (_ & Ha & Hd & Hl). split_and!; [done..|].
      eexists. split; [done|]. by repeat constructor.
    - destruct (Hdup name ltac:(apply list_elem_of_here) Hin) as [h Hh].
      rewrite Hh in H1. destruct H1 as (_ & Ha & Hd & Hl).
      split_and!; [done..|]. eexists. split; [done|]. by repeat constructor. }
  apply bind_inv in H as [([] & w1 & H1 & H)|(e & H1 & ->)].
  - pose proof (Hone _ _ H1) as I1. etrans; [done|].
    eapply IH; [|done]. intros x Hx Hact. destruct I1 as (_ & -> & _).
    apply Hdup; [|done]. by apply list_elem_of_further.
  - by eapply Hone.
Qed.

Lemma third_pass_idle act w r w' :
  (∀ id, is_Some (active w !! id) → id ∉ act → is_Some (deleted w !! id)) →
  third_pass act w = (r, w') → idle w w'.
Proof.
  unfold third_pass, bind, get_world. intros Hdup H.
  eapply remove_all_idle; [|done].
  intros x Hx. apply Hdup. by apply elem_of_keys.
Qed.

(** A pass over a store that is up to date writes nothing. *)
Lemma settled_pass_idle env nl w r w' :
  search env = Ok nl →
  (∀ n, n ∈ nl → up_to_date (active w) n) →
  (∀ id, is_Some (active w !! id) → id ∉ identifier <$> nl →
         is_Some (deleted w !! id)) →
  synchronise env w = (r, w') →
  idle w w'.
Proof.
  intros Hs Hu Hdup H. rewrite (synchronise_unfold env w nl Hs) in H.
  assert (idle w (reset w)) as I0.
  { split_and!; [done..|]. exists []. split; [by rewrite app_nil_r|constructor]. }
  etrans; [done|]. unfold first_pass in H.
  apply bind_inv in H as [(acc & w1 & H1 & H)|(e & H1 & _)].
  - destruct (first_pass_settled env nl [] [] (reset w) _ _ Hu H1) as [I1 E1].
    rewrite (E1 _ eq_refl) in H. simpl in H.
    apply bind_inv in H as [([] & w2 & H2 & H)|(e & H2 & _)].
    + assert (idle w1 w2) as I2.
      { revert H2. unfold second_pass. apply sat_for_each.
        intros ident. apply relink_nil_idle. }
      etrans; [done|]. etrans; [done|].
      eapply third_pass_idle; [|done]. intros id Hid Hact.
      destruct I1 as (Ha1 & Hd1 & _), I2 as (Ha2 & Hd2 & _).
      simpl in Ha1, Hd1. rewrite Hd2, Hd1. apply Hdup; [|done].
      by rewrite <- Ha1, <- Ha2.
    + etrans; [done|]. revert H2. unfold second_pass. apply sat_for_each.
      intros ident. apply relink_nil_idle.
  - by destruct (first_pass_settled env nl [] [] (reset w) _ _ Hu H1) as [I1 _].
Qed.

(** What a completed pass leaves in [active/] outside the remote list
    has an entry in [deleted/]. *)
Lemma synchronise_leaves_duplicates env w w' nl id :
  synchronise env w = (Ok tt, w') →
  search env = Ok nl →
  is_Some (active w' !! id) →
  id ∉ identifier <$> nl →
  is_Some (deleted w' !! id).
Proof.
  intros H Hs Ha Hid.
  rewrite (synchronise_active_rest env w w' nl id H Hs Hid) in Ha.
  rewrite (synchronise_deleted_area env w w' nl id H Hs).
  destruct (deleted w !! id); [eauto|]. by destruct Ha.
Qed.

(** X14: after a pass that completes, over a remote list with distinct
    identifiers, on a store in which every marked snapshot has its
    metadata file and every metadata file is a record, and with
    attachments that are stored under plain names other than
    [note.json], every note of the remote list is up to date:
    its snapshot directory has the completion marker, and its [note.json]
    is a metadata record whose tags have the characters of the remote
    tags, so that the test of the first loop is false for it. *)
Theorem pass_settles (env : Remote) (w w' : World) (nl : list Note) (n : Note) :
  synchronise env w = (Ok tt, w') →
  search env = Ok nl →
  NoDup (identifier <$> nl) →
  complete_markers (active w) →
  metadata_records (active w) →
  attachments_apart env nl →
  n ∈ nl →
  is_Some (file_at (active w') (identifier n) (mdate n) ".done") ∧
  ∃ meta,
    file_at (active w') (identifier n) (mdate n) "note.json"
    = Some (FJson meta) ∧
    PyStr.sorted (PyStr.chars (tags meta)) = PyStr.sorted (PyStr.chars (tags n)).
Proof.
  intros H Hs Hnd Hc Hr Hp Hn.
  destruct (synchronise_settles env _ _ _ _ H Hs Hnd Hc Hr Hp Hn)
    as (Hd & meta & Hj & Ht).
  split; [done|]. exists meta. split; [done|]. by apply sorted_eq_iff.
Qed.

(** X15: a second pass writes nothing. After a pass that completed (over
    a remote list with distinct identifiers, on a store in which every
    marked snapshot has its metadata file and every metadata file is a
    record, with attachments stored under plain names other than
    [note.json]), another pass against the same
    state of Bear leaves both areas of the store exactly as they are,
    however it ends: its trace holds console output and the
    [mkdir(exist_ok=True)] of [deleted/] only, no write to a note
    directory and no rename. *)
Theorem repeated_pass_writes_nothing (env : Remote) (w w1 : World)
    (nl : list Note) (r : Res unit) (w2 : World) :
  synchronise env w = (Ok tt, w1) →
  search env = Ok nl →
  NoDup (identifier <$> nl) →
  complete_markers (active w) →
  metadata_records (active w) →
  attachments_apart env nl →
  synchronise env w1 = (r, w2) →
  active w2 = active w1 ∧ deleted w2 = deleted w1 ∧
  ∃ evs, log w2 = log w1 ++ evs ∧ Forall (λ e, ev_target e = None) evs.
Proof.
  intros H Hs Hnd Hc Hr Hp H2.
  eapply (settled_pass_idle env nl); [done| | |done].
  - intros n Hn. by eapply synchronise_settles.
  - intros id. by eapply synchronise_leaves_duplicates.
Qed.

(** X20: a detected tag change is fetched and persisted. In a pass that
    completes, over a remote list with distinct identifiers, a note whose
    snapshot directory for the current timestamp holds metadata with tags
    that are not a rearrangement of the characters of the remote tags
    (the comparison the code makes) is fetched again into that same
    directory: the trace has all the writes of a snapshot for it, then its
    completion marker; afterwards the directory holds the marker, the
    metadata file and the text file, and, when the attachments are stored
    under plain names other than [note.json], the text file holds the
    lines Bear returned and the metadata file holds the remote note. *)
Theorem tag_change_fetched (env : Remote) (w w' : World) (nl : list Note)
    (n meta : Note) :
  synchronise env w = (Ok tt, w') →
  search env = Ok nl →
  NoDup (identifier <$> nl) →
  n ∈ nl →
  file_at (active w) (identifier n) (mdate n) "note.json" = Some (FJson meta) →
  PyStr.sorted (PyStr.chars (tags meta)) ≠ PyStr.sorted (PyStr.chars (tags n)) →
  ∃ lines,
    open_note env (identifier n) = Ok lines ∧
    (∃ l1 l2,
       log w' = log w ++ l1
                ++ snapshot_writes n (identifier n) (mdate n) lines
                ++ Touch (identifier n) (mdate n) :: l2) ∧
    is_Some (file_at (active w') (identifier n) (mdate n) ".done") ∧
    is_Some (file_at (active w') (identifier n) (mdate n) "note.json") ∧
    is_Some (file_at (active w') (identifier n) (mdate n) "note.md") ∧
    (plain_attachments lines →
     file_at (active w') (identifier n) (mdate n) "note.md"
     = Some (FText lines) ∧
     file_at (active w') (identifier n) (mdate n) "note.json"
     = Some (FJson n)).
Proof.
  intros H Hs Hnd Hn Hj Ht.
  assert (must_fetch (active w) n = true) as Hm.
  { unfold must_fetch, tags_differ. rewrite Hj.
    rewrite (bool_decide_eq_true_2 _ Ht). apply orb_true_r. }
  destruct (stale_note_fetched env _ _ _ _ H Hs Hnd Hn Hm)
    as (lines & l1 & l2 & Ho & Hl).
  destruct (synchronise_fetched env _ _ _ _ H Hs Hnd Hn Hm)
    as (lines' & Ho' & Hrest).
  assert (lines' = lines) as -> by congruence.
  exists lines. split; [done|]. split; [eauto|done].
Qed.

(** ** Reading does not write *)

Lemma links_loop_same fuel id line : ∀ offset links w r w',
  links_loop fuel id line offset links w = (r, w') →
  r = Raise SystemExit ∨ w' = w.
Proof.
  induction fuel as [|fuel IH]; intros offset links w r w'; simpl.
  - intros [= <- <-]. by right.
  - destruct (_ =? _); [intros [= <- <-]; by right|].
    destruct (_ =? _); [|apply IH].
    intros [= <- <-]. by left.
Qed.

Lemma links_of_lines_same id lines : ∀ links w r w',
  links_of_lines id links lines w = (r, w') →
  r = Raise SystemExit ∨ w' = w.
Proof.
  unfold links_of_lines.
  induction lines as [|line lines IH]; intros links w r w' H.
  { injection H as <- <-. by right. }
  rewrite for_acc_cons in H.
  apply bind_inv in H as [(links' & w1 & H1 & H)|(e & H1 & ->)].
  - apply links_loop_same in H1 as [[=]| ->]. by eapply IH.
  - apply links_loop_same in H1 as [[= ->]| ->]; [by left|by right].
Qed.

(** X16: [note_links] (and with it [note_contents]) only reads: however it
    ends, the store and the index are as before, and unless it exits on an
    unterminated link it prints nothing either. *)
Theorem accessors_read_only (w : World) (id : string)
    (r : Res (list string)) (w' : World) :
  note_links id w = (r, w') →
  active w' = active w ∧ deleted w' = deleted w ∧ nlist w' = nlist w ∧
  (r ≠ Raise SystemExit → w' = w).
Proof.
  intros H.
  pose proof (note_links_idle _ _ _ _ H) as (Ha & Hd & _).
  pose proof (note_links_keeps nlist keeps_nlist_side _ _ _ _ H) as Hn.
  split_and!; [done..|]. intros Hr.
  unfold note_links in H.
  apply bind_inv in H as [(lines & w1 & H1 & H)|(e & H1 & _)].
  - apply note_contents_inv in H1 as ->.
    by apply links_of_lines_same in H as [->|].
  - by apply note_contents_inv in H1.
Qed.

(** ** Older snapshots *)

#[global] Instance spares_preorder nl id md : PreOrder (spares nl id md).
Proof.
  split.
  - intros w H. by split.
  - intros w1 w2 w3 H1 H2 Hq. destruct (H1 Hq) as [Hq2 E1].
    destruct (H2 Hq2) as [Hq3 E2]. split; [done|].
    intros Ho. by rewrite E2, E1.
Qed.

Lemma sat_for_acc_elem {A S} (R : relation World) `{!PreOrder R}
    (f : S → A → M S) l :
  (∀ acc x, x ∈ l → sat R (f acc x)) → ∀ acc, sat R (for_acc f acc l).
Proof.
  induction l as [|x l IH]; intros Hf acc; simpl.
  - apply sat_ret.
  - apply sat_bind; [apply Hf, list_elem_of_here|]. intros acc'. apply IH.
    intros acc'' y Hy. apply Hf. by apply list_elem_of_further.
Qed.

Section Spares.
Variables (env : Remote) (nl : list Note) (id md : string).

Lemma same_store_spares w w' :
  active w' = active w → nlist w' = nlist w → spares nl id md w w'.
Proof. intros Ha Hn Hq. unfold indexed. rewrite Ha, Hn. by split. Qed.

Lemma idle_spares {A} (m : M A) :
  sat idle m → sat (keeps nlist) m → sat (spares nl id md) m.
Proof.
  intros Hi Hk w r w' H. destruct (Hi _ _ _ H) as [Ha _].
  apply same_store_spares; [done|]. by eapply Hk.
Qed.

Lemma remember_note_spares n : n ∈ nl → sat (spares nl id md) (remember_note n).
Proof.
  intros Hn w r w' [= <- <-] Hq. split; [|done]. intros i m. simpl.
  destruct (decide (i = identifier n)) as [->|Hne].
  - rewrite lookup_insert_eq. by intros [= <-].
  - rewrite lookup_insert_ne by done. apply Hq.
Qed.

Lemma fetch_spares n :
  n ∈ nl → sat (spares nl id md) (fetch env n (identifier n) (mdate n)).
Proof.
  intros Hn w r w' H Hq. split.
  - apply (fetch_keeps nlist keeps_nlist_side) in H. unfold keeps in H.
    unfold indexed. by rewrite H.
  - intros [_ Ho]. eapply (fetch_within env); [done|].
    intros E. by apply (Ho n Hn).
Qed.

Lemma sync_one_spares acc n : n ∈ nl → sat (spares nl id md) (sync_one env acc n).
Proof.
  intros Hn. unfold sync_one, fetch_if_stale. destruct acc as [tc act].
  sat_step; [by apply remember_note_spares|].
  sat_step.
  { apply idle_spares; [apply examine_idle|].
    apply (examine_keeps nlist keeps_nlist_side). }
  destruct a0. sat_step; [|apply sat_ret].
  sat_step; [apply sat_get_world|].
  destruct (_ || _); [by apply fetch_spares|apply sat_ret].
Qed.

Lemma relink_spares tc ident : sat (spares nl id md) (relink env tc ident).
Proof.
  unfold relink. sat_step.
  { apply idle_spares; [apply note_links_idle|].
    apply (note_links_keeps nlist keeps_nlist_side). }
  sat_step. destruct (decide _); [|apply sat_ret].
  intros w r w'. unfold bind, get_world.
  destruct (nlist w !! ident) as [m|] eqn:E.
  - intros H Hq. destruct (Hq _ _ E) as [Ei Hm]. subst ident.
    by eapply fetch_spares.
  - intros [= <- <-]. reflexivity.
Qed.

Lemma remove_deleted_spares name :
  sat (spares nl id md) (remove_deleted (identifier <$> nl) name).
Proof.
  intros w r w' H Hq. apply remove_deleted_spec in H as [Hn H]. split.
  { unfold indexed. by rewrite Hn. }
  intros [Hid _]. unfold snapshot.
  rewrite (history_local (active w') (active w) id); [done|].
  destruct (decide (name ∈ identifier <$> nl)) as [?|Hout];
    [destruct H as (_ & -> & _); done|].
  destruct (deleted w !! name); [destruct H as (_ & -> & _); done|].
  destruct (active w !! name); destruct H as (_ & -> & _); [|done].
  apply lookup_delete_ne. by intros ->.
Qed.

Lemma synchronise_spares w r w' :
  search env = Ok nl → synchronise env w = (r, w') →
  indexed nl w' ∧
  (older_snapshot nl id md →
   snapshot (active w') id md = snapshot (active w) id md).
Proof.
  intros Hs H.
  assert (indexed nl (reset w)) as Hq0.
  { intros i m. simpl. by rewrite lookup_empty. }
  assert (spares nl id md (reset w) w') as Hsp; [|exact (Hsp Hq0)].
  assert (sat (spares nl id md) (first_pass env nl)) as S1.
  { unfold first_pass. apply sat_for_acc_elem; [exact _|].
    intros acc x Hx. by apply sync_one_spares. }
  assert (∀ tc act, sat (spares nl id md) (second_pass env tc act)) as S2.
  { intros tc act. unfold second_pass. apply sat_for_each. intros ident.
    apply relink_spares. }
  assert (sat (spares nl id md) (third_pass (identifier <$> nl))) as S3.
  { unfold third_pass. apply sat_bind; [apply sat_get_world|]. intros w0.
    apply sat_for_each. intros name. apply remove_deleted_spares. }
  destruct (synchronise_cases env _ _ _ _ H Hs)
    as [(e & _ & H1)|(tc & w1 & H1 & [(e & _ & H2)|(w2 & H2 & H3)])].
  - by eapply S1.
  - etrans; [by eapply S1|by eapply S2].
  - etrans; [by eapply S1|]. etrans; [by eapply S2|by eapply S3].
Qed.

End Spares.

(** X17: history is not rewritten. However a pass ends, a snapshot
    directory of a note of the remote list that is not the directory of
    some remote note's current timestamp is exactly as it was: no file
    of it is added, changed or removed. *)
Theorem older_snapshots_untouched (env : Remote) (w : World) (r : Res unit)
    (w' : World) (nl : list Note) (id md : string) :
  synchronise env w = (r, w') →
  search env = Ok nl →
  id ∈ identifier <$> nl →
  (∀ n, n ∈ nl → (identifier n, mdate n) ≠ (id, md)) →
  snapshot (active w') id md = snapshot (active w) id md.
Proof.
  intros H Hs Hid Ho.
  by apply (synchronise_spares env nl id md w r w' Hs H).
Qed.

(** X18: the index never keeps entries from before the pass. However
    [synchronise] ends, every entry of [_nlist] is a note of the list that
    Bear returned in this pass, stored under its own identifier; when the
    [search] call fails the index is left empty. *)
Theorem index_holds_remote_notes (env : Remote) (w : World) (r : Res unit)
    (w' : World) (i : string) (m : Note) :
  synchronise env w = (r, w') →
  nlist w' !! i = Some m →
  identifier m = i ∧ ∃ nl, search env = Ok nl ∧ m ∈ nl.
Proof.
  intros H Hi. destruct (search env) as [nl|e] eqn:Hs.
  - destruct (synchronise_spares env nl "" "" w r w' Hs H) as [Hq _].
    destruct (Hq _ _ Hi) as [? ?]. eauto.
  - exfalso. unfold synchronise in H.
    apply bind_inv in H as [([] & w0 & H0 & H)|(e' & H0 & _)]; [|done].
    injection H0 as <-. rewrite Hs in H.
    apply bind_inv in H as [(a & w1 & H1 & _)|(e' & H1 & _)]; [done|].
    injection H1 as _ <-. simpl in Hi. by rewrite lookup_empty in Hi.
Qed.

(** ** A fetch that Bear interrupts *)

Section Interrupted.
Variable env : Remote.

(** When [open-note] fails, [_synchronise_note] has written the metadata
    and truncated the text file, and nothing else of the directory. *)
Lemma synchronise_note_interrupted note id md w r w' e :
  open_note env id = Raise e →
  _synchronise_note env note id md w = (r, w') →
  r = Raise e ∧
  file_at (active w') id md "note.json" = Some (FJson note) ∧
  file_at (active w') id md "note.md" = Some (FText []) ∧
  file_at (active w') id md ".done" = file_at (active w) id md ".done".
Proof.
  intros Ho. unfold _synchronise_note. intros H.
  apply bind_inv in H as [([] & w1 & H1 & H)|(e' & H1 & _)];
    [|by unfold print, emit in H1].
  destruct (mkdir_ok id md w1) as (w2' & E & _ & Hs).
  apply bind_inv in H as [([] & w2 & H2 & H)|(e' & H2 & _)]; [|congruence].
  apply bind_inv in H as [([] & w3 & H3 & H)|(e' & H3 & _)];
    [|by unfold emit in H3].
  assert (is_Some (snapshot (active w3) id md)) as Hs3.
  { injection H3 as <-. simpl. congruence. }
  apply bind_inv in H as [([] & w4 & H4 & H)|(e' & H4 & _)]; last first.
  { exfalso. unfold write_file, bind, get_world in H4.
    destruct Hs3 as [d Hs3]. rewrite Hs3 in H4. discriminate. }
  apply bind_inv in H as [([] & w5 & H5 & H)|(e' & H5 & _)];
    [|by unfold emit in H5].
  assert (is_Some (snapshot (active w5) id md)) as Hs5.
  { apply write_file_post in H4. injection H5 as <-. simpl.
    unfold file_at in H4. destruct (snapshot (active w4) id md); [eauto|done]. }
  apply bind_inv in H as [([] & w6 & H6 & H)|(e' & H6 & _)]; last first.
  { exfalso. unfold write_file, bind, get_world in H6.
    destruct Hs5 as [d Hs5]. rewrite Hs5 in H6. discriminate. }
  apply bind_inv in H as [(lines & w7 & H7 & H)|(e' & H7 & ->)].
  { unfold lift in H7. congruence. }
  injection H7 as H7 <-. split; [congruence|].
  pose proof (emit_file id md ".done" _ _ _ _ H1) as K1.
  pose proof (mkdir_file id md id md ".done" _ _ _ H2) as K2.
  pose proof (emit_file id md ".done" _ _ _ _ H3) as K3.
  pose proof (write_file_other id md "note.json" _ id md ".done"
                ltac:(congruence) _ _ _ H4) as K4.
  pose proof (emit_file id md ".done" _ _ _ _ H5) as K5.
  pose proof (write_file_other id md "note.md" _ id md ".done"
                ltac:(congruence) _ _ _ H6) as K6.
  pose proof (emit_file id md "note.json" _ _ _ _ H5) as J5.
  pose proof (write_file_other id md "note.md" _ id md "note.json"
                ltac:(congruence) _ _ _ H6) as J6.
  apply write_file_post in H4, H6.
  unfold keeps, file_of in *. split_and!; congruence.
Qed.

Lemma fetch_interrupted note id md w e :
  open_note env id = Raise e →
  ∃ w', fetch env note id md w = (Raise e, w') ∧
        file_at (active w') id md "note.json" = Some (FJson note) ∧
        file_at (active w') id md "note.md" = Some (FText []) ∧
        file_at (active w') id md ".done" = file_at (active w) id md ".done".
Proof.
  intros Ho. unfold fetch, bind.
  destruct (_synchronise_note env note id md w) as [r w'] eqn:H.
  destruct (synchronise_note_interrupted _ _ _ _ _ _ _ Ho H) as (-> & Hrest).
  by exists w'.
Qed.

End Interrupted.

(** X19: a fetch that Bear interrupts. When the [open-note] call fails,
    the fetch ends with that exception after it has rewritten the metadata
    and truncated [note.md]: the snapshot directory holds the new
    metadata and an empty text file, and its completion marker is as
    before. For a directory that already had its marker (a fetch because
    of changed tags, or of a changed title in a link) the note then counts
    as up to date, so the next pass does not fetch it again. *)
Theorem interrupted_refetch (env : Remote) (n : Note) (w : World) (e : Exn) :
  open_note env (identifier n) = Raise e →
  ∃ w', fetch env n (identifier n) (mdate n) w = (Raise e, w') ∧
        file_at (active w') (identifier n) (mdate n) "note.json"
        = Some (FJson n) ∧
        file_at (active w') (identifier n) (mdate n) "note.md"
        = Some (FText []) ∧
        file_at (active w') (identifier n) (mdate n) ".done"
        = file_at (active w) (identifier n) (mdate n) ".done" ∧
        (is_Some (file_at (active w) (identifier n) (mdate n) ".done") →
         must_fetch (active w') n = false).
Proof.
  intros Ho.
  destruct (fetch_interrupted env n _ (mdate n) w e Ho)
    as (w' & H & Hj & Ht & Hd).
  exists w'. split_and!; [done..|]. intros Hm.
  unfold must_fetch, tags_differ. rewrite Hd, Hj.
  rewrite bool_decide_eq_true_2 by done. simpl.
  apply bool_decide_eq_false_2. by intros ?.
Qed.

(** ** The properties above on the scenarios *)

Lemma file_at_singleton id md (d : Snapshot) id' md' name f :
  file_at {[ id := {[ md := d ]} ]} id' md' name = Some f →
  id' = id ∧ md' = md ∧ d !! name = Some f.
Proof.
  unfold file_at, snapshot, history. intros H.
  destruct (decide (id' = id)) as [->|Hid].
  - rewrite lookup_singleton_eq in H. simpl in H.
    destruct (decide (md' = md)) as [->|Hmd].
    + by rewrite lookup_singleton_eq in H.
    + by rewrite lookup_singleton_ne in H.
  - rewrite lookup_singleton_ne in H by done. simpl in H.
    by rewrite lookup_empty in H.
Qed.


Lemma complete_markers_empty : complete_markers ∅.
Proof.
  intros id md [f Hf]. unfold file_at, snapshot, history in Hf.
  rewrite lookup_empty in Hf. simpl in Hf. by rewrite lookup_empty in Hf.
Qed.

Lemma metadata_records_empty : metadata_records ∅.
Proof.
  intros id md f Hf. unfold file_at, snapshot, history in Hf.
  rewrite lookup_empty in Hf. simpl in Hf. by rewrite lookup_empty in Hf.
Qed.

Lemma metadata_records_singleton id md (d : Snapshot) m :
  d !! "note.json" = Some (FJson m) → metadata_records {[ id := {[ md := d ]} ]}.
Proof.
  intros Hj id' md' f Hf. apply file_at_singleton in Hf as (-> & -> & Hf).
  exists m. congruence.
Qed.

Lemma complete_markers_singleton id md (d : Snapshot) :
  is_Some (d !! "note.json") → complete_markers {[ id := {[ md := d ]} ]}.
Proof.
  intros Hj id' md' [f Hf]. apply file_at_singleton in Hf as (-> & -> & _).
  unfold file_at, snapshot, history. rewrite lookup_singleton_eq. simpl.
  by rewrite lookup_singleton_eq.
Qed.

Section Checks.
Import Scenario.

Lemma accessors_after_pass_witness :
  (∀ id, note_exists (snd (synchronise env_same w_xz)) id = true
         ↔ id ∈ identifier <$> [x_old]) ∧
  (∀ id, id ∉ identifier <$> [x_old] →
         note_info (snd (synchronise env_same w_xz)) id = Raise KeyError) ∧
  (NoDup (identifier <$> [x_old]) →
   ∀ n, n ∈ [x_old] →
        note_info (snd (synchronise env_same w_xz)) (identifier n) = Ok n).
Proof.
  apply (accessors_after_pass env_same w_xz (snd (synchronise env_same w_xz))
           [x_old]).
  - vm_compute; reflexivity.
  - reflexivity.
Defined.

Lemma titles_after_pass_witness :
  note_list (snd (synchronise env_same w_xz)) ≡ₚ [x_old] ∧
  ∀ t, has_note_with_title (snd (synchronise env_same w_xz)) t = true
       ↔ ∃ n, n ∈ [x_old] ∧ title n = t.
Proof.
  apply (titles_after_pass env_same w_xz (snd (synchronise env_same w_xz))
           [x_old]).
  - vm_compute; reflexivity.
  - reflexivity.
  - apply NoDup_singleton.
Defined.

Lemma deleted_entries_kept_witness :
  deleted (snd (synchronise env_same w_xz_dup)) !! "Z" = Some z_deleted.
Proof.
  apply (deleted_entries_kept env_same w_xz_dup (Ok tt)
           (snd (synchronise env_same w_xz_dup)) "Z" z_deleted).
  - vm_compute; reflexivity.
  - vm_compute; reflexivity.
Defined.

Lemma remote_notes_marked_witness :
  is_Some (file_at (active (snd (synchronise env_renamed w_x)))
             (identifier x_renamed) (mdate x_renamed) ".done").
Proof.
  apply (remote_notes_marked env_renamed w_x (snd (synchronise env_renamed w_x))
           [x_renamed] x_renamed).
  - vm_compute; reflexivity.
  - reflexivity.
  - apply list_elem_of_singleton. reflexivity.
Defined.

Lemma remote_files_kept_witness :
  is_Some (file_at (active (snd (synchronise env_renamed w_x))) "X" D1 "note.md").
Proof.
  apply (remote_files_kept env_renamed w_x (Ok tt)
           (snd (synchronise env_renamed w_x)) [x_renamed] "X" D1 "note.md").
  - vm_compute; reflexivity.
  - reflexivity.
  - apply list_elem_of_singleton. reflexivity.
  - exists (FText ["hello"]). vm_compute; reflexivity.
Defined.

Lemma deleted_area_after_pass_witness :
  deleted (snd (synchronise env_same w_xz)) !! "Z"
  = match deleted w_xz !! "Z" with
    | Some d => Some d
    | None => if decide ("Z" ∈ identifier <$> [x_old]) then None
              else active w_xz !! "Z"
    end.
Proof.
  apply (deleted_area_after_pass env_same w_xz (snd (synchronise env_same w_xz))
           [x_old] "Z").
  - vm_compute; reflexivity.
  - reflexivity.
Defined.

Lemma active_area_after_pass_witness :
  active (snd (synchronise env_same w_xz_dup)) !! "Z"
  = match deleted w_xz_dup !! "Z" with
    | Some _ => active w_xz_dup !! "Z"
    | None => None
    end.
Proof.
  apply (active_area_after_pass env_same w_xz_dup
           (snd (synchronise env_same w_xz_dup)) [x_old] "Z").
  - vm_compute; reflexivity.
  - reflexivity.
  - intros H. apply list_elem_of_singleton in H. discriminate H.
Defined.



Lemma mdate_order_witness :
  (String.le (mdate x_old) (mdate x_renamed)
   ↔ String.le (modificationDate x_old) (modificationDate x_renamed)) ∧
  (mdate x_old = mdate x_renamed
   ↔ modificationDate x_old = modificationDate x_renamed).
Proof.
  apply (mdate_order x_old x_renamed).
  intros i. unfold colon_at. simpl.
  do 20 (destruct i as [|i]; [simpl; done|]). simpl. done.
Defined.

Lemma attachment_ref_marker_witness :
  attachment_ref "file" "see [file:U/a.pdf] end" = ("U/a.pdf", "a.pdf").
Proof.
  apply (attachment_ref_marker "file" "see " "U" "a.pdf" " end").
  - intros p Hp. do 4 (destruct p as [|p]; [by vm_compute|]). simpl in Hp. lia.
  - intros i. do 1 (destruct i as [|i]; [simpl; done|]). simpl. done.
  - intros i. do 1 (destruct i as [|i]; [simpl; done|]). simpl. done.
  - intros i. do 5 (destruct i as [|i]; [simpl; done|]). simpl. done.
Defined.

Lemma complete_markers_kept_witness :
  complete_markers (active (snd (synchronise env_renamed w_x))).
Proof.
  apply (complete_markers_kept env_renamed w_x (Ok tt)
           (snd (synchronise env_renamed w_x))).
  - vm_compute; reflexivity.
  - apply complete_markers_singleton. vm_compute. eauto.
Defined.

Lemma env_attachment_plain : attachments_apart env_attachment [y_note].
Proof.
  intros n lines _ Ho line nm Hl Hnm. simpl in Ho. injection Ho as <-.
  apply elem_of_cons in Hl as [->|Hl];
    [|apply list_elem_of_singleton in Hl as ->].
  - assert (attachment_names "[file:U/a.pdf]" = ["a.pdf"]) as E
      by (vm_compute; reflexivity).
    rewrite E in Hnm. apply list_elem_of_singleton in Hnm as ->.
    split; [|done]. split_and!; try done.
    intros i. do 5 (destruct i as [|i]; [simpl; done|]). simpl. done.
  - assert (attachment_names "second line" = []) as E
      by (vm_compute; reflexivity).
    rewrite E in Hnm. by apply elem_of_nil in Hnm.
Qed.

Lemma pass_settles_witness :
  is_Some (file_at (active (snd (synchronise env_attachment w_empty)))
             (identifier y_note) (mdate y_note) ".done") ∧
  ∃ meta,
    file_at (active (snd (synchronise env_attachment w_empty)))
      (identifier y_note) (mdate y_note) "note.json" = Some (FJson meta) ∧
    PyStr.sorted (PyStr.chars (tags meta))
    = PyStr.sorted (PyStr.chars (tags y_note)).
Proof.
  apply (pass_settles env_attachment w_empty
           (snd (synchronise env_attachment w_empty)) [y_note] y_note).
  - vm_compute; reflexivity.
  - reflexivity.
  - apply NoDup_singleton.
  - apply complete_markers_empty.
  - apply metadata_records_empty.
  - apply env_attachment_plain.
  - apply list_elem_of_singleton. reflexivity.
Defined.

Lemma env_renamed_plain : attachments_apart env_renamed [x_renamed].
Proof.
  intros n lines _ Ho line nm Hl Hnm. simpl in Ho. injection Ho as <-.
  apply list_elem_of_singleton in Hl as ->.
  assert (attachment_names "hello" = []) as E by (vm_compute; reflexivity).
  rewrite E in Hnm. by apply elem_of_nil in Hnm.
Qed.

Lemma repeated_pass_writes_nothing_witness :
  active (snd (synchronise env_renamed (snd (synchronise env_renamed w_x))))
  = active (snd (synchronise env_renamed w_x)) ∧
  deleted (snd (synchronise env_renamed (snd (synchronise env_renamed w_x))))
  = deleted (snd (synchronise env_renamed w_x)) ∧
  ∃ evs,
    log (snd (synchronise env_renamed (snd (synchronise env_renamed w_x))))
    = log (snd (synchronise env_renamed w_x)) ++ evs ∧
    Forall (λ e, ev_target e = None) evs.
Proof.
  apply (repeated_pass_writes_nothing env_renamed w_x
           (snd (synchronise env_renamed w_x)) [x_renamed] (Ok tt)
           (snd (synchronise env_renamed (snd (synchronise env_renamed w_x))))).
  - vm_compute; reflexivity.
  - reflexivity.
  - apply NoDup_singleton.
  - apply complete_markers_singleton. vm_compute. eauto.
  - apply (metadata_records_singleton _ _ _ x_old). vm_compute; reflexivity.
  - apply env_renamed_plain.
  - vm_compute; reflexivity.
Defined.

Lemma tag_change_fetched_witness :
  ∃ lines,
    open_note env_tagged (identifier x_tagged) = Ok lines ∧
    (∃ l1 l2,
       log (snd (synchronise env_tagged w_x))
       = log w_x ++ l1
         ++ snapshot_writes x_tagged (identifier x_tagged) (mdate x_tagged) lines
         ++ Touch (identifier x_tagged) (mdate x_tagged) :: l2) ∧
    is_Some (file_at (active (snd (synchronise env_tagged w_x)))
               (identifier x_tagged) (mdate x_tagged) ".done") ∧
    is_Some (file_at (active (snd (synchronise env_tagged w_x)))
               (identifier x_tagged) (mdate x_tagged) "note.json") ∧
    is_Some (file_at (active (snd (synchronise env_tagged w_x)))
               (identifier x_tagged) (mdate x_tagged) "note.md") ∧
    (plain_attachments lines →
     file_at (active (snd (synchronise env_tagged w_x)))
       (identifier x_tagged) (mdate x_tagged) "note.md" = Some (FText lines) ∧
     file_at (active (snd (synchronise env_tagged w_x)))
       (identifier x_tagged) (mdate x_tagged) "note.json"
     = Some (FJson x_tagged)).
Proof.
  apply (tag_change_fetched env_tagged w_x (snd (synchronise env_tagged w_x))
           [x_tagged] x_tagged x_old).
  - vm_compute; reflexivity.
  - reflexivity.
  - apply NoDup_singleton.
  - apply list_elem_of_singleton. reflexivity.
  - vm_compute; reflexivity.
  - vm_compute. intros H. discriminate H.
Defined.

Lemma accessors_read_only_witness :
  active (one_note_world [example_line]) = active (one_note_world [example_line]) ∧
  deleted (one_note_world [example_line]) = deleted (one_note_world [example_line]) ∧
  nlist (one_note_world [example_line]) = nlist (one_note_world [example_line]) ∧
  (Ok ["Project Plan"; "Budget"] ≠ Raise SystemExit →
   one_note_world [example_line] = one_note_world [example_line]).
Proof.
  apply (accessors_read_only (one_note_world [example_line]) "A"
           (Ok ["Project Plan"; "Budget"]) (one_note_world [example_line])).
  vm_compute; reflexivity.
Defined.

Lemma older_snapshots_untouched_witness :
  snapshot (active (snd (synchronise env_renamed w_x))) "X" D1
  = snapshot (active w_x) "X" D1.
Proof.
  apply (older_snapshots_untouched env_renamed w_x (Ok tt)
           (snd (synchronise env_renamed w_x)) [x_renamed] "X" D1).
  - vm_compute; reflexivity.
  - reflexivity.
  - apply list_elem_of_singleton. reflexivity.
  - intros n Hn. apply list_elem_of_singleton in Hn as ->.
    vm_compute. intros H. discriminate H.
Defined.

Lemma index_holds_remote_notes_witness :
  identifier x_old = "X" ∧ ∃ nl, search env_same = Ok nl ∧ x_old ∈ nl.
Proof.
  apply (index_holds_remote_notes env_same w_xz (Ok tt)
           (snd (synchronise env_same w_xz)) "X" x_old).
  - vm_compute; reflexivity.
  - vm_compute; reflexivity.
Defined.

Lemma interrupted_refetch_witness :
  ∃ w', fetch env_offline x_tagged (identifier x_tagged) (mdate x_tagged) w_x
        = (Raise (XCallError "timeout"), w') ∧
        file_at (active w') (identifier x_tagged) (mdate x_tagged) "note.json"
        = Some (FJson x_tagged) ∧
        file_at (active w') (identifier x_tagged) (mdate x_tagged) "note.md"
        = Some (FText []) ∧
        file_at (active w') (identifier x_tagged) (mdate x_tagged) ".done"
        = file_at (active w_x) (identifier x_tagged) (mdate x_tagged) ".done" ∧
        (is_Some (file_at (active w_x) (identifier x_tagged) (mdate x_tagged)
                    ".done") →
         must_fetch (active w') x_tagged = false).
Proof.
  apply (interrupted_refetch env_offline x_tagged w_x (XCallError "timeout")).
  reflexivity.
Defined.

End Checks.
